(** * irc-rss-feed-bot: the feed entry pipeline of [ircrssfeedbot/feed.py]

    A shallow embedding of [feed.py] (with the constants of [config.py] it
    reads) and the properties of its entry pipeline.

    - Entries are records; the two dataclasses live in modules named
      after them, with the [__eq__] and [__hash__] the [dataclass]
      decorator generates from the [compare] flags of their fields.
    - Entry and list objects that the code mutates in place live in an
      object store addressed by location, so that the list memoised by
      [ttl_cache] and the lists the feeds work on can share objects,
      as they do in Python.
    - Calls to collaborators (HTTP transport, clock, delivery history,
      URL shortener) are recorded in a trace; their answers come from an
      [Externals] record. *)

From Stdlib Require Import ZArith Lia Ascii.
From stdpp Require Import base option strings list gmap.

Local Open Scope Z_scope.
Local Open Scope string_scope.
Local Open Scope list_scope.

(** ** Python values the pipeline works with *)

(** Exceptions the modelled code can raise.  [Stuck] stands for a
    reference to an object of the wrong kind; well-typed Python code
    never reaches it. *)
Inductive exn :=
| RequestException (what : string)
| UnboundLocalError (name : string)
| AssertionError
| KeyError (key : string)
| IndexError
| TypeError (what : string)
| ValueError (what : string)
| Stuck.

Inductive result (A : Type) :=
| Ok (a : A)
| Raise (e : exn).
Arguments Ok {A} a.
Arguments Raise {A} e.

(** What a rich-comparison method answers. *)
Inductive comparison_answer :=
| NotImplemented
| Answer (b : bool).

(** [s.startswith(p)] *)
Definition startswith (s p : string) : bool := String.prefix p s.

(** [s[lo:hi]] for indices that are not negative; like Python's slice it
    is cut at the end of [s]. *)
Definition str_slice (s : string) (lo hi : nat) : string :=
  String.substring lo (hi - lo) s.

(** [s[lo:]] *)
Definition str_from (s : string) (lo : nat) : string :=
  String.substring lo (String.length s - lo) s.

(** [s.replace(old, new, 1)]: only the first occurrence is replaced. *)
Definition replace_first (s old new : string) : string :=
  match String.index 0 old s with
  | Some i => str_slice s 0 i +:+ new +:+ str_from s (i + String.length old)
  | None => s
  end.

(** [list(dict.fromkeys(keys))].  A dict keeps its keys in insertion
    order and, when a key equal to an existing one is inserted again,
    keeps the key object it already has.  [eqb] is the [==] of the keys;
    equal keys have equal hashes, so the hash does not change which key
    is found. *)
Definition dict_setdefault_key {A} (eqb : A → A → bool) (d : list A) (k : A) : list A :=
  if existsb (eqb k) d then d else d ++ [k].

Definition dict_fromkeys {A} (eqb : A → A → bool) (keys : list A) : list A :=
  fold_left (dict_setdefault_key eqb) keys [].

(** [xs[:stop]] for a list, with Python's reading of a negative [stop]. *)
Definition list_slice_to {A} (xs : list A) (stop : Z) : list A :=
  if (stop <? 0)%Z
  then take (Z.to_nat (Z.of_nat (length xs) + stop)) xs
  else take (Z.to_nat stop) xs.

(** [range(lo, hi)] *)
Definition py_range (lo hi : Z) : list Z :=
  map (λ i, lo + Z.of_nat i) (seq 0 (Z.to_nat (hi - lo))).

(** ** [config.py] *)

Module config.
Definition DEDUP_STRATEGY_DEFAULT : string := "channel".
Definition MAX_POSTS_OF_NEW_FEED : Z := 3.
Definition REQUEST_TIMEOUT : Z := 90.
Definition USER_AGENT : string :=
  "Mozilla/5.0 (X11; Ubuntu; Linux x86_64; rv:65.0) Gecko/20100101 Firefox/65.0".
End config.

(** ** The regular expressions of [re] *)

(** A [re.Match]: the span of the whole match and its named groups (a
    group that took no part in the match is [None]). *)
Record Match := mkMatch {
  span : nat * nat;
  groupdict : list (string * option string)
}.

(** ** [FeedEntry] and [ShortenedFeedEntry] *)

Module FeedEntry.

(** [@dataclasses.dataclass(unsafe_hash=True)]; [title] has
    [compare=False], [long_url] has [compare=True]. *)
Record t := mk { title : string; long_url : string }.

Definition post_url (self : t) : string := long_url self.

(** The tuple of the fields with [compare=True]. *)
Definition compare_fields (self : t) : list string := [long_url self].

End FeedEntry.

Module ShortenedFeedEntry.

(** [@dataclasses.dataclass class ShortenedFeedEntry(FeedEntry)]: the
    inherited fields, then [short_url] with [compare=False]. *)
Record t := mk { title : string; long_url : string; short_url : string }.

Definition post_url (self : t) : string := short_url self.

Definition compare_fields (self : t) : list string := [long_url self].

End ShortenedFeedEntry.

(** [Union[FeedEntry, ShortenedFeedEntry]] *)
Inductive entry :=
| Plain (e : FeedEntry.t)
| Shortened (e : ShortenedFeedEntry.t).

Definition entry_title (x : entry) : string :=
  match x with
  | Plain e => FeedEntry.title e
  | Shortened e => ShortenedFeedEntry.title e
  end.

Definition entry_long_url (x : entry) : string :=
  match x with
  | Plain e => FeedEntry.long_url e
  | Shortened e => ShortenedFeedEntry.long_url e
  end.

Inductive class_name :=
| FeedEntry_class
| ShortenedFeedEntry_class.

(** [x.__class__] *)
Definition __class__ (x : entry) : class_name :=
  match x with
  | Plain _ => FeedEntry_class
  | Shortened _ => ShortenedFeedEntry_class
  end.

(** [x.post_url], dispatched on the class of [x]. *)
Definition entry_post_url (x : entry) : string :=
  match x with
  | Plain e => FeedEntry.post_url e
  | Shortened e => ShortenedFeedEntry.post_url e
  end.

(** Reading the property, with the entry as it is afterwards. *)
Definition read_post_url (x : entry) : string * entry := (entry_post_url x, x).

Definition fields_eqb (a b : list string) : bool :=
  bool_decide (a = b).

(** The [__eq__] that [dataclass] writes for both classes:
    [if other.__class__ is self.__class__: return fields(self) == fields(other)]
    and [NotImplemented] otherwise. *)
Definition __eq__ (self other : entry) : comparison_answer :=
  match self, other with
  | Plain a, Plain b =>
      Answer (fields_eqb (FeedEntry.compare_fields a) (FeedEntry.compare_fields b))
  | Shortened a, Shortened b =>
      Answer (fields_eqb (ShortenedFeedEntry.compare_fields a)
                         (ShortenedFeedEntry.compare_fields b))
  | _, _ => NotImplemented
  end.

(** [a == b]: the method of one side, then the reflected one, then
    identity.  [same_object] is [a is b]. *)
Definition py_eq (same_object : bool) (a b : entry) : bool :=
  match __eq__ a b with
  | Answer r => r
  | NotImplemented =>
      match __eq__ b a with
      | Answer r => r
      | NotImplemented => same_object
      end
  end.

(** [==] on values: two objects of different classes are never the same
    object, and for two of the same class [__eq__] answers. *)
Definition entry_eqb (a b : entry) : bool := py_eq false a b.

(** [==] of two [FeedEntry] objects. *)
Definition feed_entry_eqb (a b : FeedEntry.t) : bool := entry_eqb (Plain a) (Plain b).

Section Hashing.

(** Python's [hash] of a string and of a tuple of hashes. *)
Variable hash_str : string → Z.
Variable hash_tuple : list Z → Z.

(** [unsafe_hash=True] gives [FeedEntry] the [__hash__] of the tuple of
    its compared fields.  [ShortenedFeedEntry] is decorated with a plain
    [@dataclass] ([eq=True], [frozen=False], no [unsafe_hash]), which
    sets its [__hash__] to [None]: hashing one is a [TypeError]. *)
Definition __hash__ (self : entry) : result Z :=
  match self with
  | Plain e => Ok (hash_tuple (map hash_str (FeedEntry.compare_fields e)))
  | Shortened _ => Raise (TypeError "unhashable type: 'ShortenedFeedEntry'")
  end.

End Hashing.

(** ** [Feed._dedupe_entries] *)

Definition _dedupe_entries (entries : list FeedEntry.t) : list FeedEntry.t :=
  let entries_deduped := dict_fromkeys feed_entry_eqb entries in
  let num_removed := Z.of_nat (length entries) - Z.of_nat (length entries_deduped) in
  if (num_removed >? 0)%Z then entries_deduped else entries.

(** ** Feed configuration

    The per-feed mapping read from the YAML file, with the keys
    [feed.py] looks at.  A key that is absent is [None].  The file is
    validated when it is loaded, outside [feed.py]; the records hold
    values of the types [feed.py] expects. *)

(** A whitelist or blacklist: [{'title': [...], 'url': [...], 'explain': ...}]. *)
Record searchlist := mkSearchlist {
  sl_title : option (list string);
  sl_url : option (list string);
  sl_explain : option bool
}.

(** [{'pattern': ..., 'repl': ...}] *)
Record sub_rule := mkSubRule { pattern : string; repl : string }.

(** [sub: {'title': rule, 'url': rule}] *)
Record sub_config := mkSub {
  sub_title : option sub_rule;
  sub_url : option sub_rule
}.

(** [format: {'re': {'title': ..., 'url': ...}, 'str': {'title': ..., 'url': ...}}] *)
Record format_config := mkFormat {
  fmt_re_title : option string;
  fmt_re_url : option string;
  fmt_str_title : option string;
  fmt_str_url : option string
}.

Record feed_config := mkFeedConfig {
  cfg_whitelist : option searchlist;
  cfg_blacklist : option searchlist;
  cfg_https : option bool;
  cfg_sub : option sub_config;
  cfg_format : option format_config;
  cfg_new : option string;
  cfg_dedup : option string;
  cfg_shorten : option bool
}.

(** [key in d] for an optional key of a configuration mapping. *)
Definition present {A} (o : option A) : bool :=
  match o with
  | Some _ => true
  | None => false
  end.

(** Truth value of a mapping: it has a key. *)
Definition searchlist_truthy (sl : searchlist) : bool :=
  present (sl_title sl) || present (sl_url sl) || present (sl_explain sl).

Definition sub_truthy (sub : sub_config) : bool :=
  present (sub_title sub) || present (sub_url sub).

(** Truth value of an optional flag read with [.get(key, default)]. *)
Definition flag (o : option bool) (default : bool) : bool :=
  match o with
  | Some b => b
  | None => default
  end.

(** [searchlist.get(searchlist_key, [])] for the two keys [is_listed] reads. *)
Definition searchlist_get (sl : searchlist) (searchlist_key : string) : list string :=
  if String.eqb searchlist_key "title" then default [] (sl_title sl)
  else if String.eqb searchlist_key "url" then default [] (sl_url sl)
  else [].

(** ** Objects, collaborators and effects *)

(** A location is an index into the object store. *)
Abbreviation loc := nat.

(** The objects that are shared and changed in place: [FeedEntry]
    instances and the lists holding them. *)
Inductive obj :=
| OEntry (e : FeedEntry.t)
| OList (items : list loc).

(** Calls that leave the process. *)
Inductive event :=
| EvGet (url : string) (timeout : Z) (user_agent : string)
| EvSleep (seconds : Z)
| EvIsNewFeed (channel name : string)
| EvSelectUnpostedForChannel (channel name : string) (long_urls : list string)
| EvSelectUnpostedForChannelFeed (channel name : string) (long_urls : list string)
| EvShortenUrls (long_urls : list string).

(** The collaborators of [feed.py].
    - [re_search pattern s] is [re.search], [re_sub pattern repl s] is
      [re.sub], for patterns that compile;
    - [format_map template params] is [str.format_map];
    - [transport url n] is what [requests.get] followed by
      [raise_for_status] gives for the request sent after [n] earlier
      ones: the content of the response, or the exception raised;
    - [feedparser_parse content] is the [(title, link)] of each of
      [feedparser.parse(content)['entries']];
    - the last four are the methods of [Database] and of
      [bitlyshortener.Shortener] that are called. *)
Record Externals := mkExternals {
  re_search : string → string → option Match;
  re_sub : string → string → string → string;
  format_map : string → list (string * option string) → result string;
  transport : string → nat → result string;
  feedparser_parse : string → list (string * string);
  is_new_feed : string → string → bool;
  select_unposted_for_channel : string → string → list string → list string;
  select_unposted_for_channel_feed : string → string → list string → list string;
  shorten_urls : list string → list string
}.

(** The state of the process: the object store (a location is an index
    into it), the [TTLCache] behind [_url_entries] (for each URL the
    time it expires at and the list object it holds), the clock the
    cache reads, the number of requests sent, and the calls made. *)
Record world := mkWorld {
  heap : list obj;
  url_cache : gmap string (Z * loc);
  clock : Z;
  requests_sent : nat;
  trace : list event
}.

Definition set_heap (w : world) (h : list obj) : world :=
  mkWorld h (url_cache w) (clock w) (requests_sent w) (trace w).

Definition set_url_cache (w : world) (c : gmap string (Z * loc)) : world :=
  mkWorld (heap w) c (clock w) (requests_sent w) (trace w).

Definition emit (w : world) (ev : event) : world :=
  mkWorld (heap w) (url_cache w) (clock w) (requests_sent w) (trace w ++ [ev]).

Definition empty_world : world := mkWorld [] ∅ 0 0 [].

(** A computation: it reads and changes the world, and returns or
    raises.  What it did to the world before raising stays done. *)
Definition M (A : Type) : Type := world → result A * world.

Definition ret {A} (a : A) : M A := λ w, (Ok a, w).

Definition raise {A} (e : exn) : M A := λ w, (Raise e, w).

Definition bind {A B} (m : M A) (k : A → M B) : M B :=
  λ w, match m w with
       | (Ok a, w') => k a w'
       | (Raise e, w') => (Raise e, w')
       end.

Declare Scope py_scope.
Delimit Scope py_scope with py.
Notation "'let!' x ':=' m 'in' k" := (bind m (λ x, k))
  (at level 10, x pattern, m at level 100, k at level 200) : py_scope.
Notation "m ';;' k" := (bind m (λ _, k))
  (at level 100, k at level 200, right associativity) : py_scope.
Local Open Scope py_scope.

(** [for x in xs: body x] *)
Fixpoint for_each {A} (xs : list A) (body : A → M unit) : M unit :=
  match xs with
  | [] => ret tt
  | x :: rest => body x ;; for_each rest body
  end.

(** [[f x for x in xs]] *)
Fixpoint comprehension {A B} (xs : list A) (f : A → M B) : M (list B) :=
  match xs with
  | [] => ret []
  | x :: rest =>
      let! y := f x in
      let! ys := comprehension rest f in
      ret (y :: ys)
  end.

(** [[x for x in xs if cond x]] *)
Fixpoint comprehension_if {A} (xs : list A) (cond : A → M bool) : M (list A) :=
  match xs with
  | [] => ret []
  | x :: rest =>
      let! keep := cond x in
      let! ys := comprehension_if rest cond in
      ret (if keep then x :: ys else ys)
  end.

(** *** The object store *)

Definition alloc (o : obj) : M loc :=
  λ w, (Ok (length (heap w)), set_heap w (heap w ++ [o])).

Definition get_entry (l : loc) : M FeedEntry.t :=
  λ w, match heap w !! l with
       | Some (OEntry e) => (Ok e, w)
       | _ => (Raise Stuck, w)
       end.

Definition get_list (l : loc) : M (list loc) :=
  λ w, match heap w !! l with
       | Some (OList items) => (Ok items, w)
       | _ => (Raise Stuck, w)
       end.

(** Assignment to the attributes of the entry object at [l]. *)
Definition set_entry (l : loc) (e : FeedEntry.t) : M unit :=
  λ w, match heap w !! l with
       | Some (OEntry _) => (Ok tt, set_heap w (<[l := OEntry e]> (heap w)))
       | _ => (Raise Stuck, w)
       end.

Definition set_title (l : loc) (title : string) : M unit :=
  let! e := get_entry l in
  set_entry l (FeedEntry.mk title (FeedEntry.long_url e)).

Definition set_long_url (l : loc) (long_url : string) : M unit :=
  let! e := get_entry l in
  set_entry l (FeedEntry.mk (FeedEntry.title e) long_url).

(** [xs[index] = x] on the list object at [l]. *)
Definition list_setitem (l : loc) (index : nat) (x : loc) : M unit :=
  let! items := get_list l in
  if bool_decide (index < length items)%nat
  then λ w, (Ok tt, set_heap w (<[l := OList (<[index := x]> items)]> (heap w)))
  else raise IndexError.

(** The entry objects of the list object at [l], each with its fields as
    they are now. *)
Definition read_entries (l : loc) : M (list (loc * FeedEntry.t)) :=
  let! items := get_list l in
  comprehension items (λ entry, let! e := get_entry entry in ret (entry, e)).

(** [enumerate(xs)] *)
Definition enumerate {A} (xs : list A) : list (nat * A) :=
  zip (seq 0 (length xs)) xs.

(** [d[key] = value] on a dict kept as the list of its items. *)
Fixpoint dict_setitem {V} (d : list (string * V)) (key : string) (value : V) : list (string * V) :=
  match d with
  | [] => [(key, value)]
  | (k, v) :: rest =>
      if String.eqb k key then (k, value) :: rest
      else (k, v) :: dict_setitem rest key value
  end.

(** [d.update(other)] *)
Definition dict_update {V} (d other : list (string * V)) : list (string * V) :=
  fold_left (λ acc kv, dict_setitem acc kv.1 kv.2) other d.

(** Constants that [feed.py] reads from [config] and that [config.py]
    does not define, and the configuration loaded into
    [config.INSTANCE['feeds']]. *)
Record Settings := mkSettings {
  READ_ATTEMPTS_MAX : Z;
  URL_CACHE_TTL : Z;
  NEW_FEED_POSTS_DEFAULT : string;
  NEW_FEED_POSTS_MAX : gmap string Z;
  INSTANCE_feeds : gmap string (gmap string feed_config)
}.

Module Feed.

(** The fields of the [Feed] dataclass and the two attributes
    [__post_init__] sets.  [db] and [url_shortener] are the
    collaborators of [Externals]. *)
Record t := mk {
  channel : string;
  name : string;
  url : string;
  _feed_config : feed_config;
  entries : loc
}.

End Feed.

Section Pipeline.

Context (E : Externals) (K : Settings).

(** *** [FeedEntry.is_listed] *)

(** The inner loop: the patterns of one key against one value. *)
Fixpoint is_listed_patterns (searchlist_key val : string) (patterns : list string)
  : option (string * Match) :=
  match patterns with
  | [] => None
  | searchlisted_pattern :: rest =>
      match re_search E searchlisted_pattern val with
      | Some match_ => Some (searchlist_key, match_)
      | None => is_listed_patterns searchlist_key val rest
      end
  end.

(** The outer loop over the items of the dict it is given. *)
Fixpoint is_listed_items (searchlist : searchlist) (items : list (string * string))
  : option (string * Match) :=
  match items with
  | [] => None
  | (searchlist_key, val) :: rest =>
      match is_listed_patterns searchlist_key val (searchlist_get searchlist searchlist_key) with
      | Some found => Some found
      | None => is_listed_items searchlist rest
      end
  end.

Definition is_listed (self : FeedEntry.t) (searchlist : searchlist) : option (string * Match) :=
  is_listed_items searchlist
    [("title", FeedEntry.title self); ("url", FeedEntry.long_url self)].

(** *** [Feed._dedupe_entries] on list objects

    The same function, on a list object: it returns a new list object
    when it removed something and the list it was given otherwise.
    The keys of the dict are the entry objects; they compare by their
    fields as they are at the call. *)
Definition _dedupe_entries_obj (entries : loc) : M loc :=
  let! keyed := read_entries entries in
  let entries_deduped := dict_fromkeys (λ a b, feed_entry_eqb a.2 b.2) keyed in
  let num_removed := (Z.of_nat (length keyed) - Z.of_nat (length entries_deduped))%Z in
  if (num_removed >? 0)%Z then alloc (OList entries_deduped.*1) else ret entries.

(** *** [Feed._url_entries] *)

(** [requests.get(url, timeout=..., headers=...)] and
    [response.raise_for_status()]. *)
Definition requests_get (url : string) : M string :=
  λ w,
    let w' := mkWorld (heap w) (url_cache w) (clock w) (1 + requests_sent w)
                      (trace w ++ [EvGet url config.REQUEST_TIMEOUT config.USER_AGENT]) in
    (transport E url (requests_sent w), w').

(** [time.sleep(seconds)] *)
Definition sleep (seconds : Z) : M unit :=
  λ w, (Ok tt, mkWorld (heap w) (url_cache w) (clock w + seconds) (requests_sent w)
                       (trace w ++ [EvSleep seconds])).

(** The [try] block of one attempt: what it returned, or the
    [RequestException] the [except] clause caught.  Any other
    exception is not caught. *)
Definition try_get (url : string) : M (string + exn) :=
  λ w, match requests_get url w with
       | (Ok response, w') => (Ok (inl response), w')
       | (Raise (RequestException what), w') => (Ok (inr (RequestException what)), w')
       | (Raise e, w') => (Raise e, w')
       end.

(** The [for num_attempt in range(...)] loop, on the attempt numbers
    still to come.  When the loop ends without [break], [response] was
    never bound. *)
Fixpoint read_url (url : string) (attempts : list Z) : M string :=
  match attempts with
  | [] => raise (UnboundLocalError "response")
  | num_attempt :: rest =>
      let! outcome := try_get url in
      match outcome with
      | inl response => ret response
      | inr exc =>
          if (num_attempt =? READ_ATTEMPTS_MAX K)%Z then raise exc
          else sleep (2 ^ num_attempt) ;; read_url url rest
      end
  end.

(** The body of [_url_entries], below the decorators. *)
Definition _url_entries_body (url : string) : M loc :=
  let! content := read_url url (py_range 1 (READ_ATTEMPTS_MAX K + 1)) in
  let! entries :=
    comprehension (feedparser_parse E content)
      (λ e, alloc (OEntry (FeedEntry.mk e.1 e.2))) in
  let! entries := alloc (OList entries) in
  _dedupe_entries_obj entries.

(** [cache[k]] of the [TTLCache]: a value that has not expired. *)
Definition cache_getitem (url : string) : M (option loc) :=
  λ w, match url_cache w !! url with
       | Some (expires, v) =>
           if (clock w <? expires)%Z then (Ok (Some v), w)
           else (Ok None, set_url_cache w (delete url (url_cache w)))
       | None => (Ok None, w)
       end.

(** [cache.setdefault(k, v)] after a miss. *)
Definition cache_setdefault (url : string) (v : loc) : M loc :=
  λ w, (Ok v, set_url_cache w (<[url := ((clock w + URL_CACHE_TTL K)%Z, v)]> (url_cache w))).

(** [_url_entries] as decorated with
    [ttl_cache(maxsize=sys.maxsize, ttl=config.URL_CACHE_TTL)]: the
    value is the list object itself, and a call that raises stores
    nothing. *)
Definition _url_entries (url : string) : M loc :=
  let! cached := cache_getitem url in
  match cached with
  | Some v => ret v
  | None =>
      let! v := _url_entries_body url in
      cache_setdefault url v
  end.

(** *** [Feed._entries] *)

(** The two statements of the whitelist loop that annotate a match. *)
Definition explain_title (title : string) (match_ : Match) : string :=
  let '(span0, span1) := span match_ in
  str_slice title 0 span0 +:+ "*" +:+ str_slice title span0 span1 +:+ "*"
    +:+ str_from title span1.

Fixpoint whitelist_loop (whitelist : searchlist) (explain : option bool)
    (entries : list loc) (whitelisted_entries : list loc) : M (list loc) :=
  match entries with
  | [] => ret whitelisted_entries
  | entry :: rest =>
      let! e := get_entry entry in
      match is_listed e whitelist with
      | Some (key, match_) =>
          (if flag explain false && String.eqb key "title"
           then set_title entry (explain_title (FeedEntry.title e) match_)
           else ret tt) ;;
          whitelist_loop whitelist explain rest (whitelisted_entries ++ [entry])
      | None => whitelist_loop whitelist explain rest whitelisted_entries
      end
  end.

(** [# Keep only whitelisted entries] *)
Definition keep_whitelisted (whitelist : searchlist) (entries : loc) : M loc :=
  let explain := sl_explain whitelist in
  let! items := get_list entries in
  let! kept :=
    comprehension_if items
      (λ entry, let! e := get_entry entry in ret (present (is_listed e whitelist))) in
  let! entries := alloc (OList kept) in
  let! items := get_list entries in
  let! whitelisted_entries := whitelist_loop whitelist explain items [] in
  alloc (OList whitelisted_entries).

(** [# Remove blacklisted entries] *)
Definition remove_blacklisted (blacklist : searchlist) (entries : loc) : M loc :=
  let! items := get_list entries in
  let! kept :=
    comprehension_if items
      (λ entry, let! e := get_entry entry in ret (negb (present (is_listed e blacklist)))) in
  alloc (OList kept).

(** [# Enforce HTTPS URLs]: the body of the loop, on one entry object. *)
Definition enforce_https_entry (entry : loc) : M unit :=
  let! e := get_entry entry in
  if startswith (FeedEntry.long_url e) "http://"
  then set_long_url entry (replace_first (FeedEntry.long_url e) "http://" "https://")
  else ret tt.

Definition enforce_https (entries : loc) : M unit :=
  let! items := get_list entries in
  for_each items enforce_https_entry.

(** The [re_sub] lambda of the substitution stage. *)
Definition re_sub_rule (v : string) (r : option sub_rule) : string :=
  match r with
  | Some r => re_sub E (pattern r) (repl r) v
  | None => v
  end.

(** [# Substitute entries] *)
Definition substitute (sub : sub_config) (entries : loc) : M loc :=
  let! items := get_list entries in
  let! entries :=
    comprehension items
      (λ entry,
         let! e := get_entry entry in
         alloc (OEntry (FeedEntry.mk (re_sub_rule (FeedEntry.title e) (sub_title sub))
                                     (re_sub_rule (FeedEntry.long_url e) (sub_url sub))))) in
  alloc (OList entries).

Definition format_re_get (format_config : format_config) (key : string) : option string :=
  if String.eqb key "title" then fmt_re_title format_config
  else if String.eqb key "url" then fmt_re_url format_config
  else None.

(** The [params] of one entry after the inner loop. *)
Definition format_params (format_config : format_config) (e : FeedEntry.t)
  : list (string * option string) :=
  let params := [("title", Some (FeedEntry.title e)); ("url", Some (FeedEntry.long_url e))] in
  fold_left
    (λ params kv,
       match format_re_get format_config kv.1 with
       | Some format_re_key =>
           match re_search E format_re_key kv.2 with
           | Some match_ => dict_update params (groupdict match_)
           | None => params
           end
       | None => params
       end)
    [("title", FeedEntry.title e); ("url", FeedEntry.long_url e)]
    params.

Definition format_entry (format_config : format_config) (e : FeedEntry.t) : M FeedEntry.t :=
  let params := format_params format_config e in
  match format_map E (default "{title}" (fmt_str_title format_config)) params with
  | Raise exc => raise exc
  | Ok title =>
      match format_map E (default "{url}" (fmt_str_url format_config)) params with
      | Raise exc => raise exc
      | Ok long_url => ret (FeedEntry.mk title long_url)
      end
  end.

(** [# Format entries]: each slot of the list object is assigned a new
    entry object. *)
Definition format_entries (format_config : format_config) (entries : loc) : M unit :=
  let! items := get_list entries in
  for_each (enumerate items)
    (λ ie,
       let! e := get_entry ie.2 in
       let! formatted := format_entry format_config e in
       let! new := alloc (OEntry formatted) in
       list_setitem entries ie.1 new).

Definition _entries (feed_config : feed_config) (url : string) : M loc :=
  let! entries := _url_entries url in
  let! entries :=
    match cfg_whitelist feed_config with
    | Some whitelist =>
        if searchlist_truthy whitelist then keep_whitelisted whitelist entries
        else ret entries
    | None => ret entries
    end in
  let! entries :=
    match cfg_blacklist feed_config with
    | Some blacklist =>
        if searchlist_truthy blacklist then remove_blacklisted blacklist entries
        else ret entries
    | None => ret entries
    end in
  (if flag (cfg_https feed_config) false then enforce_https entries else ret tt) ;;
  let! entries :=
    match cfg_sub feed_config with
    | Some sub => if sub_truthy sub then substitute sub entries else ret entries
    | None => ret entries
    end in
  match cfg_format feed_config with
  | Some format_config => format_entries format_config entries
  | None => ret tt
  end ;;
  _dedupe_entries_obj entries.

(** [Feed(channel, name, url, db, url_shortener)]: the dataclass
    [__init__] followed by [__post_init__]. *)
Definition __post_init__ (channel name url : string) : M Feed.t :=
  match INSTANCE_feeds K !! channel with
  | None => raise (KeyError channel)
  | Some feeds =>
      match feeds !! name with
      | None => raise (KeyError name)
      | Some feed_config =>
          let! entries := _entries feed_config url in
          ret (Feed.mk channel name url feed_config entries)
      end
  end.

(** *** [Feed.unposted_entries] and [Feed.postable_entries]

    From here on the entries are only read: the lists below hold the
    fields the entry objects have when [self.entries] is read. *)

Definition db_select_unposted_for_channel (channel name : string) (long_urls : list string)
  : M (list string) :=
  λ w, (Ok (select_unposted_for_channel E channel name long_urls),
        emit w (EvSelectUnpostedForChannel channel name long_urls)).

Definition db_select_unposted_for_channel_feed (channel name : string) (long_urls : list string)
  : M (list string) :=
  λ w, (Ok (select_unposted_for_channel_feed E channel name long_urls),
        emit w (EvSelectUnpostedForChannelFeed channel name long_urls)).

Definition db_is_new_feed (channel name : string) : M bool :=
  λ w, (Ok (is_new_feed E channel name), emit w (EvIsNewFeed channel name)).

Definition url_shortener_shorten_urls (long_urls : list string) : M (list string) :=
  λ w, (Ok (shorten_urls E long_urls), emit w (EvShortenUrls long_urls)).

Definition unposted_entries (self : Feed.t) : M (list FeedEntry.t) :=
  let! entries := read_entries (Feed.entries self) in
  let entries := entries.*2 in
  let long_urls := map FeedEntry.long_url entries in
  let dedup_strategy :=
    default config.DEDUP_STRATEGY_DEFAULT (cfg_dedup (Feed._feed_config self)) in
  let! long_urls :=
    if String.eqb dedup_strategy "channel"
    then db_select_unposted_for_channel (Feed.channel self) (Feed.name self) long_urls
    else if String.eqb dedup_strategy "feed"
    then db_select_unposted_for_channel_feed (Feed.channel self) (Feed.name self) long_urls
    else raise AssertionError in
  let long_urls : gset string := list_to_set long_urls in
  ret (filter (λ entry, FeedEntry.long_url entry ∈ long_urls) entries).

(** [# Filter entries if new feed] *)
Definition filter_new_feed (self : Feed.t) (entries : list FeedEntry.t)
  : M (list FeedEntry.t) :=
  let! new := db_is_new_feed (Feed.channel self) (Feed.name self) in
  if new then
    let max_posts := default (NEW_FEED_POSTS_DEFAULT K) (cfg_new (Feed._feed_config self)) in
    match NEW_FEED_POSTS_MAX K !! max_posts with
    | None => raise (KeyError max_posts)
    | Some max_posts => ret (list_slice_to entries max_posts)
    end
  else ret entries.

(** [# Shorten URLs] *)
Definition shorten (self : Feed.t) (entries : list FeedEntry.t) : M (list entry) :=
  if negb (bool_decide (entries = [])) && flag (cfg_shorten (Feed._feed_config self)) true
  then
    let long_urls := map FeedEntry.long_url entries in
    let! short_urls := url_shortener_shorten_urls long_urls in
    comprehension (enumerate entries)
      (λ ie,
         match short_urls !! ie.1 with
         | Some short_url =>
             ret (Shortened (ShortenedFeedEntry.mk (FeedEntry.title ie.2)
                                                  (FeedEntry.long_url ie.2) short_url))
         | None => raise IndexError
         end)
  else ret (map Plain entries).

Definition postable_entries (self : Feed.t) : M (list entry) :=
  let! entries := unposted_entries self in
  let! entries := filter_new_feed self entries in
  shorten self entries.

End Pipeline.

(** ** Concrete collaborators

    Collaborators to run the pipeline on: regular expressions without
    metacharacters (a pattern matches where it occurs literally),
    templates made of text and [{name}] fields, a transport that times
    out a given number of times before it answers, a parser that reads
    [title|link] pairs separated by [;], a store that knows the URLs
    posted (and answers for a channel in reverse order), and a
    shortener. *)

Module Demo.

(** [re.search] for a pattern without metacharacters. *)
Definition literal_search (pattern s : string) : option Match :=
  match String.index 0 pattern s with
  | Some i => Some (mkMatch (i, (i + String.length pattern)%nat) [])
  | None => None
  end.

(** [re.sub] for a pattern without metacharacters that is not empty. *)
Fixpoint literal_sub_from (fuel : nat) (pattern repl s : string) : string :=
  match fuel with
  | O => s
  | S fuel =>
      match String.index 0 pattern s with
      | Some i =>
          str_slice s 0 i +:+ repl
            +:+ literal_sub_from fuel pattern repl (str_from s (i + String.length pattern))
      | None => s
      end
  end.

Definition literal_sub (pattern repl s : string) : string :=
  if String.eqb pattern "" then s
  else literal_sub_from (String.length s) pattern repl s.

Fixpoint dict_get (params : list (string * option string)) (key : string)
  : option (option string) :=
  match params with
  | [] => None
  | (k, v) :: rest => if String.eqb k key then Some v else dict_get rest key
  end.

(** [str.format_map] for templates of text and [{name}] fields;
    [field] is the name being read, if any. *)
Fixpoint render (template : string) (field : option string)
    (params : list (string * option string)) : result string :=
  match template, field with
  | EmptyString, None => Ok ""
  | EmptyString, Some _ => Raise (ValueError "expected '}' before end of string")
  | String c rest, None =>
      if Ascii.eqb c "{"%char then render rest (Some "") params
      else match render rest None params with
           | Ok out => Ok (String c out)
           | Raise exc => Raise exc
           end
  | String c rest, Some name =>
      if Ascii.eqb c "}"%char then
        match dict_get params name with
        | Some value =>
            match render rest None params with
            | Ok out => Ok (default "None" value +:+ out)
            | Raise exc => Raise exc
            end
        | None => Raise (KeyError name)
        end
      else render rest (Some (name +:+ String c "")) params
  end.

(** The transport answers [content] after [failures] timeouts. *)
Definition flaky_transport (failures : nat) (content : string) (url : string) (n : nat)
  : result string :=
  if (n <? failures)%nat then Raise (RequestException "timed out") else Ok content.

(** Entries written [title|link] and separated by [;]. *)
Fixpoint parse_lines (content : string) (title : string) (link : option string)
  : list (string * string) :=
  match content with
  | EmptyString =>
      match link with
      | Some link => [(title, link)]
      | None => []
      end
  | String c rest =>
      if Ascii.eqb c ";"%char then
        match link with
        | Some link => (title, link) :: parse_lines rest "" None
        | None => parse_lines rest "" None
        end
      else if Ascii.eqb c "|"%char then parse_lines rest title (Some "")
      else match link with
           | Some link => parse_lines rest title (Some (link +:+ String c ""))
           | None => parse_lines rest (title +:+ String c "") None
           end
  end.

Definition externals (failures : nat) (content : string) (new : bool)
    (posted : list string) : Externals :=
  mkExternals
    literal_search
    literal_sub
    (λ template params, render template None params)
    (flaky_transport failures content)
    (λ content, parse_lines content "" None)
    (λ _ _, new)
    (λ _ _ long_urls, reverse (filter (λ u, u ∉ posted) long_urls))
    (λ _ _ long_urls, filter (λ u, u ∉ posted) long_urls)
    (map (λ u, "https://sho.rt/" +:+ u)).

Definition no_config : feed_config :=
  mkFeedConfig None None None None None None None None.

(** [https: true] with a whitelist [{'title': ['foo'], 'explain': true}]. *)
Definition https_explain_config : feed_config :=
  mkFeedConfig (Some (mkSearchlist (Some ["foo"]) None (Some true))) None (Some true)
               None None None None None.

(** [https: true] with [sub: {'url': {'pattern': 'x.test', 'repl': 'y.test'}}]. *)
Definition https_sub_config : feed_config :=
  mkFeedConfig None None (Some true)
               (Some (mkSub None (Some (mkSubRule "x.test" "y.test")))) None None None None.

Definition settings : Settings :=
  mkSettings 3 3600 "some"
    (<["none" := 0%Z]> (<["some" := config.MAX_POSTS_OF_NEW_FEED]> ∅))
    (<["#chan" := <["A" := https_explain_config]> (<["B" := no_config]> ∅)]> ∅).

(** The state on entry to [_entries], for each run below. *)
Definition start : world := empty_world.

(** One entry, [hello foo bar] at [http://x.test/1]. *)
Definition one_entry : Externals :=
  externals 0 "hello foo bar|http://x.test/1" true [].

(** One entry whose link is not an [http://] URL. *)
Definition ftp_entry : Externals :=
  externals 0 "File|ftp://x.test/1" true [].

(** Five entries behind a transport that times out twice; the feed is
    new and nothing was posted. *)
Definition five_entries : Externals :=
  externals 2
    "T1|http://x.test/1;T2|http://x.test/2;T3|http://x.test/3;T4|http://x.test/4;T5|http://x.test/5"
    true [].

(** Feed [B] of [#chan], which has no configuration, built from nothing. *)
Definition run_B : result Feed.t * world :=
  __post_init__ five_entries settings "#chan" "B" "u" start.

Definition feed_B : Feed.t := Feed.mk "#chan" "B" "u" no_config 5.

Definition world_B : world := run_B.2.

Definition keyed_B : list (loc * FeedEntry.t) :=
  [(0%nat, FeedEntry.mk "T1" "http://x.test/1");
   (1%nat, FeedEntry.mk "T2" "http://x.test/2");
   (2%nat, FeedEntry.mk "T3" "http://x.test/3");
   (3%nat, FeedEntry.mk "T4" "http://x.test/4");
   (4%nat, FeedEntry.mk "T5" "http://x.test/5")].

(** The state in which [_url_entries] has just read the one entry. *)
Definition world_one : world := (_url_entries one_entry settings "u" start).2.

Definition foo_whitelist : searchlist := mkSearchlist (Some ["foo"]) None (Some true).

End Demo.

(** ** More collaborators

    A pattern with a named group, [(?P<id>[0-9])], beside the literal
    ones; a transport that times out once and then fails otherwise; a
    shortener that answers with one URL only. *)

Module Cases.

Definition is_digit (c : ascii) : bool :=
  (48 <=? nat_of_ascii c)%nat && (nat_of_ascii c <=? 57)%nat.

(** The first digit of [s], with its index counted from [i]. *)
Fixpoint first_digit (s : string) (i : nat) : option (nat * ascii) :=
  match s with
  | EmptyString => None
  | String c rest => if is_digit c then Some (i, c) else first_digit rest (S i)
  end.

Definition id_pattern : string := "(?P<id>[0-9])".

(** [re.search] for [id_pattern] and for patterns without
    metacharacters. *)
Definition search (pattern s : string) : option Match :=
  if String.eqb pattern id_pattern then
    match first_digit s 0 with
    | Some (i, c) => Some (mkMatch (i, S i) [("id", Some (String c EmptyString))])
    | None => None
    end
  else Demo.literal_search pattern s.

Definition externals (transport : string → nat → result string)
    (shorten_urls : list string → list string) : Externals :=
  mkExternals
    search
    Demo.literal_sub
    (λ template params, Demo.render template None params)
    transport
    (λ content, Demo.parse_lines content "" None)
    (λ _ _, true)
    (λ _ _ long_urls, long_urls)
    (λ _ _ long_urls, long_urls)
    shorten_urls.

(** The first request times out; the second fails in another way. *)
Definition broken_transport (url : string) (n : nat) : result string :=
  if (n <? 1)%nat then Raise (RequestException "timed out")
  else Raise (ValueError "check_hostname requires server_hostname").

Definition broken : Externals := externals broken_transport (λ long_urls, long_urls).

(** Two entries, the first with a digit in its title. *)
Definition issues : Externals :=
  externals (Demo.flaky_transport 0 "Issue 7|http://x.test/7;About|http://x.test/about")
    (take 1).

(** [format: {'re': {'title': id_pattern}, 'str': {'title': '#{id} {title}'}}] *)
Definition id_format : format_config :=
  mkFormat (Some id_pattern) None (Some "#{id} {title}") None.

(** Two entries with the same [long_url], and the list of both. *)
Definition twice : world :=
  mkWorld [OEntry (FeedEntry.mk "First" "http://x.test/1");
           OEntry (FeedEntry.mk "Again" "http://x.test/1");
           OList [0; 1]%nat] ∅ 0 0 [].


(** No attempt allowed. *)
Definition no_attempts : Settings := mkSettings 0 3600 "some" ∅ ∅.

(** [new: many] where [NEW_FEED_POSTS_MAX] has no such key. *)
Definition many_config : feed_config :=
  mkFeedConfig None None None None None (Some "many") None None.

(** The state of [Demo.world_one] more than [URL_CACHE_TTL] later. *)
Definition world_later : world :=
  mkWorld (heap Demo.world_one) (url_cache Demo.world_one) 3601
          (requests_sent Demo.world_one) (trace Demo.world_one).

End Cases.

(** ** Auxiliary definitions used to state the properties *)

(** The keys [dict_fromkeys] adds to a dict that already holds [seen]. *)
Fixpoint first_seen {A} (eqb : A → A → bool) (keys seen : list A) : list A :=
  match keys with
  | [] => []
  | k :: rest =>
      if existsb (eqb k) seen then first_seen eqb rest seen
      else k :: first_seen eqb rest (seen ++ [k])
  end.


(** The request [_url_entries] sends for a URL. *)
Definition get_event (url : string) : event :=
  EvGet url config.REQUEST_TIMEOUT config.USER_AGENT.

(** The world after an attempt numbered [n] failed and was slept on. *)
Definition failed_attempt (url : string) (w : world) (n : Z) : world :=
  mkWorld (heap w) (url_cache w) (clock w + 2 ^ n) (1 + requests_sent w)
          (trace w ++ [get_event url; EvSleep (2 ^ n)]).

(** The world after a last attempt, with no sleep after it. *)
Definition last_attempt (url : string) (w : world) : world :=
  mkWorld (heap w) (url_cache w) (clock w) (1 + requests_sent w)
          (trace w ++ [get_event url]).

(** What the attempts numbered [ns] leave in the trace when each fails
    and is slept on. *)
Definition failed_attempts_events (url : string) (ns : list Z) : list event :=
  flat_map (λ n, [get_event url; EvSleep (2 ^ n)]) ns.

Definition is_get (ev : event) : bool :=
  match ev with
  | EvGet _ _ _ => true
  | _ => false
  end.

Definition count_gets (evs : list event) : nat := length (List.filter is_get evs).

(** An attempt failed with a [RequestException]. *)
Definition request_failed (r : result string) : Prop :=
  ∃ what, r = Raise (RequestException what).

(** A [ShortenedFeedEntry] made from an entry and its short URL. *)
Definition shortened_from (e : FeedEntry.t) (short_url : string) : entry :=
  Shortened (ShortenedFeedEntry.mk (FeedEntry.title e) (FeedEntry.long_url e) short_url).

(** The [title] and [long_url] of an entry of either class. *)
Definition as_feed_entry (x : entry) : FeedEntry.t :=
  FeedEntry.mk (entry_title x) (entry_long_url x).


(** A computation that leaves the world as it found it. *)
Definition read_only {A} (m : M A) : Prop := ∀ w, (m w).2 = w.

(** The entry object at a location, if there is one. *)
Definition entry_at (w : world) (l : loc) : option FeedEntry.t :=
  match heap w !! l with
  | Some (OEntry e) => Some e
  | _ => None
  end.

(** The items of the list object at a location, if there is one. *)
Definition list_at (w : world) (l : loc) : option (list loc) :=
  match heap w !! l with
  | Some (OList items) => Some items
  | _ => None
  end.

(** The list object at [l] holds the entry objects [keyed], each with
    the fields given. *)
Definition holds (w : world) (l : loc) (keyed : list (loc * FeedEntry.t)) : Prop :=
  list_at w l = Some keyed.*1 ∧ Forall (λ le, entry_at w le.1 = Some le.2) keyed.

(** [long_url] after the HTTPS stage. *)
Definition https_url (long_url : string) : string :=
  if startswith long_url "http://" then replace_first long_url "http://" "https://"
  else long_url.

Definition https_entry (e : FeedEntry.t) : FeedEntry.t :=
  FeedEntry.mk (FeedEntry.title e) (https_url (FeedEntry.long_url e)).

(** Two worlds that differ in their object stores only. *)
Definition same_outside (w w' : world) : Prop :=
  url_cache w' = url_cache w ∧ clock w' = clock w
  ∧ requests_sent w' = requests_sent w ∧ trace w' = trace w.

(** What the whitelist loop leaves of an entry it keeps. *)
Definition annotated (E : Externals) (whitelist : searchlist) (e : FeedEntry.t) : FeedEntry.t :=
  match is_listed E e whitelist with
  | Some (key, match_) =>
      if flag (sl_explain whitelist) false && String.eqb key "title"
      then FeedEntry.mk (explain_title (FeedEntry.title e) match_) (FeedEntry.long_url e)
      else e
  | None => e
  end.

(** What the substitution stage makes of an entry. *)
Definition substituted (E : Externals) (sub : sub_config) (e : FeedEntry.t) : FeedEntry.t :=
  FeedEntry.mk (re_sub_rule E (FeedEntry.title e) (sub_title sub))
               (re_sub_rule E (FeedEntry.long_url e) (sub_url sub)).

(** The first match of a list of patterns against one value. *)
Definition first_match (E : Externals) (val : string) (patterns : list string) : option Match :=
  head (omap (λ searchlisted_pattern, re_search E searchlisted_pattern val) patterns).

(** [_entries] up to the blacklist stage. *)
Definition entries_until_blacklist (E : Externals) (K : Settings)
    (feed_config : feed_config) (url : string) : M loc :=
  let! entries := _url_entries E K url in
  let! entries :=
    match cfg_whitelist feed_config with
    | Some whitelist =>
        if searchlist_truthy whitelist then keep_whitelisted E whitelist entries
        else ret entries
    | None => ret entries
    end in
  match cfg_blacklist feed_config with
  | Some blacklist =>
      if searchlist_truthy blacklist then remove_blacklisted E blacklist entries
      else ret entries
  | None => ret entries
  end.

(** [_entries] after the substitution stage. *)
Definition entries_from_format (E : Externals) (feed_config : feed_config) (entries : loc)
  : M loc :=
  match cfg_format feed_config with
  | Some format_config => format_entries E format_config entries
  | None => ret tt
  end ;;
  _dedupe_entries_obj entries.

(** The entries [_url_entries] builds from what it fetched. *)
Definition parsed_entries (E : Externals) (content : string) : list FeedEntry.t :=
  _dedupe_entries (map (λ e, FeedEntry.mk e.1 e.2) (feedparser_parse E content)).

(** Every list object holds distinct entry objects, and the cache holds
    list objects. *)
Definition well_formed (w : world) : Prop :=
  (∀ l items, list_at w l = Some items →
     NoDup items ∧ Forall (λ x, is_Some (entry_at w x)) items)
  ∧ (∀ url expires l, url_cache w !! url = Some (expires, l) → is_Some (list_at w l)).

(** Objects stay what they are: the store only grows, and an object is
    never replaced by one of the other kind. *)
Definition extends (w w' : world) : Prop :=
  (∀ l, is_Some (entry_at w l) → is_Some (entry_at w' l))
  ∧ (∀ l, is_Some (list_at w l) → is_Some (list_at w' l)).

(** A property of the world that objects staying what they are keeps. *)
Definition stable (F : world → Prop) : Prop :=
  ∀ w w', extends w w' → F w → F w'.

(** From a well-formed world where [pre] holds, [m] leaves a well-formed
    world that extends it, in which [post] holds of what it returned. *)
Definition triple {A} (pre : world → Prop) (m : M A) (post : A → world → Prop) : Prop :=
  ∀ w, well_formed w → pre w →
    well_formed (m w).2 ∧ extends w (m w).2 ∧ ∀ a, (m w).1 = Ok a → post a (m w).2.

(** The items are distinct entry objects. *)
Definition entry_items (items : list loc) (w : world) : Prop :=
  NoDup items ∧ Forall (λ x, is_Some (entry_at w x)) items.

(** No list object holds [x]. *)
Definition unlisted (x : loc) (w : world) : Prop :=
  ∀ l items, list_at w l = Some items → x ∉ items.

(** A computation that leaves the object store and the cache alone. *)
Definition leaves_store {A} (m : M A) : Prop :=
  ∀ w, heap (m w).2 = heap w ∧ url_cache (m w).2 = url_cache w.

(** ** Relations between worlds and parts of [_entries] *)

(** A computation every run of which takes the world to one related to
    it by [R], whether it returns or raises. *)
Definition keeps (R : relation world) {A} (m : M A) : Prop :=
  ∀ w, R w (m w).2.

(** The store of [w'] is the store of [w] with objects added: every
    object of [w] is still there, as it was. *)
Definition grown : relation world :=
  λ w w', ∃ more, heap w' = heap w ++ more.

(** Events of the fetch loop for [url]: requests for it, and sleeps. *)
Definition fetch_events (url : string) (evs : list event) : Prop :=
  Forall (λ ev, ev = get_event url ∨ ∃ seconds, ev = EvSleep seconds) evs.

(** The stages of [_entries] that assign to objects that exist: the
    whitelist with [explain], the HTTPS loop and the format stage. *)
Definition assigns_in_place (feed_config : feed_config) : bool :=
  match cfg_whitelist feed_config with
  | Some whitelist => searchlist_truthy whitelist && flag (sl_explain whitelist) false
  | None => false
  end
  || flag (cfg_https feed_config) false
  || present (cfg_format feed_config).

(** [_entries] after [_url_entries] has returned [entries]. *)
Definition entries_from_whitelist (E : Externals) (feed_config : feed_config) (entries : loc)
  : M loc :=
  let! entries :=
    match cfg_whitelist feed_config with
    | Some whitelist =>
        if searchlist_truthy whitelist then keep_whitelisted E whitelist entries
        else ret entries
    | None => ret entries
    end in
  let! entries :=
    match cfg_blacklist feed_config with
    | Some blacklist =>
        if searchlist_truthy blacklist then remove_blacklisted E blacklist entries
        else ret entries
    | None => ret entries
    end in
  (if flag (cfg_https feed_config) false then enforce_https entries else ret tt) ;;
  let! entries :=
    match cfg_sub feed_config with
    | Some sub => if sub_truthy sub then substitute E sub entries else ret entries
    | None => ret entries
    end in
  match cfg_format feed_config with
  | Some format_config => format_entries E format_config entries
  | None => ret tt
  end ;;
  _dedupe_entries_obj entries.

(** [_entries] up to its last statement, the second deduplication. *)
Definition entries_until_format (E : Externals) (K : Settings)
    (feed_config : feed_config) (url : string) : M loc :=
  let! entries := entries_until_blacklist E K feed_config url in
  (if flag (cfg_https feed_config) false then enforce_https entries else ret tt) ;;
  let! entries :=
    match cfg_sub feed_config with
    | Some sub => if sub_truthy sub then substitute E sub entries else ret entries
    | None => ret entries
    end in
  match cfg_format feed_config with
  | Some format_config => format_entries E format_config entries
  | None => ret tt
  end ;;
  ret entries.

(** What the format stage makes of an entry, or the exception
    [format_map] raises on one of its two templates. *)
Definition formatted (E : Externals) (format_config : format_config) (e : FeedEntry.t)
  : result FeedEntry.t :=
  (format_entry E format_config e empty_world).1.

(** The body of the loop of the format stage, for the list [entries]. *)
Definition format_slot (E : Externals) (format_config : format_config) (entries : loc)
    (ie : nat * loc) : M unit :=
  let! e := get_entry ie.2 in
  let! formatted := format_entry E format_config e in
  let! new := alloc (OEntry formatted) in
  list_setitem entries ie.1 new.

(** [d.get(key)] on a dict kept as the list of its items. *)
Fixpoint dict_getitem {V} (d : list (string * V)) (key : string) : option V :=
  match d with
  | [] => None
  | (k, v) :: rest => if String.eqb k key then Some v else dict_getitem rest key
  end.

(** Calls to the delivery history and to the URL shortener. *)
Definition is_delivery_call (ev : event) : bool :=
  match ev with
  | EvIsNewFeed _ _ | EvSelectUnpostedForChannel _ _ _
  | EvSelectUnpostedForChannelFeed _ _ _ | EvShortenUrls _ => true
  | EvGet _ _ _ | EvSleep _ => false
  end.

(** The world [w'] is [w] after calls to the delivery history and the
    URL shortener, and nothing else. *)
Definition asked (w w' : world) : Prop :=
  heap w' = heap w ∧ url_cache w' = url_cache w ∧ clock w' = clock w
  ∧ requests_sent w' = requests_sent w
  ∧ ∃ evs, trace w' = trace w ++ evs ∧ forallb is_delivery_call evs = true.

(** The stages of [_entries] before the format stage, on the fields of
    the entries: what each makes of a list of entries, given the
    [feed_config]. *)
Definition whitelisted (E : Externals) (feed_config : feed_config) (es : list FeedEntry.t)
  : list FeedEntry.t :=
  match cfg_whitelist feed_config with
  | Some whitelist =>
      if searchlist_truthy whitelist
      then map (annotated E whitelist) (filter (λ e, is_Some (is_listed E e whitelist)) es)
      else es
  | None => es
  end.

Definition not_blacklisted (E : Externals) (feed_config : feed_config) (es : list FeedEntry.t)
  : list FeedEntry.t :=
  match cfg_blacklist feed_config with
  | Some blacklist =>
      if searchlist_truthy blacklist then filter (λ e, is_listed E e blacklist = None) es
      else es
  | None => es
  end.

Definition https_enforced (feed_config : feed_config) (es : list FeedEntry.t)
  : list FeedEntry.t :=
  if flag (cfg_https feed_config) false then map https_entry es else es.

Definition substituted_all (E : Externals) (feed_config : feed_config) (es : list FeedEntry.t)
  : list FeedEntry.t :=
  match cfg_sub feed_config with
  | Some sub => if sub_truthy sub then map (substituted E sub) es else es
  | None => es
  end.

(** The four in the order of [_entries]. *)
Definition entries_by_value (E : Externals) (feed_config : feed_config) (es : list FeedEntry.t)
  : list FeedEntry.t :=
  substituted_all E feed_config
    (https_enforced feed_config
       (not_blacklisted E feed_config (whitelisted E feed_config es))).

(** A stage that takes a list object to a list object works as [f] does
    on the fields of the entries. *)
Definition works_as (m : loc → M loc) (f : list FeedEntry.t → list FeedEntry.t) : Prop :=
  ∀ w entries keyed,
    holds w entries keyed → NoDup keyed.*1 →
    ∃ w' new keyed',
      m entries w = (Ok new, w')
      ∧ holds w' new keyed'
      ∧ NoDup keyed'.*1
      ∧ keyed'.*2 = f keyed.*2.

(** * Properties *)

(** ** Deduplication *)

Lemma fold_setdefault_first_seen {A} (eqb : A → A → bool) (keys seen : list A) :
  fold_left (dict_setdefault_key eqb) keys seen = seen ++ first_seen eqb keys seen.
Proof.
  revert seen. induction keys as [|k rest IH]; intros seen; simpl.
  - by rewrite app_nil_r.
  - unfold dict_setdefault_key at 2. destruct (existsb (eqb k) seen).
    + apply IH.
    + rewrite IH, <- app_assoc. reflexivity.
Qed.

Lemma dict_fromkeys_first_seen {A} (eqb : A → A → bool) (keys : list A) :
  dict_fromkeys eqb keys = first_seen eqb keys [].
Proof. unfold dict_fromkeys. by rewrite fold_setdefault_first_seen. Qed.

Lemma first_seen_sublist {A} (eqb : A → A → bool) (keys seen : list A) :
  first_seen eqb keys seen `sublist_of` keys.
Proof.
  revert seen. induction keys as [|k rest IH]; intros seen; simpl.
  - constructor.
  - destruct (existsb (eqb k) seen).
    + apply sublist_cons, IH.
    + apply sublist_skip, IH.
Qed.

Lemma sublist_same_length {A} (l1 l2 : list A) :
  l1 `sublist_of` l2 → (length l2 ≤ length l1)%nat → l1 = l2.
Proof.
  induction 1 as [|x l1 l2 Hsub IH|x l1 l2 Hsub IH]; simpl; intros Hlen.
  - reflexivity.
  - f_equal. apply IH. lia.
  - apply sublist_length in Hsub. lia.
Qed.

Lemma feed_entry_eqb_true (a b : FeedEntry.t) :
  feed_entry_eqb a b = true ↔ FeedEntry.long_url a = FeedEntry.long_url b.
Proof.
  unfold feed_entry_eqb, entry_eqb, py_eq, __eq__, fields_eqb, FeedEntry.compare_fields.
  rewrite bool_decide_eq_true. split; [by intros [= ->] | by intros ->].
Qed.

Lemma existsb_feed_entry_eqb (x : FeedEntry.t) (seen : list FeedEntry.t) :
  existsb (feed_entry_eqb x) seen = true
  ↔ FeedEntry.long_url x ∈ map FeedEntry.long_url seen.
Proof.
  rewrite existsb_exists, list_elem_of_fmap. split.
  - intros (y & Hin & Heq). exists y. apply feed_entry_eqb_true in Heq.
    split; [done | by apply list_elem_of_In].
  - intros (y & Heq & Hin). exists y. split; [by apply list_elem_of_In|].
    by apply feed_entry_eqb_true.
Qed.

(** [_dedupe_entries] returns the deduplicated list in both branches:
    when nothing was removed the two lists are the same. *)
Lemma _dedupe_entries_fromkeys (entries : list FeedEntry.t) :
  _dedupe_entries entries = first_seen feed_entry_eqb entries [].
Proof.
  unfold _dedupe_entries. rewrite dict_fromkeys_first_seen.
  destruct (Z.gtb_spec
    (Z.of_nat (length entries) - Z.of_nat (length (first_seen feed_entry_eqb entries []))) 0)
    as [Hgt|Hle]; [reflexivity|].
  symmetry. apply sublist_same_length; [apply first_seen_sublist | lia].
Qed.



Lemma first_seen_NoDup (entries seen : list FeedEntry.t) :
  NoDup (map FeedEntry.long_url (first_seen feed_entry_eqb entries seen))
  ∧ ∀ x, x ∈ first_seen feed_entry_eqb entries seen →
         FeedEntry.long_url x ∉ map FeedEntry.long_url seen.
Proof.
  revert seen. induction entries as [|k rest IH]; intros seen; simpl.
  - split; [constructor | intros x Hx; by apply not_elem_of_nil in Hx].
  - destruct (existsb (feed_entry_eqb k) seen) eqn:Hseen; [apply IH|].
    assert (FeedEntry.long_url k ∉ map FeedEntry.long_url seen) as Hfresh.
    { intros Hin. apply existsb_feed_entry_eqb in Hin. congruence. }
    destruct (IH (seen ++ [k])) as [Hnd Hout]. split.
    + simpl. constructor; [|exact Hnd].
      intros Hin. apply list_elem_of_fmap in Hin as (y & Hy & Hin).
      apply Hout in Hin. apply Hin. rewrite map_app, <- Hy. apply elem_of_app. right. left.
    + intros x Hx. apply elem_of_cons in Hx as [->|Hx]; [done|].
      apply Hout in Hx. intros Hseen'. apply Hx. rewrite map_app. apply elem_of_app. by left.
Qed.


(** ** Identity of entries *)

(** C10.  [post_url] of a [FeedEntry] is its [long_url], [post_url] of a
    [ShortenedFeedEntry] is its [short_url], and reading the property
    leaves the entry as it was. *)
Theorem post_url_by_class :
  (∀ e : FeedEntry.t, entry_post_url (Plain e) = FeedEntry.long_url e)
  ∧ (∀ e : ShortenedFeedEntry.t, entry_post_url (Shortened e) = ShortenedFeedEntry.short_url e)
  ∧ (∀ x : entry, (read_post_url x).2 = x).
Proof. repeat split. Qed.

(** Two entries are equal exactly when they are of the same class and
    have the same [long_url]. *)
Lemma entry_eqb_true (a b : entry) :
  entry_eqb a b = true
  ↔ __class__ a = __class__ b ∧ entry_long_url a = entry_long_url b.
Proof.
  unfold entry_eqb, py_eq, __eq__, fields_eqb.
  destruct a as [a|a], b as [b|b]; simpl;
    unfold FeedEntry.compare_fields, ShortenedFeedEntry.compare_fields;
    rewrite ?bool_decide_eq_true; split;
    try (intros [? ?]); try intros [= ?]; try discriminate; try done;
    congruence.
Qed.

(** C2, as the code has it.  Equality of entries is equality of class
    and of [long_url]: two [FeedEntry] are equal exactly when their
    [long_url] are, and so are two [ShortenedFeedEntry], whatever their
    [title] and [short_url]; the hash of a [FeedEntry] is the hash of the
    one-element tuple of its [long_url], whatever its title; a
    [ShortenedFeedEntry] has no hash. *)
Theorem entry_identity_is_class_and_long_url :
  (∀ a b : entry,
     entry_eqb a b = true
     ↔ __class__ a = __class__ b ∧ entry_long_url a = entry_long_url b)
  ∧ (∀ a b : FeedEntry.t,
       entry_eqb (Plain a) (Plain b) = true
       ↔ FeedEntry.long_url a = FeedEntry.long_url b)
  ∧ (∀ a b : ShortenedFeedEntry.t,
       entry_eqb (Shortened a) (Shortened b) = true
       ↔ ShortenedFeedEntry.long_url a = ShortenedFeedEntry.long_url b)
  ∧ (∀ hash_str hash_tuple title u,
       __hash__ hash_str hash_tuple (Plain (FeedEntry.mk title u))
       = Ok (hash_tuple [hash_str u]))
  ∧ (∀ hash_str hash_tuple (e : ShortenedFeedEntry.t),
       __hash__ hash_str hash_tuple (Shortened e)
       = Raise (TypeError "unhashable type: 'ShortenedFeedEntry'")).
Proof.
  split; [exact entry_eqb_true|].
  split; [intros a b; rewrite entry_eqb_true; simpl; tauto|].
  split; [intros a b; rewrite entry_eqb_true; simpl; tauto|].
  split; reflexivity.
Qed.

(** C2 as stated fails: a [FeedEntry] and a [ShortenedFeedEntry] with the
    same [long_url] (and the same title) are not equal, in either order,
    and the [ShortenedFeedEntry] cannot be hashed. *)
Lemma same_long_url_not_equal_across_classes :
  let a := Plain (FeedEntry.mk "Title One" "http://x.test/1") in
  let b := Shortened (ShortenedFeedEntry.mk "Title One" "http://x.test/1" "https://sho.rt/1") in
  entry_long_url a = entry_long_url b
  ∧ entry_eqb a b = false
  ∧ entry_eqb b a = false
  ∧ __hash__ (λ _, 0%Z) (λ _, 0%Z) b = Raise (TypeError "unhashable type: 'ShortenedFeedEntry'")
  ∧ ¬ (∀ x y : entry, entry_eqb x y = true ↔ entry_long_url x = entry_long_url y).
Proof.
  repeat split. intros Hall.
  specialize (Hall (Plain (FeedEntry.mk "Title One" "http://x.test/1"))
                   (Shortened (ShortenedFeedEntry.mk "Title One" "http://x.test/1" "s"))).
  destruct Hall as [_ Hall]. specialize (Hall eq_refl). discriminate.
Qed.

(** ** The fetch loop of [_url_entries] *)

Section Fetcher.
Context (E : Externals) (K : Settings).

Lemma failed_attempts_trace url ns w :
  trace (fold_left (failed_attempt url) ns w) = trace w ++ failed_attempts_events url ns.
Proof.
  revert w. induction ns as [|n ns IH]; intros w; simpl.
  - by rewrite app_nil_r.
  - rewrite IH. simpl. by rewrite <- app_assoc.
Qed.

Lemma failed_attempts_cache url ns w :
  url_cache (fold_left (failed_attempt url) ns w) = url_cache w.
Proof.
  revert w. induction ns as [|n ns IH]; intros w; simpl; [done|]. by rewrite IH.
Qed.

Lemma failed_attempts_sent url ns w :
  requests_sent (fold_left (failed_attempt url) ns w) = (length ns + requests_sent w)%nat.
Proof.
  revert w. induction ns as [|n ns IH]; intros w; simpl; [done|].
  rewrite IH. simpl. lia.
Qed.

Lemma read_url_failed_prefix url pre rest w :
  READ_ATTEMPTS_MAX K ∉ pre →
  (∀ j, (j < length pre)%nat → request_failed (transport E url (requests_sent w + j))) →
  read_url E K url (pre ++ rest) w = read_url E K url rest (fold_left (failed_attempt url) pre w).
Proof.
  revert w. induction pre as [|n pre IH]; intros w Hmax Hfail; simpl; [done|].
  destruct (Hfail 0%nat) as [what Hw]; [simpl; lia|].
  rewrite Nat.add_0_r in Hw.
  unfold bind at 1, try_get, requests_get. rewrite Hw.
  destruct (Z.eqb_spec n (READ_ATTEMPTS_MAX K)) as [->|Hne];
    [exfalso; apply Hmax; left|].
  unfold bind at 1, sleep. simpl.
  rewrite <- app_assoc. simpl.
  apply (IH (failed_attempt url w n)); [intros Hin; apply Hmax; by right|].
  intros j Hj. simpl. replace (S (requests_sent w + j)) with (requests_sent w + S j)%nat by lia.
  apply Hfail. simpl. lia.
Qed.

Lemma read_url_success url n rest w content :
  transport E url (requests_sent w) = Ok content →
  read_url E K url (n :: rest) w = (Ok content, last_attempt url w).
Proof.
  intros Hw. simpl. unfold bind, try_get, requests_get. by rewrite Hw.
Qed.

Lemma read_url_last_failure url rest w what :
  transport E url (requests_sent w) = Raise (RequestException what) →
  read_url E K url (READ_ATTEMPTS_MAX K :: rest) w
  = (Raise (RequestException what), last_attempt url w).
Proof.
  intros Hw. simpl. unfold bind, try_get, requests_get. rewrite Hw.
  by rewrite Z.eqb_refl.
Qed.

Lemma py_range_split (k n : nat) :
  (k < n)%nat →
  py_range 1 (Z.of_nat n + 1)
  = py_range 1 (Z.of_nat k + 1) ++ (Z.of_nat k + 1)%Z :: py_range (Z.of_nat k + 2) (Z.of_nat n + 1).
Proof.
  intros Hk. unfold py_range.
  replace (Z.to_nat (Z.of_nat n + 1 - 1)) with (k + S (n - S k))%nat by lia.
  rewrite seq_app, map_app. simpl.
  replace (Z.to_nat (Z.of_nat k + 1 - 1)) with k by lia.
  f_equal. f_equal; [lia|].
  replace (Z.to_nat (Z.of_nat n + 1 - (Z.of_nat k + 2))) with (n - S k)%nat by lia.
  generalize (n - S k)%nat as m. intros m.
  replace (S k) with (S k + 0)%nat at 1 by lia.
  assert (∀ a, map (λ i : nat, (1 + Z.of_nat i)%Z) (seq (S k + a) m)
               = map (λ i : nat, (Z.of_nat k + 2 + Z.of_nat i)%Z) (seq a m)) as H; [|apply H].
  induction m as [|m IH]; intros a; cbn [map seq]; [done|].
  f_equal; [lia|]. replace (S (S k + a)) with (S k + S a)%nat by lia. apply IH.
Qed.

Lemma py_range_bounds lo hi n : n ∈ py_range lo hi → (lo ≤ n < hi)%Z.
Proof.
  unfold py_range. intros Hin. apply list_elem_of_fmap in Hin as (i & -> & Hi).
  apply elem_of_seq in Hi. lia.
Qed.

Lemma read_url_bounded url attempts w :
  ∃ evs, trace (read_url E K url attempts w).2 = trace w ++ evs
         ∧ (count_gets evs ≤ length attempts)%nat.
Proof.
  revert w. induction attempts as [|n rest IH]; intros w; simpl.
  - exists []. by rewrite app_nil_r.
  - unfold bind at 1, try_get, requests_get.
    destruct (transport E url (requests_sent w)) as [content|[what| | | | | | |]]; simpl;
      try (eexists [_]; split; [reflexivity | simpl; unfold count_gets; simpl; lia]).
    destruct (Z.eqb_spec n (READ_ATTEMPTS_MAX K)).
    + eexists [_]; split; [reflexivity | unfold count_gets; simpl; lia].
    + unfold bind at 1, sleep. simpl.
      match goal with |- context [read_url E K url rest ?w'] => destruct (IH w') as (evs & Hev & Hc) end.
      rewrite Hev. simpl. rewrite <- !app_assoc. simpl.
      eexists; split; [reflexivity|]. unfold count_gets in *. simpl. lia.
Qed.


(** C8.  The loop of [_url_entries] sends at most [READ_ATTEMPTS_MAX]
    requests.  When the attempts before attempt [k] fail with a
    [RequestException], each of them is followed by a sleep of [2^n]
    for its number [n]; if attempt [k] then succeeds, its content is
    returned and nothing more is sent; if [k] is [READ_ATTEMPTS_MAX]
    and it fails, its exception is raised with no sleep after it, by
    the loop and so by [_url_entries], which stores nothing in the
    cache. *)
Theorem read_url_retries (url : string) (w : world) :
  let fetch := read_url E K url (py_range 1 (READ_ATTEMPTS_MAX K + 1)) w in
  (∃ evs, trace fetch.2 = trace w ++ evs
          ∧ (Z.of_nat (count_gets evs) ≤ Z.max 0 (READ_ATTEMPTS_MAX K))%Z)
  ∧ (∀ k : nat,
       (1 ≤ k)%nat → (Z.of_nat k ≤ READ_ATTEMPTS_MAX K)%Z →
       (∀ j, (j < k - 1)%nat → request_failed (transport E url (requests_sent w + j))) →
       let outcome := transport E url (requests_sent w + (k - 1)) in
       let events :=
         failed_attempts_events url (py_range 1 (Z.of_nat k)) ++ [get_event url] in
       (∀ content,
          outcome = Ok content →
          fetch.1 = Ok content ∧ trace fetch.2 = trace w ++ events)
       ∧ (∀ what,
            Z.of_nat k = READ_ATTEMPTS_MAX K →
            outcome = Raise (RequestException what) →
            fetch.1 = Raise (RequestException what)
            ∧ trace fetch.2 = trace w ++ events
            ∧ url_cache fetch.2 = url_cache w
            ∧ _url_entries_body E K url w = (Raise (RequestException what), fetch.2)
            ∧ (url_cache w !! url = None →
                 _url_entries E K url w = (Raise (RequestException what), fetch.2)))).
Proof.
  intros fetch. split.
  - destruct (read_url_bounded url (py_range 1 (READ_ATTEMPTS_MAX K + 1)) w)
      as (evs & Hev & Hc).
    exists evs. split; [exact Hev|].
    unfold py_range in Hc. rewrite length_map, length_seq in Hc. lia.
  - intros k Hk1 Hk Hfail outcome events.
    assert (fetch = read_url E K url
              (Z.of_nat k :: py_range (Z.of_nat (k - 1) + 2) (READ_ATTEMPTS_MAX K + 1))
              (fold_left (failed_attempt url) (py_range 1 (Z.of_nat k)) w)) as Hpre.
    { subst fetch.
      replace (READ_ATTEMPTS_MAX K) with (Z.of_nat (Z.to_nat (READ_ATTEMPTS_MAX K))) at 1 by lia.
      rewrite (py_range_split (k - 1) (Z.to_nat (READ_ATTEMPTS_MAX K))) by lia.
      replace (Z.of_nat (k - 1) + 1)%Z with (Z.of_nat k) by lia.
      replace (Z.of_nat (Z.to_nat (READ_ATTEMPTS_MAX K))) with (READ_ATTEMPTS_MAX K) by lia.
      apply read_url_failed_prefix.
      - intros Hin. apply py_range_bounds in Hin. lia.
      - intros j Hj. apply Hfail. unfold py_range in Hj.
        rewrite length_map, length_seq in Hj. lia. }
    assert (requests_sent (fold_left (failed_attempt url) (py_range 1 (Z.of_nat k)) w)
            = (requests_sent w + (k - 1))%nat) as Hsent.
    { rewrite failed_attempts_sent. unfold py_range. rewrite length_map, length_seq. lia. }
    split.
    + intros content Hout. rewrite Hpre.
      erewrite read_url_success by (rewrite Hsent; exact Hout).
      split; [reflexivity|]. simpl. rewrite failed_attempts_trace.
      subst events. by rewrite <- app_assoc.
    + intros what HkMAX Hout.
      assert (fetch = (Raise (RequestException what),
                       last_attempt url
                         (fold_left (failed_attempt url) (py_range 1 (Z.of_nat k)) w)))
        as Hfetch.
      { rewrite Hpre, HkMAX. apply read_url_last_failure.
        rewrite <- HkMAX, Hsent. exact Hout. }
      assert (_url_entries_body E K url w = (Raise (RequestException what), fetch.2)) as Hbody.
      { unfold _url_entries_body, bind. fold fetch. by rewrite Hfetch. }
      split; [by rewrite Hfetch|]. split; [|split; [|split]].
      * rewrite Hfetch. simpl. rewrite failed_attempts_trace.
        subst events. by rewrite <- app_assoc.
      * rewrite Hfetch. simpl. apply failed_attempts_cache.
      * exact Hbody.
      * intros Hmiss. unfold _url_entries, bind, cache_getitem. by rewrite Hmiss, Hbody.
Qed.

End Fetcher.

(** ** Delivery history, new-feed throttle and URL shortening *)

Section Delivery.
Context (E : Externals) (K : Settings).

Lemma bind_read_only {A B} (m : M A) (k : A → M B) :
  read_only m → (∀ a, read_only (k a)) → read_only (bind m k).
Proof.
  intros Hm Hk w. unfold bind. specialize (Hm w).
  destruct (m w) as [[a|exc] w1]; simpl in *; subst w1; [apply Hk | done].
Qed.

Lemma comprehension_read_only {A B} (xs : list A) (f : A → M B) :
  (∀ x, read_only (f x)) → read_only (comprehension xs f).
Proof.
  intros Hf. induction xs as [|x xs IH]; simpl; [done|].
  apply bind_read_only; [apply Hf|]. intros y.
  apply bind_read_only; [apply IH | done].
Qed.

Lemma get_entry_read_only (l : loc) : read_only (get_entry l).
Proof. intros w. unfold get_entry. by destruct (heap w !! l) as [[?|?]|]. Qed.

Lemma get_list_read_only (l : loc) : read_only (get_list l).
Proof. intros w. unfold get_list. by destruct (heap w !! l) as [[?|?]|]. Qed.

Lemma read_entries_read_only (l : loc) : read_only (read_entries l).
Proof.
  apply bind_read_only; [apply get_list_read_only|]. intros items.
  apply comprehension_read_only. intros x.
  apply bind_read_only; [apply get_entry_read_only | done].
Qed.

Lemma filter_gset_list (answer : list string) (entries : list FeedEntry.t) :
  filter (λ entry, FeedEntry.long_url entry ∈ (list_to_set answer : gset string)) entries
  = filter (λ entry, FeedEntry.long_url entry ∈ answer) entries.
Proof. apply list_filter_iff. intros x. apply elem_of_list_to_set. Qed.

(** C4.  [unposted_entries] asks [select_unposted_for_channel] when
    [dedup] is absent or ["channel"], [select_unposted_for_channel_feed]
    when it is ["feed"], and fails its assertion, asking nothing, for any
    other value; what it returns is the entries of the feed whose
    [long_url] is in the store's answer, in the order of the feed's
    entries, and depends on the answer only through the set of its
    elements. *)
Theorem unposted_entries_scope (self : Feed.t) (w : world) (keyed : list (loc * FeedEntry.t)) :
  read_entries (Feed.entries self) w = (Ok keyed, w) →
  let entries := keyed.*2 in
  let long_urls := map FeedEntry.long_url entries in
  let channel := Feed.channel self in
  let name := Feed.name self in
  let dedup := cfg_dedup (Feed._feed_config self) in
  let kept (answer : list string) :=
    filter (λ entry, FeedEntry.long_url entry ∈ answer) entries in
  (dedup = None ∨ dedup = Some "channel" →
     unposted_entries E self w
     = (Ok (kept (select_unposted_for_channel E channel name long_urls)),
        emit w (EvSelectUnpostedForChannel channel name long_urls)))
  ∧ (dedup = Some "feed" →
       unposted_entries E self w
       = (Ok (kept (select_unposted_for_channel_feed E channel name long_urls)),
          emit w (EvSelectUnpostedForChannelFeed channel name long_urls)))
  ∧ (∀ other, dedup = Some other → other ≠ "channel" → other ≠ "feed" →
       unposted_entries E self w = (Raise AssertionError, w))
  ∧ (∀ answer, kept answer `sublist_of` entries)
  ∧ (∀ answer answer', (∀ u, u ∈ answer ↔ u ∈ answer') → kept answer = kept answer').
Proof.
  intros Hread entries long_urls channel name dedup kept.
  assert (∀ d, default config.DEDUP_STRATEGY_DEFAULT dedup = d →
    unposted_entries E self w
    = (if String.eqb d "channel"
       then let! long_urls := db_select_unposted_for_channel E channel name long_urls in
            ret (kept long_urls)
       else if String.eqb d "feed"
       then let! long_urls := db_select_unposted_for_channel_feed E channel name long_urls in
            ret (kept long_urls)
       else raise AssertionError) w) as Hrun.
  { intros d Hd. unfold unposted_entries. unfold bind at 1. rewrite Hread.
    fold entries long_urls channel name dedup. rewrite Hd.
    destruct (String.eqb d "channel"); [|destruct (String.eqb d "feed")].
    - unfold bind, db_select_unposted_for_channel, ret. subst kept. simpl.
      by rewrite filter_gset_list.
    - unfold bind, db_select_unposted_for_channel_feed, ret. subst kept. simpl.
      by rewrite filter_gset_list.
    - reflexivity. }
  repeat split.
  - intros [Hd|Hd]; (rewrite (Hrun "channel"); [reflexivity | by rewrite Hd]).
  - intros Hd. rewrite (Hrun "feed"); [reflexivity | by rewrite Hd].
  - intros other Hd Hc Hf. rewrite (Hrun other) by (by rewrite Hd).
    apply String.eqb_neq in Hc, Hf. by rewrite Hc, Hf.
  - intros answer. apply sublist_filter.
  - intros answer answer' Hsame. apply list_filter_iff. intros x. apply Hsame.
Qed.



Lemma shorten_comprehension_fields (entries : list FeedEntry.t) (short_urls : list string)
    (a : nat) (w w' : world) (r : list entry) :
  comprehension (zip (seq a (length entries)) entries)
    (λ ie, match short_urls !! ie.1 with
           | Some short_url =>
               ret (Shortened (ShortenedFeedEntry.mk (FeedEntry.title ie.2)
                                                    (FeedEntry.long_url ie.2) short_url))
           | None => raise IndexError
           end) w = (Ok r, w') →
  map as_feed_entry r = entries.
Proof.
  revert a r w'. induction entries as [|e entries IH]; intros a r w'; simpl.
  - by intros [= <- _].
  - unfold bind at 1. destruct (short_urls !! a) as [s|]; [|discriminate].
    unfold ret at 1. unfold bind at 1.
    destruct (comprehension _ _ w) as [[ys|exc] w1] eqn:Hrest; [|discriminate].
    intros [= <- _]. simpl. apply IH in Hrest. rewrite Hrest.
    by destruct e.
Qed.

Lemma as_feed_entry_Plain (entries : list FeedEntry.t) :
  map as_feed_entry (map Plain entries) = entries.
Proof.
  induction entries as [|[t u] entries IH]; simpl; [done|]. by rewrite IH.
Qed.

Lemma shorten_fields (self : Feed.t) (entries : list FeedEntry.t) (w w' : world) r :
  shorten E self entries w = (Ok r, w') → map as_feed_entry r = entries.
Proof.
  unfold shorten.
  destruct (negb (bool_decide (entries = [])) && flag (cfg_shorten (Feed._feed_config self)) true).
  - unfold bind, url_shortener_shorten_urls, enumerate. apply shorten_comprehension_fields.
  - intros [= <- _]. apply as_feed_entry_Plain.
Qed.



Lemma filter_new_feed_run (self : Feed.t) (entries : list FeedEntry.t) (w : world) :
  filter_new_feed E K self entries w
  = (if is_new_feed E (Feed.channel self) (Feed.name self)
     then match NEW_FEED_POSTS_MAX K
                  !! default (NEW_FEED_POSTS_DEFAULT K) (cfg_new (Feed._feed_config self)) with
          | Some max_posts => Ok (list_slice_to entries max_posts)
          | None => Raise (KeyError (default (NEW_FEED_POSTS_DEFAULT K)
                                             (cfg_new (Feed._feed_config self))))
          end
     else Ok entries,
     emit w (EvIsNewFeed (Feed.channel self) (Feed.name self))).
Proof.
  unfold filter_new_feed, bind, db_is_new_feed.
  destruct (is_new_feed E _ _); [|done].
  by destruct (NEW_FEED_POSTS_MAX K !! _).
Qed.



End Delivery.

(** ** The object store and the stages of [_entries] *)

Section Store.

Context (E : Externals).


Lemma get_entry_run (w : world) (l : loc) (e : FeedEntry.t) :
  entry_at w l = Some e → get_entry l w = (Ok e, w).
Proof.
  unfold entry_at, get_entry. destruct (heap w !! l) as [[e'|items]|]; try done.
  by intros [= ->].
Qed.

Lemma get_list_run (w : world) (l : loc) (items : list loc) :
  list_at w l = Some items → get_list l w = (Ok items, w).
Proof.
  unfold list_at, get_list. destruct (heap w !! l) as [[e'|items']|]; try done.
  by intros [= ->].
Qed.

Lemma get_entry_inv (w w' : world) (l : loc) (e : FeedEntry.t) :
  get_entry l w = (Ok e, w') → entry_at w l = Some e ∧ w' = w.
Proof.
  unfold entry_at, get_entry. destruct (heap w !! l) as [[e'|items]|]; try done.
  by intros [= -> ->].
Qed.

Lemma get_list_inv (w w' : world) (l : loc) (items : list loc) :
  get_list l w = (Ok items, w') → list_at w l = Some items ∧ w' = w.
Proof.
  unfold list_at, get_list. destruct (heap w !! l) as [[e'|items']|]; try done.
  by intros [= -> ->].
Qed.

Lemma set_entry_run (w : world) (l : loc) (e0 e : FeedEntry.t) :
  entry_at w l = Some e0 →
  set_entry l e w = (Ok tt, set_heap w (<[l := OEntry e]> (heap w))).
Proof.
  unfold entry_at, set_entry. by destruct (heap w !! l) as [[e'|items]|].
Qed.

Lemma entry_at_set_heap_insert (w : world) (l l' : loc) (e0 e : FeedEntry.t) :
  entry_at w l = Some e0 →
  entry_at (set_heap w (<[l := OEntry e]> (heap w))) l'
  = if decide (l = l') then Some e else entry_at w l'.
Proof.
  unfold entry_at. simpl. intros Hl. destruct (decide (l = l')) as [<-|Hne].
  - rewrite list_lookup_insert_eq; [done|].
    destruct (heap w !! l) eqn:H; [|done]. by apply lookup_lt_Some in H.
  - by rewrite list_lookup_insert_ne.
Qed.

Lemma list_at_set_heap_insert (w : world) (l l' : loc) (e0 e : FeedEntry.t) :
  entry_at w l = Some e0 →
  list_at (set_heap w (<[l := OEntry e]> (heap w))) l' = list_at w l'.
Proof.
  unfold entry_at, list_at. simpl. intros Hl. destruct (decide (l = l')) as [<-|Hne].
  - rewrite list_lookup_insert_eq.
    + by destruct (heap w !! l) as [[?|?]|].
    + destruct (heap w !! l) eqn:H; [|done]. by apply lookup_lt_Some in H.
  - by rewrite list_lookup_insert_ne.
Qed.

Lemma entry_at_alloc (w : world) (o : obj) (l : loc) (e : FeedEntry.t) :
  entry_at w l = Some e → entry_at (set_heap w (heap w ++ [o])) l = Some e.
Proof.
  unfold entry_at. simpl. destruct (heap w !! l) eqn:H; [|done].
  rewrite lookup_app_l by (by apply lookup_lt_Some in H). by rewrite H.
Qed.

Lemma list_at_alloc_new (w : world) (items : list loc) :
  list_at (set_heap w (heap w ++ [OList items])) (length (heap w)) = Some items.
Proof. unfold list_at. simpl. by rewrite list_lookup_middle. Qed.

Lemma entry_at_alloc_new (w : world) (e : FeedEntry.t) :
  entry_at (set_heap w (heap w ++ [OEntry e])) (length (heap w)) = Some e.
Proof. unfold entry_at. simpl. by rewrite list_lookup_middle. Qed.

(** Reading a list of entries. *)
Lemma read_items_run (w : world) (keyed : list (loc * FeedEntry.t)) :
  Forall (λ le, entry_at w le.1 = Some le.2) keyed →
  comprehension keyed.*1 (λ entry, let! e := get_entry entry in ret (entry, e)) w
  = (Ok keyed, w).
Proof.
  induction 1 as [|[l e] keyed Hl _ IH]; [done|].
  rewrite fmap_cons. cbn [comprehension fst snd] in *.
  unfold bind at 1 2. rewrite (get_entry_run _ _ _ Hl). unfold ret at 1.
  unfold bind at 1. by rewrite IH.
Qed.

Lemma read_items_inv (w w' : world) (items : list loc) (keyed : list (loc * FeedEntry.t)) :
  comprehension items (λ entry, let! e := get_entry entry in ret (entry, e)) w
  = (Ok keyed, w') →
  keyed.*1 = items ∧ Forall (λ le, entry_at w le.1 = Some le.2) keyed.
Proof.
  revert keyed w'. induction items as [|l items IH]; intros keyed w'; simpl.
  - intros [= <- _]. by split.
  - unfold bind at 1 2.
    destruct (get_entry l w) as [[e|exc] w1] eqn:Hl; [|done].
    apply get_entry_inv in Hl as [Hl ->]. unfold ret at 1. unfold bind at 1.
    destruct (comprehension items _ w) as [[ys|exc] w1] eqn:Hrest; [|done].
    intros [= <- _]. destruct (IH ys w1 eq_refl) as [<- Hall].
    split; [done|]. by constructor.
Qed.

Lemma read_entries_holds (w : world) (l : loc) (keyed : list (loc * FeedEntry.t)) :
  read_entries l w = (Ok keyed, w) ↔ holds w l keyed.
Proof.
  unfold read_entries, holds. split.
  - unfold bind. destruct (get_list l w) as [[items|exc] w1] eqn:Hl; [|done].
    apply get_list_inv in Hl as [Hl ->]. intros Hread.
    destruct (comprehension items _ w) as [r w1] eqn:Hc.
    injection Hread as -> ->. apply read_items_inv in Hc as [<- Hall]. by split.
  - intros [Hl Hall]. unfold bind. rewrite (get_list_run _ _ _ Hl).
    by apply read_items_run.
Qed.

(** *** Strings *)

Lemma prefix_split (p s : string) :
  String.prefix p s = true → ∃ rest, s = p +:+ rest.
Proof.
  revert s. induction p as [|a p IH]; intros s.
  - intros _. by exists s.
  - destruct s as [|b s]; simpl; [done|]. destruct (ascii_dec a b) as [<-|]; [|done].
    intros Hp. destruct (IH s Hp) as [rest ->]. by exists rest.
Qed.

Lemma substring_all (s : string) : String.substring 0 (String.length s) s = s.
Proof. induction s as [|a s IH]; simpl; [done | by rewrite IH]. Qed.

Lemma prefix_append (p rest : string) : String.prefix p (p +:+ rest) = true.
Proof.
  induction p as [|a p IH]; simpl.
  - by destruct rest.
  - destruct (ascii_dec a a); [exact IH | done].
Qed.

Lemma str_from_append (p rest : string) :
  str_from (p +:+ rest) (String.length p) = rest.
Proof.
  unfold str_from. induction p as [|a p IH]; simpl.
  - rewrite Nat.sub_0_r. apply substring_all.
  - exact IH.
Qed.

Lemma replace_first_prefix (a : ascii) (p rest new : string) :
  replace_first (String a p +:+ rest) (String a p) new = new +:+ rest.
Proof.
  unfold replace_first.
  assert (String.index 0 (String a p) (String a p +:+ rest) = Some 0%nat) as ->.
  { change (String a p +:+ rest) with (String a (p +:+ rest)).
    cbn [String.index]. change (String a (p +:+ rest)) with (String a p +:+ rest).
    by rewrite prefix_append. }
  rewrite Nat.add_0_l, str_from_append. unfold str_slice. simpl.
  reflexivity.
Qed.

Lemma https_url_of_http (rest : string) :
  https_url ("http://" +:+ rest) = "https://" +:+ rest.
Proof.
  unfold https_url, startswith. rewrite prefix_append.
  apply replace_first_prefix.
Qed.

Lemma https_url_spec (long_url : string) :
  startswith (https_url long_url) "http://" = false
  ∧ (startswith long_url "http://" = true →
       startswith (https_url long_url) "https://" = true
       ∧ https_url long_url = "https://" +:+ str_from long_url 7)
  ∧ (startswith long_url "http://" = false → https_url long_url = long_url).
Proof.
  destruct (startswith long_url "http://") eqn:Hp.
  - destruct (prefix_split _ _ Hp) as [rest ->]. rewrite https_url_of_http.
    split; [|split; [|done]].
    + change ("https://" +:+ rest) with (String "h" ("ttps://" +:+ rest)).
      unfold startswith. simpl. by destruct rest.
    + intros _. split; [apply (prefix_append "https://")|].
      by rewrite (str_from_append "http://").
  - unfold https_url. rewrite Hp. by repeat split.
Qed.

Lemma https_url_idempotent (long_url : string) :
  https_url (https_url long_url) = https_url long_url.
Proof.
  destruct (https_url_spec (https_url long_url)) as (_ & _ & Hid).
  apply Hid. apply https_url_spec.
Qed.

Lemma https_entry_idempotent (e : FeedEntry.t) :
  https_entry (https_entry e) = https_entry e.
Proof. unfold https_entry. simpl. by rewrite https_url_idempotent. Qed.

(** *** The HTTPS loop *)

Lemma enforce_https_entry_run (w : world) (l : loc) (e : FeedEntry.t) :
  entry_at w l = Some e →
  enforce_https_entry l w
  = (Ok tt, set_heap w (<[l := OEntry (https_entry e)]> (heap w))).
Proof.
  intros Hl. unfold enforce_https_entry, bind. rewrite (get_entry_run _ _ _ Hl).
  unfold https_entry, https_url. destruct (startswith _ _).
  - unfold set_long_url, bind. rewrite (get_entry_run _ _ _ Hl).
    by rewrite (set_entry_run _ _ _ _ Hl).
  - unfold ret. f_equal. destruct w as [h c t n tr]. unfold set_heap. simpl. f_equal.
    symmetry. apply list_insert_id. unfold entry_at in Hl. simpl in Hl.
    destruct (h !! l) as [[e'|?]|]; try done. injection Hl as ->. by destruct e.
Qed.

Lemma for_each_enforce_https (items : list loc) (w : world) :
  Forall (λ l, is_Some (entry_at w l)) items →
  ∃ w', for_each items enforce_https_entry w = (Ok tt, w')
        ∧ same_outside w w'
        ∧ (∀ l, list_at w' l = list_at w l)
        ∧ (∀ l, entry_at w' l
                = if bool_decide (l ∈ items) then https_entry <$> entry_at w l
                  else entry_at w l).
Proof.
  revert w. induction items as [|x items IH]; intros w Hall; simpl.
  - exists w. repeat split; try done.
  - apply Forall_cons in Hall as [[e Hx] Hall].
    unfold bind. rewrite (enforce_https_entry_run _ _ _ Hx).
    set (w1 := set_heap w (<[x := OEntry (https_entry e)]> (heap w))).
    assert (∀ l, entry_at w1 l = if decide (x = l) then Some (https_entry e) else entry_at w l)
      as Hw1 by (intros l; by apply entry_at_set_heap_insert with e).
    destruct (IH w1) as (w' & Hrun & Hout & Hlists & Hent).
    { eapply Forall_impl; [exact Hall|]. intros l [e' Hl]. simpl.
      rewrite Hw1. destruct (decide (x = l)); eauto. }
    exists w'. split; [exact Hrun|]. split; [|split].
    + destruct Hout as (? & ? & ? & ?). by repeat split.
    + intros l. rewrite Hlists. by apply list_at_set_heap_insert with e.
    + intros l. rewrite Hent, Hw1.
      destruct (decide (x = l)) as [<-|Hne].
      * rewrite Hx. simpl. rewrite https_entry_idempotent.
        rewrite (bool_decide_eq_true_2 (x ∈ x :: items)) by left.
        by case_bool_decide.
      * rewrite (bool_decide_ext (l ∈ x :: items) (l ∈ items)); [reflexivity|].
        rewrite elem_of_cons. split; [intros [?|?]; [congruence | done] | by right].
Qed.

(** *** Stages that build new objects *)

Lemma comprehension_alloc (f : FeedEntry.t → FeedEntry.t) (keyed : list (loc * FeedEntry.t))
    (w : world) :
  Forall (λ le, entry_at w le.1 = Some le.2) keyed →
  comprehension keyed.*1 (λ entry, let! e := get_entry entry in alloc (OEntry (f e))) w
  = (Ok (seq (length (heap w)) (length keyed)),
     set_heap w (heap w ++ map (λ le, OEntry (f le.2)) keyed)).
Proof.
  revert w. induction keyed as [|[l e] keyed IH]; intros w Hall.
  - simpl. unfold ret. rewrite app_nil_r. by destruct w.
  - apply Forall_cons in Hall as [Hl Hall]. rewrite fmap_cons.
    cbn [comprehension fst snd] in *. unfold bind at 1 2.
    rewrite (get_entry_run _ _ _ Hl). unfold alloc at 1. unfold bind at 1.
    rewrite IH.
    + unfold ret. simpl. rewrite length_app, Nat.add_1_r, <- app_assoc. reflexivity.
    + eapply Forall_impl; [exact Hall|]. intros le Hle. by apply entry_at_alloc.
Qed.

Lemma entry_at_new_objects (pre post : list obj) (es : list FeedEntry.t) (w : world) :
  heap w = pre ++ map OEntry es ++ post →
  Forall (λ le, entry_at w le.1 = Some le.2) (zip (seq (length pre) (length es)) es).
Proof.
  revert pre. induction es as [|e es IH]; intros pre Hw; simpl; [constructor|].
  constructor.
  - unfold entry_at. simpl. rewrite Hw. simpl. by rewrite list_lookup_middle.
  - replace (S (length pre)) with (length (pre ++ [OEntry e])) by (rewrite length_app; simpl; lia).
    apply IH. rewrite Hw. simpl. by rewrite <- app_assoc.
Qed.

Lemma fst_zip_seq {A} (n : nat) (xs : list A) : (zip (seq n (length xs)) xs).*1 = seq n (length xs).
Proof. apply fst_zip. by rewrite length_seq. Qed.

Lemma snd_zip_seq {A} (n : nat) (xs : list A) : (zip (seq n (length xs)) xs).*2 = xs.
Proof. apply snd_zip. by rewrite length_seq. Qed.

Lemma substitute_run (sub : sub_config) (entries : loc) (keyed : list (loc * FeedEntry.t))
    (w : world) :
  holds w entries keyed →
  ∃ w' new,
    substitute E sub entries w = (Ok new, w')
    ∧ same_outside w w'
    ∧ holds w' new (zip (seq (length (heap w)) (length keyed))
                        (map (substituted E sub) keyed.*2)).
Proof.
  intros [Hlist Hall]. unfold substitute. unfold bind at 1.
  rewrite (get_list_run _ _ _ Hlist).
  pose proof (comprehension_alloc (substituted E sub) keyed w Hall) as Hc.
  unfold substituted at 1 in Hc. unfold bind at 1. rewrite Hc. clear Hc.
  unfold alloc. eexists _, _. split; [reflexivity|]. split; [done|].
  set (es := map (substituted E sub) keyed.*2).
  assert (length keyed = length es) as Hlen by (subst es; by rewrite length_map, length_fmap).
  assert (map (λ le : loc * FeedEntry.t, OEntry (substituted E sub le.2)) keyed
          = map OEntry es) as Hmap.
  { subst es. clear. induction keyed as [|[l e] keyed IH]; csimpl; [done | by rewrite IH]. }
  rewrite Hlen. split.
  - rewrite fst_zip_seq. unfold list_at. simpl. rewrite Hmap.
    rewrite list_lookup_middle; [done|]. by rewrite length_app, length_map.
  - apply entry_at_new_objects with [OList (seq (length (heap w)) (length es))].
    simpl. by rewrite Hmap, <- app_assoc.
Qed.

(** *** The whitelist stage *)

Lemma comprehension_if_filter (p : FeedEntry.t → bool) (keyed : list (loc * FeedEntry.t))
    (w : world) :
  Forall (λ le, entry_at w le.1 = Some le.2) keyed →
  comprehension_if keyed.*1 (λ entry, let! e := get_entry entry in ret (p e)) w
  = (Ok (filter (λ le, p le.2) keyed).*1, w).
Proof.
  induction 1 as [|[l e] keyed Hl _ IH]; [done|].
  rewrite fmap_cons. cbn [comprehension_if fst snd] in *.
  unfold bind at 1 2. rewrite (get_entry_run _ _ _ Hl). unfold ret at 1.
  unfold bind at 1. rewrite IH. unfold ret. rewrite filter_cons. simpl.
  by destruct (p e).
Qed.

Lemma annotate_step (whitelist : searchlist) (l : loc) (e : FeedEntry.t)
    (key : string) (match_ : Match) (w : world) :
  entry_at w l = Some e →
  is_listed E e whitelist = Some (key, match_) →
  ∃ w1,
    (if flag (sl_explain whitelist) false && String.eqb key "title"
     then set_title l (explain_title (FeedEntry.title e) match_)
     else ret tt) w = (Ok tt, w1)
    ∧ same_outside w w1
    ∧ (∀ l', list_at w1 l' = list_at w l')
    ∧ (∀ l', entry_at w1 l'
             = if decide (l = l') then Some (annotated E whitelist e) else entry_at w l').
Proof.
  intros Hl Hlisted. unfold annotated. rewrite Hlisted.
  destruct (flag (sl_explain whitelist) false && String.eqb key "title").
  - unfold set_title, bind. rewrite (get_entry_run _ _ _ Hl), (set_entry_run _ _ _ _ Hl).
    eexists. split; [reflexivity|]. split; [done|]. split.
    + intros l'. by apply list_at_set_heap_insert with e.
    + intros l'. by apply entry_at_set_heap_insert with e.
  - exists w. split; [done|]. split; [done|]. split; [done|].
    intros l'. by destruct (decide (l = l')) as [<-|].
Qed.

Lemma whitelist_loop_run (whitelist : searchlist) (keyed : list (loc * FeedEntry.t))
    (acc : list loc) (w : world) :
  NoDup keyed.*1 →
  Forall (λ le, entry_at w le.1 = Some le.2 ∧ is_Some (is_listed E le.2 whitelist)) keyed →
  ∃ w',
    whitelist_loop E whitelist (sl_explain whitelist) keyed.*1 acc w
    = (Ok (acc ++ keyed.*1), w')
    ∧ same_outside w w'
    ∧ (∀ l, list_at w' l = list_at w l)
    ∧ (∀ l, l ∉ keyed.*1 → entry_at w' l = entry_at w l)
    ∧ Forall (λ le, entry_at w' le.1 = Some (annotated E whitelist le.2)) keyed.
Proof.
  revert acc w. induction keyed as [|[l e] keyed IH]; intros acc w Hnd Hall.
  - exists w. simpl. unfold ret. rewrite app_nil_r. by repeat split.
  - apply Forall_cons in Hall as [[Hl [[key match_] Hlisted]] Hall].
    rewrite fmap_cons in *. apply NoDup_cons in Hnd as [Hfresh Hnd].
    cbn [whitelist_loop fst snd] in *. unfold bind at 1.
    rewrite (get_entry_run _ _ _ Hl), Hlisted. unfold bind at 1.
    destruct (annotate_step whitelist l e key match_ w Hl Hlisted)
      as (w1 & Hrun1 & Hout1 & Hlists1 & Hent1).
    rewrite Hrun1.
    destruct (IH (acc ++ [l]) w1 Hnd) as (w' & Hrun & Hout & Hlists & Hent & Hann).
    { apply Forall_forall. intros [l' e'] Hin. simpl.
      rewrite Forall_forall in Hall. destruct (Hall _ Hin) as [Hl' Hlisted'].
      split; [|done]. rewrite Hent1. destruct (decide (l = l')) as [<-|]; [|done].
      exfalso. apply Hfresh. apply list_elem_of_fmap. by exists (l, e'). }
    exists w'. rewrite Hrun, <- app_assoc. split; [done|]. split; [|split; [|split]].
    + destruct Hout1 as (? & ? & ? & ?), Hout as (? & ? & ? & ?).
      repeat split; congruence.
    + intros l'. by rewrite Hlists.
    + intros l' Hl'. apply not_elem_of_cons in Hl' as [Hne Hl'].
      rewrite Hent by done. rewrite Hent1. by destruct (decide (l = l')).
    + constructor; [|done]. simpl. rewrite Hent by done. rewrite Hent1.
      by rewrite decide_True.
Qed.

Lemma keep_whitelisted_run (whitelist : searchlist) (entries : loc)
    (keyed : list (loc * FeedEntry.t)) (w : world) :
  holds w entries keyed →
  NoDup keyed.*1 →
  let kept := filter (λ le, present (is_listed E le.2 whitelist)) keyed in
  ∃ w' new,
    keep_whitelisted E whitelist entries w = (Ok new, w')
    ∧ same_outside w w'
    ∧ holds w' new (map (λ le, (le.1, annotated E whitelist le.2)) kept)
    ∧ (∀ l e, entry_at w l = Some e → l ∉ kept.*1 → entry_at w' l = Some e).
Proof.
  intros [Hlist Hall] Hnd kept. unfold keep_whitelisted.
  unfold bind at 1. rewrite (get_list_run _ _ _ Hlist).
  unfold bind at 1.
  rewrite (comprehension_if_filter (λ e, present (is_listed E e whitelist)) keyed w Hall).
  fold kept. unfold bind at 1, alloc at 1.
  set (w1 := set_heap w (heap w ++ [OList kept.*1])).
  unfold bind at 1. rewrite (get_list_run w1 (length (heap w)) kept.*1)
    by apply list_at_alloc_new.
  assert (kept `sublist_of` keyed) as Hsub by apply sublist_filter.
  destruct (whitelist_loop_run whitelist kept [] w1) as (w2 & Hrun & Hout & Hlists & Hent & Hann).
  { apply (sublist_NoDup kept.*1 keyed.*1); [exact Hnd | by apply fmap_sublist]. }
  { apply Forall_forall. intros le Hin. apply list_elem_of_filter in Hin as [Hlisted Hin].
    rewrite Forall_forall in Hall. split.
    - apply entry_at_alloc. by apply Hall.
    - destruct (is_listed E le.2 whitelist); [eauto | done]. }
  unfold bind at 1. rewrite Hrun. rewrite app_nil_l. unfold alloc.
  eexists _, _. split; [reflexivity|]. split; [|split].
  - destruct Hout as (? & ? & ? & ?). by repeat split.
  - split.
    + rewrite <- list_fmap_compose. unfold list_at. simpl.
      by rewrite list_lookup_middle.
    + apply Forall_fmap. eapply Forall_impl; [exact Hann|]. intros le Hle. simpl.
      by apply entry_at_alloc.
  - intros l e Hl Hnot. apply entry_at_alloc. rewrite Hent by done.
    by apply entry_at_alloc.
Qed.

(** *** [is_listed] *)

Lemma is_listed_patterns_first (searchlist_key val : string) (patterns : list string) :
  is_listed_patterns E searchlist_key val patterns
  = (λ match_, (searchlist_key, match_)) <$> first_match E val patterns.
Proof.
  unfold first_match. induction patterns as [|p patterns IH]; simpl; [done|].
  destruct (re_search E p val); simpl; [done | exact IH].
Qed.

Lemma is_listed_title_then_url (self : FeedEntry.t) (searchlist : searchlist) :
  is_listed E self searchlist
  = match first_match E (FeedEntry.title self) (default [] (sl_title searchlist)) with
    | Some match_ => Some ("title", match_)
    | None =>
        match first_match E (FeedEntry.long_url self) (default [] (sl_url searchlist)) with
        | Some match_ => Some ("url", match_)
        | None => None
        end
    end.
Proof.
  unfold is_listed. simpl. rewrite !is_listed_patterns_first.
  unfold searchlist_get. simpl.
  destruct (first_match E (FeedEntry.title self) _); simpl; [done|].
  by destruct (first_match E (FeedEntry.long_url self) _).
Qed.

Lemma first_match_is_Some (val : string) (patterns : list string) :
  is_Some (first_match E val patterns)
  ↔ ∃ p, p ∈ patterns ∧ is_Some (re_search E p val).
Proof.
  unfold first_match. induction patterns as [|p patterns IH]; simpl.
  - split; [by intros [? ?] | intros (p & Hp & _); by apply not_elem_of_nil in Hp].
  - destruct (re_search E p val) as [m|] eqn:Hm; simpl.
    + split; [|by eauto]. intros _. exists p. split; [left | by rewrite Hm].
    + rewrite IH. split.
      * intros (q & Hq & Hs). exists q. split; [by right | done].
      * intros (q & Hq & Hs). apply elem_of_cons in Hq as [->|Hq].
        -- rewrite Hm in Hs. by destruct Hs.
        -- by exists q.
Qed.

Lemma is_listed_is_Some (self : FeedEntry.t) (searchlist : searchlist) :
  is_Some (is_listed E self searchlist)
  ↔ (∃ p, p ∈ default [] (sl_title searchlist)
          ∧ is_Some (re_search E p (FeedEntry.title self)))
    ∨ (∃ p, p ∈ default [] (sl_url searchlist)
            ∧ is_Some (re_search E p (FeedEntry.long_url self))).
Proof.
  rewrite is_listed_title_then_url, <- !first_match_is_Some.
  destruct (first_match E (FeedEntry.title self) _).
  - split; [left | ]; eauto.
  - destruct (first_match E (FeedEntry.long_url self) _).
    + split; [right|]; eauto.
    + split; [by intros [? ?] | by intros [[? ?]|[? ?]]].
Qed.

(** *** The stages of [_entries] *)

Lemma bind_assoc {A B C} (m : M A) (f : A → M B) (g : B → M C) (w : world) :
  bind (bind m f) g w = bind m (λ x, bind (f x) g) w.
Proof. unfold bind. by destruct (m w) as [[a|exc] w1]. Qed.

Lemma _entries_stages (K : Settings) (feed_config : feed_config) (url : string) (w : world) :
  _entries E K feed_config url w
  = (let! entries := entries_until_blacklist E K feed_config url in
     (if flag (cfg_https feed_config) false then enforce_https entries else ret tt) ;;
     let! entries :=
       match cfg_sub feed_config with
       | Some sub => if sub_truthy sub then substitute E sub entries else ret entries
       | None => ret entries
       end in
     entries_from_format E feed_config entries) w.
Proof.
  unfold _entries, entries_until_blacklist, entries_from_format.
  rewrite !bind_assoc. unfold bind at 1 7.
  destruct (_url_entries E K url w) as [[entries|exc] w1]; [|done].
  by rewrite bind_assoc.
Qed.

Lemma holds_after_https (entries : loc) (keyed : list (loc * FeedEntry.t)) (w : world) :
  holds w entries keyed →
  ∃ w', enforce_https entries w = (Ok tt, w')
        ∧ same_outside w w'
        ∧ holds w' entries (map (λ le, (le.1, https_entry le.2)) keyed).
Proof.
  intros [Hlist Hall]. unfold enforce_https, bind. rewrite (get_list_run _ _ _ Hlist).
  destruct (for_each_enforce_https keyed.*1 w) as (w' & Hrun & Hout & Hlists & Hent).
  { apply Forall_fmap. eapply Forall_impl; [exact Hall|]. intros le Hle. by exists le.2. }
  exists w'. split; [exact Hrun|]. split; [exact Hout|]. split.
  - rewrite Hlists, <- list_fmap_compose. exact Hlist.
  - apply Forall_fmap. apply Forall_forall. intros le Hin. simpl.
    rewrite Hent. rewrite Forall_forall in Hall. rewrite (Hall _ Hin).
    rewrite bool_decide_eq_true_2; [done|]. apply list_elem_of_fmap. by exists le.
Qed.

End Store.

(** ** Deduplication of list objects and the content of the cache *)

Lemma first_seen_keyed (keyed seen : list (loc * FeedEntry.t)) :
  (first_seen (λ a b, feed_entry_eqb a.2 b.2) keyed seen).*2
  = first_seen feed_entry_eqb keyed.*2 seen.*2.
Proof.
  revert seen. induction keyed as [|[l e] keyed IH]; intros seen; csimpl; [done|].
  assert (existsb (λ b : loc * FeedEntry.t, feed_entry_eqb e b.2) seen
          = existsb (feed_entry_eqb e) seen.*2) as ->.
  { clear. induction seen as [|[l' e'] seen IH]; csimpl; [done | by rewrite IH]. }
  destruct (existsb (feed_entry_eqb e) seen.*2); csimpl.
  - apply IH.
  - rewrite IH, fmap_app. reflexivity.
Qed.

(** On a list object [_dedupe_entries] keeps the objects whose fields
    [_dedupe_entries] keeps on the list of their fields. *)
Lemma _dedupe_entries_obj_values (entries : loc) (keyed : list (loc * FeedEntry.t))
    (w : world) :
  holds w entries keyed →
  ∃ w' new keyed',
    _dedupe_entries_obj entries w = (Ok new, w')
    ∧ same_outside w w'
    ∧ holds w' new keyed'
    ∧ keyed' `sublist_of` keyed
    ∧ keyed'.*2 = _dedupe_entries keyed.*2.
Proof.
  intros Hheld. unfold _dedupe_entries_obj, bind.
  rewrite (proj2 (read_entries_holds w entries keyed) Hheld).
  rewrite dict_fromkeys_first_seen.
  set (deduped := first_seen _ keyed []).
  assert (deduped `sublist_of` keyed) as Hsub by apply first_seen_sublist.
  assert (deduped.*2 = _dedupe_entries keyed.*2) as Hvals.
  { rewrite _dedupe_entries_fromkeys. apply first_seen_keyed. }
  destruct (Z.gtb_spec (Z.of_nat (length keyed) - Z.of_nat (length deduped)) 0) as [Hgt|Hle].
  - unfold alloc. eexists _, _, deduped. split; [reflexivity|]. split; [done|].
    split; [|done]. destruct Hheld as [Hlist Hall]. split.
    + apply list_at_alloc_new.
    + apply Forall_forall. intros le Hin. apply entry_at_alloc.
      rewrite Forall_forall in Hall. apply Hall. by eapply elem_of_sublist.
  - assert (deduped = keyed) as Heq by (apply sublist_same_length; [done | lia]).
    exists w, entries, keyed. rewrite <- Hvals, Heq.
    split; [done|]. split; [by repeat split|]. split; [exact Hheld|]. by split.
Qed.

Section Fresh.
Context (E : Externals) (K : Settings).

Lemma comprehension_alloc_new {A} (f : A → FeedEntry.t) (xs : list A) (w : world) :
  comprehension xs (λ x, alloc (OEntry (f x))) w
  = (Ok (seq (length (heap w)) (length xs)),
     set_heap w (heap w ++ map (λ x, OEntry (f x)) xs)).
Proof.
  revert w. induction xs as [|x xs IH]; intros w; simpl.
  - unfold ret. rewrite app_nil_r. by destruct w.
  - unfold bind at 1, alloc at 1. unfold bind at 1. rewrite IH. unfold ret. simpl.
    rewrite length_app, Nat.add_1_r, <- app_assoc. reflexivity.
Qed.

(** What a miss of the cache stores: a list of new, distinct entry
    objects, holding the parsed entries deduplicated. *)
Lemma _url_entries_body_fresh (url content : string) (w w1 : world) :
  read_url E K url (py_range 1 (READ_ATTEMPTS_MAX K + 1)) w = (Ok content, w1) →
  ∃ w' entries keyed,
    _url_entries_body E K url w = (Ok entries, w')
    ∧ holds w' entries keyed
    ∧ NoDup keyed.*1
    ∧ keyed.*2
      = _dedupe_entries (map (λ e, FeedEntry.mk e.1 e.2) (feedparser_parse E content)).
Proof.
  intros Hread. unfold _url_entries_body. unfold bind at 1. rewrite Hread.
  unfold bind at 1. rewrite comprehension_alloc_new.
  unfold bind at 1, alloc at 1.
  set (parsed := map (λ e : string * string, FeedEntry.mk e.1 e.2) (feedparser_parse E content)).
  set (n := length (heap w1)).
  assert (map (λ x : string * string, OEntry (FeedEntry.mk x.1 x.2)) (feedparser_parse E content)
          = map OEntry parsed) as -> by (subst parsed; by rewrite map_map).
  assert (length (feedparser_parse E content) = length parsed) as ->
    by (subst parsed; by rewrite length_map).
  cbn [heap set_heap].
  set (w2 := set_heap _ _).
  assert (holds w2 (length (heap w1 ++ map OEntry parsed))
                (zip (seq n (length parsed)) parsed)) as Hheld.
  { split.
    - rewrite fst_zip_seq. subst w2. unfold list_at. simpl.
      by rewrite list_lookup_middle.
    - apply entry_at_new_objects with [OList (seq n (length parsed))].
      subst w2. simpl. by rewrite <- app_assoc. }
  destruct (_dedupe_entries_obj_values _ _ w2 Hheld)
    as (w' & new & keyed' & Hrun & _ & Hheld' & Hsub & Hvals).
  exists w', new, keyed'. split; [exact Hrun|]. split; [exact Hheld'|]. split.
  - apply (sublist_NoDup _ (zip (seq n (length parsed)) parsed).*1);
      [|by apply fmap_sublist].
    rewrite fst_zip_seq. apply NoDup_seq.
  - by rewrite Hvals, snd_zip_seq.
Qed.

End Fresh.

(** ** A feed on a first fetch *)

Section FreshFeed.
Context (E : Externals) (K : Settings).

Lemma _url_entries_miss (url content : string) (w w1 : world) :
  url_cache w !! url = None →
  read_url E K url (py_range 1 (READ_ATTEMPTS_MAX K + 1)) w = (Ok content, w1) →
  ∃ w' entries keyed,
    _url_entries E K url w = (Ok entries, w')
    ∧ holds w' entries keyed
    ∧ NoDup keyed.*1
    ∧ keyed.*2 = parsed_entries E content.
Proof.
  intros Hmiss Hread.
  destruct (_url_entries_body_fresh E K url content w w1 Hread)
    as (w' & entries & keyed & Hrun & Hheld & Hnd & Hvals).
  unfold _url_entries, bind, cache_getitem. rewrite Hmiss, Hrun. unfold cache_setdefault.
  eexists _, entries, keyed. split; [reflexivity|]. by repeat split; try apply Hheld.
Qed.

(** On a first fetch, the whitelist stage keeps the parsed entries for
    which [is_listed] answers, annotated. *)
Lemma fresh_fetch_whitelisted (whitelist : searchlist) (url content : string) (w w1 : world) :
  url_cache w !! url = None →
  read_url E K url (py_range 1 (READ_ATTEMPTS_MAX K + 1)) w = (Ok content, w1) →
  ∃ w' new keyed,
    (let! entries := _url_entries E K url in keep_whitelisted E whitelist entries) w
    = (Ok new, w')
    ∧ read_entries new w' = (Ok keyed, w')
    ∧ keyed.*2
      = map (annotated E whitelist)
            (filter (λ e, is_Some (is_listed E e whitelist)) (parsed_entries E content)).
Proof.
  intros Hmiss Hread.
  destruct (_url_entries_miss url content w w1 Hmiss Hread)
    as (w2 & entries & keyed & Hrun & Hheld & Hnd & Hvals).
  destruct (keep_whitelisted_run E whitelist entries keyed w2 Hheld Hnd)
    as (w' & new & Hrun' & _ & Hheld' & _).
  unfold bind. rewrite Hrun, Hrun'. eexists w', new, _.
  split; [reflexivity|]. split; [by apply read_entries_holds|].
  rewrite <- Hvals. clear. induction keyed as [|[l e] keyed IH]; [done|].
  rewrite fmap_cons, !filter_cons. cbn [fst snd].
  destruct (is_listed E e whitelist) as [found|] eqn:Hlisted.
  - rewrite (decide_True (P := Is_true (present (Some found)))) by exact I.
    rewrite (decide_True (P := is_Some (Some found))) by eauto.
    csimpl. by rewrite IH.
  - rewrite (decide_False (P := Is_true (present None))) by (intros []).
    rewrite (decide_False (P := is_Some None)) by (by intros [? ?]). exact IH.
Qed.

(** On a first fetch by a feed with [https: true] and a [url] rule
    under [sub] and no other stage, the entries are the parsed ones
    with [re.sub] applied to the URL the HTTPS stage left,
    deduplicated. *)
Lemma fresh_fetch_https_then_sub (feed_config : feed_config) (sub : sub_config)
    (rule : sub_rule) (url content : string) (w w1 : world) :
  cfg_whitelist feed_config = None →
  cfg_blacklist feed_config = None →
  flag (cfg_https feed_config) false = true →
  cfg_sub feed_config = Some sub →
  sub_url sub = Some rule →
  cfg_format feed_config = None →
  url_cache w !! url = None →
  read_url E K url (py_range 1 (READ_ATTEMPTS_MAX K + 1)) w = (Ok content, w1) →
  ∃ w' entries keyed,
    _entries E K feed_config url w = (Ok entries, w')
    ∧ read_entries entries w' = (Ok keyed, w')
    ∧ keyed.*2
      = _dedupe_entries
          (map (λ e, FeedEntry.mk
                       (re_sub_rule E (FeedEntry.title e) (sub_title sub))
                       (re_sub E (pattern rule) (repl rule) (https_url (FeedEntry.long_url e))))
               (parsed_entries E content)).
Proof.
  intros Hwl Hbl Hhttps Hsub Hrule Hfmt Hmiss Hread.
  destruct (_url_entries_miss url content w w1 Hmiss Hread)
    as (w2 & entries & keyed & Hrun & Hheld & Hnd & Hvals).
  destruct (holds_after_https entries keyed w2 Hheld) as (w3 & Hrun3 & _ & Hheld3).
  destruct (substitute_run E sub entries _ w3 Hheld3) as (w4 & new & Hrun4 & _ & Hheld4).
  destruct (_dedupe_entries_obj_values new _ w4 Hheld4)
    as (w5 & final & keyed5 & Hrun5 & _ & Hheld5 & _ & Hvals5).
  exists w5, final, keyed5.
  split; [|split; [by apply read_entries_holds|]].
  - rewrite _entries_stages. unfold entries_until_blacklist, entries_from_format.
    rewrite Hwl, Hbl, Hhttps, Hsub, Hfmt.
    assert (sub_truthy sub = true) as -> by (unfold sub_truthy; rewrite Hrule; apply orb_true_r).
    unfold bind at 1 2. rewrite Hrun. unfold bind at 1, ret at 1. unfold ret at 1.
    unfold bind at 1. rewrite Hrun3. unfold bind at 1. rewrite Hrun4.
    unfold bind, ret. exact Hrun5.
  - rewrite Hvals5.
    rewrite snd_zip by (rewrite length_seq, length_map, !length_fmap; lia).
    rewrite <- Hvals. f_equal. clear -Hrule.
    induction keyed as [|[l e] keyed IH]; csimpl; [done|]. rewrite IH.
    unfold substituted, https_entry, re_sub_rule. simpl. by rewrite Hrule.
Qed.

End FreshFeed.

(** ** The object store stays well formed *)

Section Invariant.
Context (E : Externals) (K : Settings).

Lemma extends_refl (w : world) : extends w w.
Proof. by split. Qed.

Lemma extends_trans (w1 w2 w3 : world) : extends w1 w2 → extends w2 w3 → extends w1 w3.
Proof. intros [He1 Hl1] [He2 Hl2]. split; eauto. Qed.

Lemma stable_entry_items (items : list loc) : stable (entry_items items).
Proof.
  intros w w' [He _] [Hnd Hall]. split; [done|].
  eapply Forall_impl; [exact Hall|]. intros x. apply He.
Qed.

Lemma stable_const (P : Prop) : stable (λ _, P).
Proof. by intros w w' _. Qed.

(** *** Rules *)

Lemma triple_ret {A} (pre : world → Prop) (a : A) (post : A → world → Prop) :
  (∀ w, well_formed w → pre w → post a w) → triple pre (ret a) post.
Proof.
  intros H w Hwf Hpre. simpl. split; [done|]. split; [apply extends_refl|].
  intros a' [= <-]. by apply H.
Qed.

Lemma triple_raise {A} (pre : world → Prop) (e : exn) (post : A → world → Prop) :
  triple pre (raise e) post.
Proof. intros w Hwf Hpre. simpl. split; [done|]. split; [apply extends_refl | done]. Qed.

Lemma triple_bind {A B} (pre : world → Prop) (m : M A) (mid : A → world → Prop)
    (k : A → M B) (post : B → world → Prop) :
  triple pre m mid → (∀ a, triple (mid a) (k a) post) → triple pre (bind m k) post.
Proof.
  intros Hm Hk w Hwf Hpre. unfold bind. destruct (Hm w Hwf Hpre) as (Hwf1 & Hext1 & Hmid).
  destruct (m w) as [[a|exc] w1]; simpl in *.
  - destruct (Hk a w1 Hwf1 (Hmid a eq_refl)) as (Hwf2 & Hext2 & Hpost).
    split; [done|]. split; [by eapply extends_trans | done].
  - split; [done|]. split; [done | done].
Qed.

Lemma triple_weaken {A} (pre pre' : world → Prop) (m : M A) (post post' : A → world → Prop) :
  triple pre m post →
  (∀ w, well_formed w → pre' w → pre w) →
  (∀ a w, well_formed w → post a w → post' a w) →
  triple pre' m post'.
Proof.
  intros Hm Hpre Hpost w Hwf Hp. destruct (Hm w Hwf (Hpre w Hwf Hp)) as (Hwf1 & Hext & Hq).
  split; [done|]. split; [done|]. intros a Ha. apply Hpost; [done | by apply Hq].
Qed.

Lemma triple_frame {A} (F : world → Prop) (pre : world → Prop) (m : M A)
    (post : A → world → Prop) :
  stable F → triple pre m post → triple (λ w, pre w ∧ F w) m (λ a w, post a w ∧ F w).
Proof.
  intros HF Hm w Hwf [Hpre HFw]. destruct (Hm w Hwf Hpre) as (Hwf1 & Hext & Hq).
  split; [done|]. split; [done|]. intros a Ha. split; [by apply Hq | by eapply HF].
Qed.

(** A step that changes nothing in the store or the cache. *)
Lemma triple_outside {A} (pre : world → Prop) (m : M A) (post : A → world → Prop) :
  (∀ w, heap (m w).2 = heap w ∧ url_cache (m w).2 = url_cache w) →
  (∀ w a, well_formed w → pre w → (m w).1 = Ok a →
          ∀ w', heap w' = heap w → url_cache w' = url_cache w → post a w') →
  triple pre m post.
Proof.
  intros Hsame Hpost w Hwf Hpre. destruct (Hsame w) as [Hh Hc].
  assert (∀ l, entry_at (m w).2 l = entry_at w l) as He by (intros l; unfold entry_at; by rewrite Hh).
  assert (∀ l, list_at (m w).2 l = list_at w l) as Hl by (intros l; unfold list_at; by rewrite Hh).
  split; [|split].
  - destruct Hwf as [Hlists Hcache]. split.
    + intros l items Hitems. rewrite Hl in Hitems. destruct (Hlists l items Hitems) as [Hnd Hall].
      split; [done|]. eapply Forall_impl; [exact Hall|]. intros x. simpl. by rewrite He.
    + intros url expires l. rewrite Hc, Hl. apply Hcache.
  - split; intros l; [by rewrite He | by rewrite Hl].
  - intros a Ha. by eapply Hpost.
Qed.

Lemma triple_read_only {A} (pre : world → Prop) (m : M A) :
  read_only m → triple pre m (λ _, pre).
Proof.
  intros Hro w Hwf Hpre. rewrite (Hro w). split; [done|]. split; [apply extends_refl | done].
Qed.

(** *** The object store *)

Lemma entry_at_valid (w : world) (l : loc) :
  is_Some (entry_at w l) → (l < length (heap w))%nat.
Proof.
  unfold entry_at. intros [e He]. destruct (heap w !! l) eqn:Hl; [|done].
  by apply lookup_lt_Some in Hl.
Qed.

Lemma list_at_valid (w : world) (l : loc) :
  is_Some (list_at w l) → (l < length (heap w))%nat.
Proof.
  unfold list_at. intros [e He]. destruct (heap w !! l) eqn:Hl; [|done].
  by apply lookup_lt_Some in Hl.
Qed.

Lemma list_at_grown (w : world) (more : list obj) (l : loc) :
  (l < length (heap w))%nat →
  list_at (set_heap w (heap w ++ more)) l = list_at w l.
Proof. intros Hl. unfold list_at. simpl. by rewrite lookup_app_l. Qed.

Lemma entry_at_grown (w : world) (more : list obj) (l : loc) :
  (l < length (heap w))%nat →
  entry_at (set_heap w (heap w ++ more)) l = entry_at w l.
Proof. intros Hl. unfold entry_at. simpl. by rewrite lookup_app_l. Qed.

Lemma extends_grown (w : world) (more : list obj) :
  extends w (set_heap w (heap w ++ more)).
Proof.
  split; intros l Hl.
  - rewrite entry_at_grown; [done | by apply entry_at_valid].
  - rewrite list_at_grown; [done | by apply list_at_valid].
Qed.

(** New entry objects: no list holds them. *)
Lemma well_formed_new_entries (w : world) (es : list FeedEntry.t) :
  well_formed w →
  well_formed (set_heap w (heap w ++ map OEntry es))
  ∧ ∀ x, (length (heap w) ≤ x)%nat → unlisted x (set_heap w (heap w ++ map OEntry es)).
Proof.
  intros [Hlists Hcache].
  assert (∀ l items, list_at (set_heap w (heap w ++ map OEntry es)) l = Some items →
                     list_at w l = Some items) as Hold.
  { intros l items. unfold list_at. simpl.
    destruct (decide (l < length (heap w))%nat) as [Hlt|Hge].
    - by rewrite lookup_app_l.
    - rewrite lookup_app_r by lia. rewrite list_lookup_fmap.
      by destruct (es !! _). }
  split; [split|].
  - intros l items Hitems. apply Hold in Hitems. destruct (Hlists l items Hitems) as [Hnd Hall].
    split; [done|]. eapply Forall_impl; [exact Hall|]. apply (extends_grown w).
  - intros url expires l Hc. apply (extends_grown w). by eapply Hcache.
  - intros x Hx l items Hitems Hin. apply Hold in Hitems.
    destruct (Hlists l items Hitems) as [_ Hall]. rewrite Forall_forall in Hall.
    apply Hall, entry_at_valid in Hin. lia.
Qed.

Lemma triple_alloc_entry (e : FeedEntry.t) :
  triple (λ _, True) (alloc (OEntry e)) (λ x w, is_Some (entry_at w x) ∧ unlisted x w).
Proof.
  intros w Hwf _. unfold alloc. cbn [fst snd].
  destruct (well_formed_new_entries w [e] Hwf) as [Hwf' Hun].
  split; [exact Hwf'|]. split; [apply extends_grown|].
  intros x [= <-]. split; [|by apply Hun].
  rewrite entry_at_alloc_new. eauto.
Qed.

Lemma triple_alloc_list (items : list loc) :
  triple (entry_items items) (alloc (OList items)) (λ l w, is_Some (list_at w l)).
Proof.
  intros w [Hlists Hcache] [Hnd Hall]. unfold alloc. cbn [fst snd].
  assert (∀ l items', list_at (set_heap w (heap w ++ [OList items])) l = Some items' →
                      list_at w l = Some items' ∨ items' = items) as Hold.
  { intros l items'. unfold list_at. simpl.
    destruct (decide (l < length (heap w))%nat) as [Hlt|Hge].
    - rewrite lookup_app_l by done. by left.
    - rewrite lookup_app_r by lia. destruct (l - length (heap w))%nat as [|n]; simpl.
      + intros [= <-]. by right.
      + by destruct n. }
  split; [split|split].
  - intros l items' Hitems. apply Hold in Hitems as [Hitems| ->].
    + destruct (Hlists l items' Hitems) as [Hnd' Hall']. split; [done|].
      eapply Forall_impl; [exact Hall'|]. apply (extends_grown w).
    + split; [done|]. eapply Forall_impl; [exact Hall|]. apply (extends_grown w).
  - intros url expires l Hc. apply (extends_grown w). by eapply Hcache.
  - apply extends_grown.
  - intros l [= <-]. rewrite list_at_alloc_new. eauto.
Qed.

Lemma triple_set_entry (l : loc) (e : FeedEntry.t) :
  triple (λ _, True) (set_entry l e) (λ _ _, True).
Proof.
  intros w [Hlists Hcache] _. unfold set_entry.
  destruct (entry_at w l) as [e0|] eqn:Hl.
  - assert (heap w !! l = Some (OEntry e0)) as Hl'.
    { unfold entry_at in Hl. by destruct (heap w !! l) as [[?|?]|]; simplify_eq. }
    rewrite Hl'. cbn [fst snd].
    assert (∀ l', list_at (set_heap w (<[l:=OEntry e]> (heap w))) l' = list_at w l') as Hsame
      by (intros l'; by apply list_at_set_heap_insert with e0).
    assert (∀ l', is_Some (entry_at w l') →
                  is_Some (entry_at (set_heap w (<[l:=OEntry e]> (heap w))) l')) as Hent.
    { intros l' Hl''. rewrite (entry_at_set_heap_insert w l l' e0 e Hl).
      destruct (decide (l = l')); eauto. }
    split; [split|split]; try done.
    + intros l' items. rewrite Hsame. intros Hitems.
      destruct (Hlists l' items Hitems) as [Hnd Hall]. split; [done|].
      eapply Forall_impl; [exact Hall|]. apply Hent.
    + intros url expires l' Hc. rewrite Hsame. by eapply Hcache.
    + split; [exact Hent|]. intros l'. by rewrite Hsame.
  - assert ((match heap w !! l with
             | Some (OEntry _) => (Ok tt, set_heap w (<[l:=OEntry e]> (heap w)))
             | _ => (Raise Stuck, w)
             end) = (Raise Stuck, w)) as ->.
    { unfold entry_at in Hl. by destruct (heap w !! l) as [[?|?]|]. }
    split; [by split|]. split; [apply extends_refl | done].
Qed.

Lemma NoDup_insert_fresh {A} (items : list A) (i : nat) (x : A) :
  NoDup items → x ∉ items → NoDup (<[i:=x]> items).
Proof.
  revert i. induction items as [|y items IH]; intros i Hnd Hx; [done|].
  apply NoDup_cons in Hnd as [Hy Hnd]. apply not_elem_of_cons in Hx as [Hne Hx].
  destruct i as [|i]; simpl.
  - apply NoDup_cons. by split.
  - apply NoDup_cons. split; [|by apply IH].
    intros Hin. apply list_elem_of_lookup in Hin as [j Hj].
    destruct (decide (i = j)) as [->|Hij].
    + destruct (decide (j < length items)%nat).
      * rewrite list_lookup_insert_eq in Hj by done. by simplify_eq.
      * rewrite list_insert_ge in Hj by lia. apply Hy. apply list_elem_of_lookup. eauto.
    + rewrite list_lookup_insert_ne in Hj by done. apply Hy. apply list_elem_of_lookup. eauto.
Qed.

Lemma triple_list_setitem (l : loc) (index : nat) (x : loc) :
  triple (λ w, is_Some (entry_at w x) ∧ unlisted x w) (list_setitem l index x) (λ _ _, True).
Proof.
  intros w Hwf [Hx Hun]. unfold list_setitem, bind, get_list.
  destruct (list_at w l) as [items|] eqn:Hl.
  - assert (heap w !! l = Some (OList items)) as Hl'.
    { unfold list_at in Hl. by destruct (heap w !! l) as [[?|?]|]; simplify_eq. }
    rewrite Hl'. case_bool_decide as Hidx;
      [|split; [done|]; split; [apply extends_refl | done]].
    cbn [fst snd]. destruct Hwf as [Hlists Hcache].
    assert (l < length (heap w))%nat as Hlt by (by apply lookup_lt_Some in Hl').
    assert (∀ l', entry_at (set_heap w (<[l:=OList (<[index:=x]> items)]> (heap w))) l'
                  = entry_at w l') as Hent.
    { intros l'. unfold entry_at. simpl. destruct (decide (l = l')) as [<-|Hne].
      - rewrite list_lookup_insert_eq by done. by rewrite Hl'.
      - by rewrite list_lookup_insert_ne. }
    assert (∀ l', list_at (set_heap w (<[l:=OList (<[index:=x]> items)]> (heap w))) l'
                  = if decide (l = l') then Some (<[index:=x]> items) else list_at w l') as Hlist.
    { intros l'. unfold list_at. simpl. destruct (decide (l = l')) as [<-|Hne].
      - by rewrite list_lookup_insert_eq.
      - by rewrite list_lookup_insert_ne. }
    destruct (Hlists l items Hl) as [Hnd Hall].
    split; [split|split]; try done.
    + intros l' items'. rewrite Hlist. destruct (decide (l = l')) as [<-|Hne].
      * intros [= <-]. split.
        -- apply NoDup_insert_fresh; [done | by eapply Hun].
        -- apply Forall_insert; [|by rewrite Hent].
           eapply Forall_impl; [exact Hall|]. intros y. simpl. by rewrite Hent.
      * intros Hitems. destruct (Hlists l' items' Hitems) as [Hnd' Hall']. split; [done|].
        eapply Forall_impl; [exact Hall'|]. intros y. simpl. by rewrite Hent.
    + intros url expires l' Hc. rewrite Hlist. destruct (decide (l = l')); [eauto|].
      by eapply Hcache.
    + split; intros l'; [by rewrite Hent|]. rewrite Hlist. destruct (decide (l = l')); eauto.
  - assert ((match heap w !! l with
             | Some (OList items) => (Ok items, w)
             | _ => (Raise Stuck, w)
             end) = (Raise Stuck, w)) as ->.
    { unfold list_at in Hl. by destruct (heap w !! l) as [[?|?]|]. }
    split; [done|]. split; [apply extends_refl | done].
Qed.

Lemma triple_get_list (pre : world → Prop) (l : loc) :
  triple pre (get_list l) (λ items w, pre w ∧ list_at w l = Some items ∧ entry_items items w).
Proof.
  intros w Hwf Hpre. rewrite (get_list_read_only l w).
  split; [done|]. split; [apply extends_refl|].
  intros items Hitems. unfold get_list in Hitems.
  assert (list_at w l = Some items) as Hl.
  { unfold list_at. destruct (heap w !! l) as [[?|?]|]; simpl in *; by simplify_eq. }
  split; [done|]. split; [done|]. by apply Hwf in Hl.
Qed.

Lemma triple_get_entry (pre : world → Prop) (l : loc) :
  triple pre (get_entry l) (λ _, pre).
Proof. apply triple_read_only, get_entry_read_only. Qed.

Lemma triple_set_title (F : world → Prop) (l : loc) (title : string) :
  stable F → triple F (set_title l title) (λ _, F).
Proof.
  intros HF. unfold set_title. eapply triple_bind; [apply triple_get_entry|].
  intros e. eapply triple_weaken; [apply (triple_frame F), triple_set_entry; exact HF| |];
    simpl; [by intros | by intros ? ? ? [_ ?]].
Qed.

Lemma triple_set_long_url (F : world → Prop) (l : loc) (long_url : string) :
  stable F → triple F (set_long_url l long_url) (λ _, F).
Proof.
  intros HF. unfold set_long_url. eapply triple_bind; [apply triple_get_entry|].
  intros e. eapply triple_weaken; [apply (triple_frame F), triple_set_entry; exact HF| |];
    simpl; [by intros | by intros ? ? ? [_ ?]].
Qed.

(** *** Loops *)

Lemma triple_for_each {A} (I : world → Prop) (xs : list A) (body : A → M unit) :
  (∀ x, triple I (body x) (λ _, I)) → triple I (for_each xs body) (λ _, I).
Proof.
  intros Hbody. induction xs as [|x xs IH]; simpl.
  - by apply triple_ret.
  - eapply triple_bind; [apply Hbody|]. intros ?. exact IH.
Qed.

Lemma triple_comprehension_if {A} (I : world → Prop) (xs : list A) (cond : A → M bool) :
  (∀ x, triple I (cond x) (λ _, I)) →
  triple I (comprehension_if xs cond) (λ ys w, I w ∧ ys `sublist_of` xs).
Proof.
  intros Hcond. induction xs as [|x xs IH]; simpl.
  - apply triple_ret. by intros.
  - eapply triple_bind; [apply Hcond|]. intros keep.
    eapply triple_bind; [exact IH|]. intros ys. simpl.
    apply triple_ret. intros w _ [HI Hsub]. split; [done|].
    destruct keep; [by apply sublist_skip | by apply sublist_cons].
Qed.

Lemma entry_items_sublist (items items' : list loc) (w : world) :
  items' `sublist_of` items → entry_items items w → entry_items items' w.
Proof.
  intros Hsub [Hnd Hall]. split; [by eapply sublist_NoDup|].
  apply Forall_forall. intros x Hx. rewrite Forall_forall in Hall.
  apply Hall. by eapply elem_of_sublist.
Qed.

(** *** The stages *)

Lemma triple_is_listed_filter (I : world → Prop) (p : FeedEntry.t → bool) (items : list loc) :
  triple I
    (comprehension_if items (λ entry, let! e := get_entry entry in ret (p e)))
    (λ ys w, I w ∧ ys `sublist_of` items).
Proof.
  apply triple_comprehension_if. intros x.
  eapply triple_bind; [apply triple_get_entry|]. intros e. by apply triple_ret.
Qed.

Lemma triple_whitelist_loop (whitelist : searchlist) (explain : option bool)
    (F : world → Prop) (items acc : list loc) :
  stable F →
  triple F (whitelist_loop E whitelist explain items acc)
    (λ r w, F w ∧ ∃ s, r = acc ++ s ∧ s `sublist_of` items).
Proof.
  intros HF. revert acc. induction items as [|x items IH]; intros acc; simpl.
  - apply triple_ret. intros w _ HFw. split; [done|]. exists []. by rewrite app_nil_r.
  - eapply triple_bind; [apply triple_get_entry|]. intros e.
    destruct (is_listed E e whitelist) as [[key match_]|].
    + eapply triple_bind.
      * instantiate (1 := λ _, F).
        destruct (flag explain false && String.eqb key "title");
          [by apply triple_set_title | by apply triple_ret].
      * intros ?. eapply triple_weaken; [apply IH | by intros |].
        intros r w _ [HFw (s & -> & Hsub)]. split; [done|].
        exists (x :: s). rewrite <- app_assoc. split; [done | by apply sublist_skip].
    + eapply triple_weaken; [apply IH | by intros |].
      intros r w _ [HFw (s & -> & Hsub)]. split; [done|].
      exists s. split; [done | by apply sublist_cons].
Qed.

Lemma triple_keep_whitelisted (whitelist : searchlist) (entries : loc) :
  triple (λ _, True) (keep_whitelisted E whitelist entries) (λ l w, is_Some (list_at w l)).
Proof.
  unfold keep_whitelisted.
  eapply triple_bind; [apply triple_get_list|]. intros items. simpl.
  eapply triple_bind.
  { eapply triple_weaken; [apply (triple_is_listed_filter (entry_items items)) | |];
      [by intros ? ? (_ & _ & ?) | intros ? ? ? H; exact H]. }
  intros kept. simpl.
  eapply triple_bind.
  { eapply triple_weaken; [apply (triple_alloc_list kept) | |];
      [intros w _ [Hitems Hsub]; by eapply entry_items_sublist | intros ? ? ? H; exact H]. }
  intros entries'. simpl.
  eapply triple_bind; [apply triple_get_list|]. intros items'. simpl.
  eapply triple_bind.
  { eapply triple_weaken;
      [apply (triple_whitelist_loop whitelist (sl_explain whitelist) (entry_items items') items' []),
         stable_entry_items | |];
      [by intros ? ? (_ & _ & ?) | intros ? ? ? H; exact H]. }
  intros whitelisted. simpl.
  eapply triple_weaken; [apply (triple_alloc_list whitelisted) | | by intros].
  intros w _ [Hitems (s & -> & Hsub)]. by eapply entry_items_sublist.
Qed.

Lemma triple_remove_blacklisted (blacklist : searchlist) (entries : loc) :
  triple (λ _, True) (remove_blacklisted E blacklist entries) (λ l w, is_Some (list_at w l)).
Proof.
  unfold remove_blacklisted.
  eapply triple_bind; [apply triple_get_list|]. intros items. simpl.
  eapply triple_bind.
  { eapply triple_weaken; [apply (triple_is_listed_filter (entry_items items)) | |];
      [by intros ? ? (_ & _ & ?) | intros ? ? ? H; exact H]. }
  intros kept. simpl.
  eapply triple_weaken; [apply (triple_alloc_list kept) | | by intros].
  intros w _ [Hitems Hsub]. by eapply entry_items_sublist.
Qed.

Lemma triple_enforce_https (entries : loc) :
  triple (λ _, True) (enforce_https entries) (λ _ _, True).
Proof.
  unfold enforce_https.
  eapply triple_bind; [apply (triple_get_list (λ _, True))|]. intros items. simpl.
  eapply triple_weaken; [apply (triple_for_each (λ _, True)) | by intros | by intros].
  intros x. unfold enforce_https_entry.
  eapply triple_bind; [apply triple_get_entry|]. intros e.
  destruct (startswith _ _); [apply triple_set_long_url, stable_const | by apply triple_ret].
Qed.

Lemma triple_format_entries (format_config : format_config) (entries : loc) :
  triple (λ _, True) (format_entries E format_config entries) (λ _ _, True).
Proof.
  unfold format_entries.
  eapply triple_bind; [apply (triple_get_list (λ _, True))|]. intros items. simpl.
  eapply triple_weaken; [apply (triple_for_each (λ _, True)) | by intros | by intros].
  intros ie.
  eapply triple_bind; [apply triple_get_entry|]. intros e.
  eapply triple_bind.
  { instantiate (1 := λ _ _, True). unfold format_entry.
    destruct (format_map E _ _); [|apply triple_raise].
    destruct (format_map E _ _); [by apply triple_ret | apply triple_raise]. }
  intros formatted.
  eapply triple_bind; [apply triple_alloc_entry|]. intros new. simpl.
  apply triple_list_setitem.
Qed.

(** In a well-formed world a list object can be read. *)
Lemma well_formed_holds (w : world) (l : loc) (items : list loc) :
  well_formed w → list_at w l = Some items →
  ∃ keyed, keyed.*1 = items ∧ holds w l keyed ∧ NoDup keyed.*1.
Proof.
  intros [Hlists _] Hl. destruct (Hlists l items Hl) as [Hnd Hall].
  assert (∃ keyed, keyed.*1 = items ∧ Forall (λ le, entry_at w le.1 = Some le.2) keyed)
    as (keyed & Hfst & Hkeyed).
  { clear Hl Hnd. induction Hall as [|x items [e He] _ (keyed & <- & Hk)].
    - by exists [].
    - exists ((x, e) :: keyed). split; [done | by constructor]. }
  exists keyed. split; [done|]. subst items. by repeat split.
Qed.

Lemma triple_dedupe_entries_obj (entries : loc) :
  triple (λ _, True) (_dedupe_entries_obj entries) (λ l w, is_Some (list_at w l)).
Proof.
  intros w Hwf _. unfold _dedupe_entries_obj, bind.
  pose proof (read_entries_read_only entries w) as Hro.
  destruct (read_entries entries w) as [[keyed|exc] w1] eqn:Hread; simpl in Hro; subst w1;
    [|split; [done|]; split; [apply extends_refl | done]].
  apply read_entries_holds in Hread as [Hlist Hall].
  rewrite dict_fromkeys_first_seen.
  match goal with |- context [(?a >? 0)%Z] => destruct (Z.gtb_spec a 0) as [Hgt|Hle] end.
  - apply triple_alloc_list; [done|].
    apply entry_items_sublist with keyed.*1; [apply fmap_sublist, first_seen_sublist|].
    by apply Hwf in Hlist.
  - split; [done|]. split; [apply extends_refl|].
    intros a [= <-]. simpl. rewrite Hlist. eauto.
Qed.

Lemma triple_new_entries {A} (f : A → FeedEntry.t) (xs : list A) :
  triple (λ _, True) (comprehension xs (λ x, alloc (OEntry (f x)))) (λ ys w, entry_items ys w).
Proof.
  intros w Hwf _. rewrite comprehension_alloc_new. cbn [fst snd].
  replace (map (λ x, OEntry (f x)) xs) with (map OEntry (map f xs)) by (by rewrite map_map).
  destruct (well_formed_new_entries w (map f xs) Hwf) as [Hwf' _].
  split; [exact Hwf'|]. split; [apply extends_grown|].
  intros ys [= <-]. split; [apply NoDup_seq|].
  pose proof (entry_at_new_objects (heap w) [] (map f xs)
                (set_heap w (heap w ++ map OEntry (map f xs)))) as Hnew.
  rewrite app_nil_r in Hnew. specialize (Hnew eq_refl).
  rewrite length_map in Hnew.
  apply Forall_forall. intros x Hx. rewrite Forall_forall in Hnew.
  apply elem_of_seq in Hx.
  destruct (lookup_lt_is_Some_2 (map f xs) (x - length (heap w))) as [e He];
    [rewrite length_map; lia|].
  specialize (Hnew (x, e)). simpl in Hnew. rewrite Hnew; [eauto|].
  apply list_elem_of_lookup. exists (x - length (heap w))%nat.
  apply lookup_zip_with_Some. exists x, e. split; [done|]. split; [|done].
  rewrite lookup_seq. split; lia.
Qed.

Lemma triple_substitute (sub : sub_config) (entries : loc) :
  triple (λ _, True) (substitute E sub entries) (λ l w, is_Some (list_at w l)).
Proof.
  intros w Hwf _.
  destruct (list_at w entries) as [items|] eqn:Hl.
  - destruct (well_formed_holds w entries items Hwf Hl) as (keyed & <- & [_ Hall] & Hnd).
    set (es := map (substituted E sub) keyed.*2).
    set (w1 := set_heap w (heap w ++ map OEntry es)).
    assert (substitute E sub entries w
            = alloc (OList (seq (length (heap w)) (length es))) w1) as ->.
    { unfold substitute. unfold bind at 1. rewrite (get_list_run _ _ _ Hl). unfold bind at 1.
      rewrite (comprehension_alloc (λ e, FeedEntry.mk
                 (re_sub_rule E (FeedEntry.title e) (sub_title sub))
                 (re_sub_rule E (FeedEntry.long_url e) (sub_url sub))) keyed w Hall).
      assert (map (λ le : loc * FeedEntry.t, OEntry (FeedEntry.mk
                 (re_sub_rule E (FeedEntry.title le.2) (sub_title sub))
                 (re_sub_rule E (FeedEntry.long_url le.2) (sub_url sub)))) keyed
              = map OEntry es) as ->.
      { subst es. clear. induction keyed as [|[l e] keyed IH]; csimpl; [done | by rewrite IH]. }
      assert (length keyed = length es) as ->
        by (subst es; by rewrite length_map, length_fmap).
      reflexivity. }
    destruct (well_formed_new_entries w es Hwf) as [Hwf1 _]. fold w1 in Hwf1.
    destruct (triple_alloc_list (seq (length (heap w)) (length es)) w1 Hwf1)
      as (Hwf2 & Hext2 & Hpost).
    + split; [apply NoDup_seq|].
      pose proof (entry_at_new_objects (heap w) [] es w1) as Hnew.
      rewrite app_nil_r in Hnew. specialize (Hnew eq_refl).
      apply Forall_forall. intros x Hx. rewrite Forall_forall in Hnew.
      apply elem_of_seq in Hx.
      destruct (lookup_lt_is_Some_2 es (x - length (heap w))) as [e He]; [lia|].
      specialize (Hnew (x, e)). simpl in Hnew. rewrite Hnew; [eauto|].
      apply list_elem_of_lookup. exists (x - length (heap w))%nat.
      apply lookup_zip_with_Some. exists x, e. split; [done|]. split; [|done].
      rewrite lookup_seq. split; lia.
    + split; [exact Hwf2|]. split; [|exact Hpost].
      eapply extends_trans; [apply (extends_grown w (map OEntry es)) | exact Hext2].
  - assert (substitute E sub entries w = (Raise Stuck, w)) as ->.
    { unfold substitute, bind, get_list. unfold list_at in Hl.
      by destruct (heap w !! entries) as [[?|?]|]. }
    split; [done|]. split; [apply extends_refl | done].
Qed.

(** *** Fetching and the cache *)

Lemma read_url_outside_run (url : string) (attempts : list Z) (w w' : world)
    (r : result string) :
  read_url E K url attempts w = (r, w') →
  heap w' = heap w ∧ url_cache w' = url_cache w.
Proof.
  revert w. induction attempts as [|n rest IH]; intros w; simpl.
  - by intros [= _ <-].
  - unfold bind at 1, try_get, requests_get.
    destruct (transport E url (requests_sent w)) as [content|[what| | | | | | |]];
      try (by intros [= _ <-]).
    destruct (Z.eqb_spec n (READ_ATTEMPTS_MAX K)); [by intros [= _ <-]|].
    unfold bind at 1, sleep. intros Hrest. by apply IH in Hrest.
Qed.

Lemma read_url_outside (url : string) (attempts : list Z) (w : world) :
  heap (read_url E K url attempts w).2 = heap w
  ∧ url_cache (read_url E K url attempts w).2 = url_cache w.
Proof.
  destruct (read_url E K url attempts w) as [r w'] eqn:Hrun.
  by apply read_url_outside_run in Hrun.
Qed.

Lemma triple_read_url (url : string) (attempts : list Z) :
  triple (λ _, True) (read_url E K url attempts) (λ _ _, True).
Proof. apply triple_outside; [apply read_url_outside | done]. Qed.

Lemma triple_url_entries_body (url : string) :
  triple (λ _, True) (_url_entries_body E K url) (λ l w, is_Some (list_at w l)).
Proof.
  unfold _url_entries_body.
  eapply triple_bind; [apply triple_read_url|]. intros content. simpl.
  eapply triple_bind; [apply triple_new_entries|]. intros entries. simpl.
  eapply triple_bind; [apply triple_alloc_list|]. intros l. simpl.
  eapply triple_weaken; [apply triple_dedupe_entries_obj | by intros | by intros].
Qed.

Lemma triple_cache_getitem (url : string) :
  triple (λ _, True) (cache_getitem url)
    (λ cached w, ∀ v, cached = Some v → is_Some (list_at w v)).
Proof.
  intros w [Hlists Hcache] _. unfold cache_getitem.
  destruct (url_cache w !! url) as [[expires v]|] eqn:Hc.
  - destruct (clock w <? expires)%Z; cbn [fst snd].
    + split; [by split|]. split; [apply extends_refl|].
      intros cached [= <-] v' [= <-]. by eapply Hcache.
    + split; [split|split].
      * exact Hlists.
      * intros url' expires' l Hc'. simpl in Hc'.
        apply lookup_delete_Some in Hc' as [_ Hc'].
        exact (Hcache url' expires' l Hc').
      * split; intros l Hl; exact Hl.
      * intros cached [= <-] v' [=].
  - split; [by split|]. split; [apply extends_refl|]. intros cached [= <-] v' [=].
Qed.

Lemma triple_cache_setdefault (url : string) (v : loc) :
  triple (λ w, is_Some (list_at w v)) (cache_setdefault K url v)
    (λ l w, is_Some (list_at w l)).
Proof.
  intros w [Hlists Hcache] Hv. unfold cache_setdefault. cbn [fst snd].
  split; [split|split].
  - exact Hlists.
  - intros url' expires l Hc. simpl in Hc.
    destruct (decide (url = url')) as [<-|Hne].
    + rewrite lookup_insert_eq in Hc. injection Hc as _ <-. exact Hv.
    + rewrite lookup_insert_ne in Hc by done. exact (Hcache url' expires l Hc).
  - split; intros l Hl; exact Hl.
  - by intros l [= <-].
Qed.

Lemma triple_url_entries (url : string) :
  triple (λ _, True) (_url_entries E K url) (λ l w, is_Some (list_at w l)).
Proof.
  unfold _url_entries.
  eapply triple_bind; [apply triple_cache_getitem|]. intros [v|]; simpl.
  - apply triple_ret. intros w _ Hv. by apply Hv.
  - eapply triple_weaken with (pre := λ _, True); [|by intros | intros ? ? ? H; exact H].
    eapply triple_bind; [apply triple_url_entries_body|]. intros v.
    apply triple_cache_setdefault.
Qed.

(** *** [_entries] and the construction of a feed *)

Lemma triple_entries (feed_config : feed_config) (url : string) :
  triple (λ _, True) (_entries E K feed_config url) (λ l w, is_Some (list_at w l)).
Proof.
  unfold _entries.
  eapply triple_bind; [apply triple_url_entries|]. intros entries0.
  eapply triple_bind with (mid := λ _ _, True).
  { destruct (cfg_whitelist feed_config) as [whitelist|]; [|by apply triple_ret].
    destruct (searchlist_truthy whitelist); [|by apply triple_ret].
    eapply triple_weaken; [apply triple_keep_whitelisted | by intros | by intros]. }
  intros entries1.
  eapply triple_bind with (mid := λ _ _, True).
  { destruct (cfg_blacklist feed_config) as [blacklist|]; [|by apply triple_ret].
    destruct (searchlist_truthy blacklist); [|by apply triple_ret].
    eapply triple_weaken; [apply triple_remove_blacklisted | by intros | by intros]. }
  intros entries2.
  eapply triple_bind with (mid := λ _ _, True).
  { destruct (flag (cfg_https feed_config) false);
      [apply triple_enforce_https | by apply triple_ret]. }
  intros ?.
  eapply triple_bind with (mid := λ _ _, True).
  { destruct (cfg_sub feed_config) as [sub|]; [|by apply triple_ret].
    destruct (sub_truthy sub); [|by apply triple_ret].
    eapply triple_weaken; [apply triple_substitute | by intros | by intros]. }
  intros entries3.
  eapply triple_bind with (mid := λ _ _, True).
  { destruct (cfg_format feed_config) as [format_config|];
      [apply triple_format_entries | by apply triple_ret]. }
  intros ?. apply triple_dedupe_entries_obj.
Qed.

Lemma triple_post_init (channel name url : string) :
  triple (λ _, True) (__post_init__ E K channel name url)
    (λ self w, is_Some (list_at w (Feed.entries self))).
Proof.
  unfold __post_init__.
  destruct (INSTANCE_feeds K !! channel) as [feeds|]; [|apply triple_raise].
  destruct (feeds !! name) as [feed_config|]; [|apply triple_raise].
  eapply triple_bind; [apply triple_entries|]. intros entries. simpl.
  apply triple_ret. by intros.
Qed.

Lemma well_formed_empty_world : well_formed empty_world.
Proof. split; [intros l items Hl | intros url expires l Hc]; done. Qed.

(** *** The stages after [_entries] *)

Lemma leaves_store_bind {A B} (m : M A) (k : A → M B) :
  leaves_store m → (∀ a, leaves_store (k a)) → leaves_store (bind m k).
Proof.
  intros Hm Hk w. unfold bind. destruct (Hm w) as [Hh Hc].
  destruct (m w) as [[a|exc] w1]; simpl in *; [|done].
  destruct (Hk a w1) as [Hh' Hc']. by rewrite Hh', Hc'.
Qed.

Lemma leaves_store_read_only {A} (m : M A) : read_only m → leaves_store m.
Proof. intros Hro w. by rewrite (Hro w). Qed.

Lemma leaves_store_comprehension {A B} (xs : list A) (f : A → M B) :
  (∀ x, leaves_store (f x)) → leaves_store (comprehension xs f).
Proof.
  intros Hf. induction xs as [|x xs IH]; simpl; [done|].
  apply leaves_store_bind; [apply Hf|]. intros y.
  apply leaves_store_bind; [apply IH | done].
Qed.

Lemma leaves_store_unposted_entries (self : Feed.t) : leaves_store (unposted_entries E self).
Proof.
  unfold unposted_entries.
  apply leaves_store_bind; [apply leaves_store_read_only, read_entries_read_only|].
  intros keyed. apply leaves_store_bind; [|done].
  destruct (String.eqb _ "channel"); [done|]. by destruct (String.eqb _ "feed").
Qed.

Lemma leaves_store_postable_entries (self : Feed.t) :
  leaves_store (postable_entries E K self).
Proof.
  unfold postable_entries.
  apply leaves_store_bind; [apply leaves_store_unposted_entries|]. intros unposted.
  apply leaves_store_bind.
  - unfold filter_new_feed. apply leaves_store_bind; [done|]. intros [|]; [|done].
    by destruct (NEW_FEED_POSTS_MAX K !! _).
  - intros entries. unfold shorten. destruct (_ && _); [|done].
    apply leaves_store_bind; [done|]. intros short_urls.
    apply leaves_store_comprehension. intros ie. by destruct (short_urls !! ie.1).
Qed.

Lemma triple_entries_until_blacklist (feed_config : feed_config) (url : string) :
  triple (λ _, True) (entries_until_blacklist E K feed_config url)
    (λ l w, is_Some (list_at w l)).
Proof.
  unfold entries_until_blacklist.
  eapply triple_bind; [apply triple_url_entries|]. intros entries0. simpl.
  eapply triple_bind with (mid := λ l w, is_Some (list_at w l)).
  { destruct (cfg_whitelist feed_config) as [whitelist|]; [|by apply triple_ret].
    destruct (searchlist_truthy whitelist); [|by apply triple_ret].
    eapply triple_weaken; [apply triple_keep_whitelisted | by intros | by intros]. }
  intros entries1. simpl.
  destruct (cfg_blacklist feed_config) as [blacklist|]; [|by apply triple_ret].
  destruct (searchlist_truthy blacklist); [|by apply triple_ret].
  eapply triple_weaken; [apply triple_remove_blacklisted | by intros | by intros].
Qed.

(** The object store stays well formed: it is in the empty world, and
    building a feed, reading a URL and computing the unposted and the
    postable entries of a feed keep it so; the list a feed is given is a
    list object of the store. *)
Theorem store_stays_well_formed :
  well_formed empty_world
  ∧ (∀ url, triple (λ _, True) (_url_entries E K url) (λ l w, is_Some (list_at w l)))
  ∧ (∀ feed_config url,
       triple (λ _, True) (_entries E K feed_config url) (λ l w, is_Some (list_at w l)))
  ∧ (∀ channel name url,
       triple (λ _, True) (__post_init__ E K channel name url)
         (λ self w, is_Some (list_at w (Feed.entries self))))
  ∧ (∀ self, triple (λ _, True) (unposted_entries E self) (λ _ _, True))
  ∧ (∀ self, triple (λ _, True) (postable_entries E K self) (λ _ _, True)).
Proof.
  split; [apply well_formed_empty_world|].
  split; [apply triple_url_entries|].
  split; [apply triple_entries|].
  split; [apply triple_post_init|].
  split; intros self; (apply triple_outside; [|done]).
  - apply leaves_store_unposted_entries.
  - apply leaves_store_postable_entries.
Qed.

End Invariant.

(** ** The whitelist, HTTPS and substitution stages *)

Section Stages.
Context (E : Externals).

(** C5, as the code has it.  In [_entries] the HTTPS loop runs before
    the substitution stage.  With [https: true] and a [url] rule under
    [sub], the entry objects the substitution stage reads have the
    [long_url] the HTTPS loop left: it never begins with ["http://"];
    where the entry's [long_url] began with ["http://"] it is that URL
    with this first occurrence replaced by ["https://"], and any other
    URL is left as it is.  The [long_url] of the entries the
    substitution stage builds is [re.sub] applied to that URL, and the
    rest of [_entries] goes on from them. *)
Theorem https_enforced_before_substitution (K : Settings) (feed_config : feed_config)
    (sub : sub_config) (rule : sub_rule) (url : string) (w0 w : world) (entries : loc) :
  well_formed w0 →
  flag (cfg_https feed_config) false = true →
  cfg_sub feed_config = Some sub →
  sub_url sub = Some rule →
  entries_until_blacklist E K feed_config url w0 = (Ok entries, w) →
  ∃ keyed w3 w4 new keyed4,
    read_entries entries w = (Ok keyed, w)
    ∧ enforce_https entries w = (Ok tt, w3)
    ∧ read_entries entries w3 = (Ok (map (λ le, (le.1, https_entry le.2)) keyed), w3)
    ∧ Forall (λ le,
        startswith (https_url (FeedEntry.long_url le.2)) "http://" = false
        ∧ (startswith (FeedEntry.long_url le.2) "http://" = true →
             startswith (https_url (FeedEntry.long_url le.2)) "https://" = true
             ∧ https_url (FeedEntry.long_url le.2)
               = "https://" +:+ str_from (FeedEntry.long_url le.2) 7)
        ∧ (startswith (FeedEntry.long_url le.2) "http://" = false →
             https_url (FeedEntry.long_url le.2) = FeedEntry.long_url le.2)) keyed
    ∧ substitute E sub entries w3 = (Ok new, w4)
    ∧ read_entries new w4 = (Ok keyed4, w4)
    ∧ map FeedEntry.long_url keyed4.*2
      = map (λ le, re_sub E (pattern rule) (repl rule) (https_url (FeedEntry.long_url le.2)))
            keyed
    ∧ map FeedEntry.title keyed4.*2
      = map (λ le, re_sub_rule E (FeedEntry.title le.2) (sub_title sub)) keyed
    ∧ _entries E K feed_config url w0 = entries_from_format E feed_config new w4.
Proof.
  intros Hwf0 Hhttps Hsub Hrule Hpre.
  destruct (triple_entries_until_blacklist E K feed_config url w0 Hwf0 I)
    as (Hwf & _ & Hlist).
  rewrite Hpre in Hwf, Hlist. simpl in Hwf, Hlist.
  destruct (Hlist entries eq_refl) as [items Hitems].
  destruct (well_formed_holds w entries items Hwf Hitems) as (keyed & _ & Hread & _).
  destruct (holds_after_https entries keyed w Hread) as (w3 & Hrun3 & Hout3 & Hheld3).
  destruct (substitute_run E sub entries _ w3 Hheld3) as (w4 & new & Hrun4 & Hout4 & Hheld4).
  eexists keyed, w3, w4, new, _. split; [by apply read_entries_holds|].
  split; [exact Hrun3|].
  split; [by apply read_entries_holds|].
  split; [apply Forall_forall; intros le _; apply https_url_spec|].
  split; [exact Hrun4|].
  split; [apply read_entries_holds; exact Hheld4|].
  rewrite snd_zip by (rewrite length_seq, length_map, !length_fmap; lia).
  split; [|split].
  - clear -Hrule. induction keyed as [|[l e] keyed IH]; csimpl; [done|].
    rewrite IH. unfold re_sub_rule. by rewrite Hrule.
  - clear. induction keyed as [|[l e] keyed IH]; csimpl; [done|]. by rewrite IH.
  - rewrite _entries_stages. unfold bind at 1. rewrite Hpre.
    rewrite Hhttps. unfold bind at 1. rewrite Hrun3. rewrite Hsub.
    assert (sub_truthy sub = true) as -> by (unfold sub_truthy; rewrite Hrule; apply orb_true_r).
    unfold bind at 1. by rewrite Hrun4.
Qed.


End Stages.

(** ** The pipeline on concrete feeds *)

(** C3 fails on the code.  The list memoised for a URL holds the entry
    objects themselves, and [_entries] rewrites their [title] (whitelist
    with [explain]) and [long_url] ([https]) in place.  Read freshly,
    the URL gives [hello foo bar] at [http://x.test/1]; after feed [A]
    ([https: true], whitelist [foo] with [explain]) was built, the same
    read, served from the cache with no request and no time passed,
    gives [hello *foo* bar] at [https://x.test/1]. *)
Theorem cached_entries_changed_by_feed_config :
  ((let! entries := _url_entries Demo.one_entry Demo.settings "u" in
    read_entries entries) Demo.start).1
  = Ok [(0%nat, FeedEntry.mk "hello foo bar" "http://x.test/1")]
  ∧ ((let! _ := __post_init__ Demo.one_entry Demo.settings "#chan" "A" "u" in
      let! entries := _url_entries Demo.one_entry Demo.settings "u" in
      read_entries entries) Demo.start).1
    = Ok [(0%nat, FeedEntry.mk "hello *foo* bar" "https://x.test/1")]
  ∧ trace ((let! _ := __post_init__ Demo.one_entry Demo.settings "#chan" "A" "u" in
            let! entries := _url_entries Demo.one_entry Demo.settings "u" in
            read_entries entries) Demo.start).2
    = [get_event "u"]
  ∧ clock ((let! _ := __post_init__ Demo.one_entry Demo.settings "#chan" "A" "u" in
            let! entries := _url_entries Demo.one_entry Demo.settings "u" in
            read_entries entries) Demo.start).2
    = 0%Z.
Proof. vm_compute. repeat split. Qed.

(** [read_url_retries] where the transport times out twice and
    [READ_ATTEMPTS_MAX] is 3: the third attempt succeeds, after sleeps
    of 2 and 4. *)
Lemma read_url_retries_witness :
  (read_url Demo.five_entries Demo.settings "u" (py_range 1 (3 + 1)) Demo.start).1
  = Ok "T1|http://x.test/1;T2|http://x.test/2;T3|http://x.test/3;T4|http://x.test/4;T5|http://x.test/5"
  ∧ trace (read_url Demo.five_entries Demo.settings "u" (py_range 1 (3 + 1)) Demo.start).2
    = trace Demo.start
      ++ failed_attempts_events "u" (py_range 1 (Z.of_nat 3)) ++ [get_event "u"].
Proof.
  destruct (read_url_retries Demo.five_entries Demo.settings "u" Demo.start) as [_ Hk].
  destruct (Hk 3%nat) as [Hok _].
  - lia.
  - vm_compute. discriminate.
  - intros j Hj. unfold request_failed.
    destruct j as [|[|j]]; [by eexists | by eexists | simpl in Hj; lia].
  - apply Hok. reflexivity.
Defined.

(** [unposted_entries_scope] on feed [B], which has no [dedup] key: the
    store is asked for the channel and answers in reverse order; the
    entries come back in the order of the feed. *)
Lemma unposted_entries_scope_witness :
  read_entries (Feed.entries Demo.feed_B) Demo.world_B = (Ok Demo.keyed_B, Demo.world_B)
  ∧ unposted_entries Demo.five_entries Demo.feed_B Demo.world_B
    = (Ok Demo.keyed_B.*2,
       emit Demo.world_B
         (EvSelectUnpostedForChannel "#chan" "B" (map FeedEntry.long_url Demo.keyed_B.*2))).
Proof.
  assert (read_entries (Feed.entries Demo.feed_B) Demo.world_B
          = (Ok Demo.keyed_B, Demo.world_B)) as Hread by (vm_compute; reflexivity).
  split; [exact Hread|].
  destruct (unposted_entries_scope Demo.five_entries Demo.feed_B Demo.world_B Demo.keyed_B Hread)
    as (Hchannel & _).
  rewrite Hchannel by (left; reflexivity). vm_compute. reflexivity.
Defined.



(** [https_enforced_before_substitution] on the entry at
    [http://x.test/1] with a rule rewriting the host: the rule sees
    [https://x.test/1]. *)
Lemma https_enforced_before_substitution_witness :
  ∃ w3 w4 new keyed4,
    enforce_https 1 Demo.world_one = (Ok tt, w3)
    ∧ substitute Demo.one_entry (mkSub None (Some (mkSubRule "x.test" "y.test"))) 1 w3
      = (Ok new, w4)
    ∧ read_entries new w4 = (Ok keyed4, w4)
    ∧ map FeedEntry.long_url keyed4.*2 = ["https://y.test/1"].
Proof.
  destruct (https_enforced_before_substitution Demo.one_entry Demo.settings
              Demo.https_sub_config (mkSub None (Some (mkSubRule "x.test" "y.test")))
              (mkSubRule "x.test" "y.test") "u" Demo.start Demo.world_one 1)
    as (keyed & w3 & w4 & new & keyed4 & Hread & H3 & _ & _ & H4 & Hread4 & Hurls & _).
  - apply well_formed_empty_world.
  - reflexivity.
  - reflexivity.
  - reflexivity.
  - vm_compute. reflexivity.
  - vm_compute in Hread. injection Hread as <-.
    exists w3, w4, new, keyed4.
    split; [exact H3|]. split; [exact H4|]. split; [exact Hread4|].
    rewrite Hurls. vm_compute. reflexivity.
Defined.


(** The scenario of the specification: three parsed entries, two of them
    the same, [https: true], no shortening, a new feed. *)
Example end_to_end_scenario :
  let E := Demo.externals 0
             "Title One|http://x.test/1;Title One|http://x.test/1;Title Two|http://x.test/2"
             true [] in
  let feed_config := mkFeedConfig None None (Some true) None None None None (Some false) in
  ((let! entries := _entries E Demo.settings feed_config "u" in
    postable_entries E Demo.settings (Feed.mk "#chan" "C" "u" feed_config entries))
     empty_world).1
  = Ok [Plain (FeedEntry.mk "Title One" "https://x.test/1");
        Plain (FeedEntry.mk "Title Two" "https://x.test/2")].
Proof. vm_compute. reflexivity. Qed.

(** C5 as stated fails: the HTTPS loop only touches a [long_url] that
    begins with ["http://"].  For a feed with [https: true] and a [url]
    rule under [sub], the entry read at [ftp://x.test/1] reaches the
    substitution stage with that URL, which does not begin with
    ["https://"], and the stage rewrites it as it is. *)
Lemma substitution_input_need_not_be_https :
  ((let! entries :=
      entries_until_blacklist Demo.ftp_entry Demo.settings Demo.https_sub_config "u" in
    enforce_https entries ;;
    read_entries entries) Demo.start).1
  = Ok [(0%nat, FeedEntry.mk "File" "ftp://x.test/1")]
  ∧ startswith "ftp://x.test/1" "https://" = false
  ∧ ((let! entries := _entries Demo.ftp_entry Demo.settings Demo.https_sub_config "u" in
      read_entries entries) Demo.start).1
    = Ok [(2%nat, FeedEntry.mk "File" "ftp://y.test/1")].
Proof. vm_compute. repeat split. Qed.

(** * Effects, edge cases and the other stages *)

(** ** The fetch loop: time slept, other exceptions, no attempt *)

Section FetcherMore.
Context (E : Externals) (K : Settings).

Lemma py_range_snoc (k : nat) :
  py_range 1 (Z.of_nat k + 1)
  = py_range 1 (Z.of_nat k) ++ (if k is O then [] else [Z.of_nat k]).
Proof.
  destruct k as [|k]; [done|].
  unfold py_range.
  replace (Z.to_nat (Z.of_nat (S k) + 1 - 1)) with (S k) by lia.
  replace (Z.to_nat (Z.of_nat (S k) - 1)) with k by lia.
  rewrite seq_S, map_app. simpl. do 3 f_equal. lia.
Qed.

Lemma failed_attempts_clock url (k : nat) w :
  (1 ≤ k)%nat →
  clock (fold_left (failed_attempt url) (py_range 1 (Z.of_nat k)) w)
  = (clock w + (2 ^ Z.of_nat k - 2))%Z.
Proof.
  induction k as [|k IH]; [lia|]. intros _.
  destruct k as [|k].
  - simpl. lia.
  - replace (Z.of_nat (S (S k))) with (Z.of_nat (S k) + 1)%Z by lia.
    rewrite py_range_snoc, fold_left_app. simpl. rewrite IH by lia.
    rewrite Z.pow_add_r by lia. lia.
Qed.

(** The loop after the attempts before attempt [k] failed. *)
Lemma read_url_after_failures (url : string) (w : world) (k : nat) :
  (1 ≤ k)%nat → (Z.of_nat k ≤ READ_ATTEMPTS_MAX K)%Z →
  (∀ j, (j < k - 1)%nat → request_failed (transport E url (requests_sent w + j))) →
  let w' := fold_left (failed_attempt url) (py_range 1 (Z.of_nat k)) w in
  read_url E K url (py_range 1 (READ_ATTEMPTS_MAX K + 1)) w
  = read_url E K url
      (Z.of_nat k :: py_range (Z.of_nat (k - 1) + 2) (READ_ATTEMPTS_MAX K + 1)) w'
  ∧ requests_sent w' = (requests_sent w + (k - 1))%nat
  ∧ clock w' = (clock w + (2 ^ Z.of_nat k - 2))%Z
  ∧ trace w' = trace w ++ failed_attempts_events url (py_range 1 (Z.of_nat k))
  ∧ heap w' = heap w ∧ url_cache w' = url_cache w.
Proof.
  intros Hk1 Hk Hfail w'. split; [|split; [|split; [|split; [|split]]]].
  - replace (READ_ATTEMPTS_MAX K) with (Z.of_nat (Z.to_nat (READ_ATTEMPTS_MAX K))) at 1 by lia.
    rewrite (py_range_split (k - 1) (Z.to_nat (READ_ATTEMPTS_MAX K))) by lia.
    replace (Z.of_nat (k - 1) + 1)%Z with (Z.of_nat k) by lia.
    replace (Z.of_nat (Z.to_nat (READ_ATTEMPTS_MAX K))) with (READ_ATTEMPTS_MAX K) by lia.
    apply read_url_failed_prefix.
    + intros Hin. apply py_range_bounds in Hin. lia.
    + intros j Hj. apply Hfail. unfold py_range in Hj.
      rewrite length_map, length_seq in Hj. lia.
  - subst w'. rewrite failed_attempts_sent. unfold py_range.
    rewrite length_map, length_seq. lia.
  - by apply failed_attempts_clock.
  - apply failed_attempts_trace.
  - subst w'. clear. generalize (py_range 1 (Z.of_nat k)). intros ns. revert w.
    induction ns as [|n ns IH]; intros w; simpl; [done|]. by rewrite IH.
  - apply failed_attempts_cache.
Qed.

(** X1.  The pause after failed attempt [n] is [2 ** n] seconds and
    there is none after the attempt that ends the loop.  When the
    attempts before attempt [k] fail and attempt [k] succeeds, [k]
    requests were sent and [2^k - 2] seconds slept; when it fails as the
    last attempt allowed, [READ_ATTEMPTS_MAX] requests were sent and
    [2^READ_ATTEMPTS_MAX - 2] seconds slept before the exception is
    raised. *)
Theorem read_url_backoff_total (url : string) (w : world) (k : nat) :
  (1 ≤ k)%nat → (Z.of_nat k ≤ READ_ATTEMPTS_MAX K)%Z →
  (∀ j, (j < k - 1)%nat → request_failed (transport E url (requests_sent w + j))) →
  let fetch := read_url E K url (py_range 1 (READ_ATTEMPTS_MAX K + 1)) w in
  let outcome := transport E url (requests_sent w + (k - 1)) in
  (∀ content,
     outcome = Ok content →
     clock fetch.2 = (clock w + (2 ^ Z.of_nat k - 2))%Z
     ∧ requests_sent fetch.2 = (requests_sent w + k)%nat)
  ∧ (∀ what,
       Z.of_nat k = READ_ATTEMPTS_MAX K →
       outcome = Raise (RequestException what) →
       clock fetch.2 = (clock w + (2 ^ READ_ATTEMPTS_MAX K - 2))%Z
       ∧ Z.of_nat (requests_sent fetch.2)
         = (Z.of_nat (requests_sent w) + READ_ATTEMPTS_MAX K)%Z).
Proof.
  intros Hk1 Hk Hfail fetch outcome.
  destruct (read_url_after_failures url w k Hk1 Hk Hfail) as (Hrun & Hsent & Hclock & _).
  set (w' := fold_left (failed_attempt url) (py_range 1 (Z.of_nat k)) w) in *.
  clearbody w'. split.
  - intros content Hout. subst fetch outcome. rewrite <- Hsent in Hout.
    rewrite Hrun, (read_url_success E K url _ _ w' content Hout). simpl.
    rewrite Hclock, Hsent. split; [done | lia].
  - intros what Hlast Hout. subst outcome. rewrite <- Hsent in Hout.
    assert (fetch = (Raise (RequestException what), last_attempt url w')) as ->.
    { subst fetch. rewrite Hrun. rewrite Hlast at 1.
      exact (read_url_last_failure E K url _ w' what Hout). }
    unfold last_attempt. cbn [snd clock requests_sent].
    rewrite Hclock, Hsent, <- Hlast. split; [done | lia].
Qed.

(** X2.  Only a [requests.RequestException] is retried: when the
    attempts before attempt [k] fail with one and attempt [k] raises
    anything else, that exception leaves the loop at once, with no sleep
    after it and no further request, whatever attempts are left; on a
    miss [_url_entries] raises it and the cache is left as it was. *)
Theorem read_url_other_exception_not_retried (url : string) (w : world) (k : nat) (exc : exn) :
  (1 ≤ k)%nat → (Z.of_nat k ≤ READ_ATTEMPTS_MAX K)%Z →
  (∀ j, (j < k - 1)%nat → request_failed (transport E url (requests_sent w + j))) →
  transport E url (requests_sent w + (k - 1)) = Raise exc →
  (∀ what, exc ≠ RequestException what) →
  let fetch := read_url E K url (py_range 1 (READ_ATTEMPTS_MAX K + 1)) w in
  fetch.1 = Raise exc
  ∧ trace fetch.2
    = trace w ++ failed_attempts_events url (py_range 1 (Z.of_nat k)) ++ [get_event url]
  ∧ requests_sent fetch.2 = (requests_sent w + k)%nat
  ∧ url_cache fetch.2 = url_cache w
  ∧ (url_cache w !! url = None → _url_entries E K url w = (Raise exc, fetch.2)).
Proof.
  intros Hk1 Hk Hfail Hout Hother fetch.
  destruct (read_url_after_failures url w k Hk1 Hk Hfail)
    as (Hrun & Hsent & _ & Htrace & _ & Hcache).
  set (w' := fold_left (failed_attempt url) (py_range 1 (Z.of_nat k)) w) in *.
  assert (fetch = (Raise exc, last_attempt url w')) as Hfetch.
  { subst fetch. rewrite Hrun. simpl. unfold bind, try_get, requests_get.
    rewrite <- Hsent in Hout. rewrite Hout.
    destruct exc as [what| | | | | | |]; try reflexivity. by destruct (Hother what). }
  rewrite Hfetch. simpl. rewrite Htrace, Hsent, Hcache, <- app_assoc.
  split; [done|]. split; [done|]. split; [lia|]. split; [done|].
  intros Hmiss. unfold _url_entries, bind, cache_getitem. rewrite Hmiss.
  unfold _url_entries_body, bind. fold fetch. by rewrite Hfetch.
Qed.

(** X3.  With [READ_ATTEMPTS_MAX] below 1 the loop has no attempt to
    make: nothing is requested, [response] is never bound and reading it
    raises [UnboundLocalError]; nothing is cached. *)
Theorem read_url_without_attempts (url : string) (w : world) :
  (READ_ATTEMPTS_MAX K < 1)%Z →
  read_url E K url (py_range 1 (READ_ATTEMPTS_MAX K + 1)) w
  = (Raise (UnboundLocalError "response"), w)
  ∧ _url_entries_body E K url w = (Raise (UnboundLocalError "response"), w)
  ∧ (url_cache w !! url = None →
       _url_entries E K url w = (Raise (UnboundLocalError "response"), w)).
Proof.
  intros Hmax.
  assert (read_url E K url (py_range 1 (READ_ATTEMPTS_MAX K + 1)) w
          = (Raise (UnboundLocalError "response"), w)) as Hrun.
  { unfold py_range. replace (Z.to_nat (READ_ATTEMPTS_MAX K + 1 - 1)) with 0%nat by lia.
    reflexivity. }
  assert (_url_entries_body E K url w = (Raise (UnboundLocalError "response"), w)) as Hbody.
  { unfold _url_entries_body, bind. by rewrite Hrun. }
  split; [exact Hrun|]. split; [exact Hbody|].
  intros Hmiss. unfold _url_entries, bind, cache_getitem. by rewrite Hmiss, Hbody.
Qed.

End FetcherMore.

(** ** What the stages touch *)

#[local] Instance same_outside_preorder : PreOrder same_outside.
Proof.
  split.
  - by repeat split.
  - intros w1 w2 w3 (? & ? & ? & ?) (? & ? & ? & ?). repeat split; congruence.
Qed.

#[local] Instance grown_preorder : PreOrder grown.
Proof.
  split.
  - intros w. exists []. by rewrite app_nil_r.
  - intros w1 w2 w3 [more1 H1] [more2 H2]. exists (more1 ++ more2).
    by rewrite H2, H1, app_assoc.
Qed.

Section Keeps.
Context (R : relation world) `{!PreOrder R}.

Lemma keeps_ret {A} (a : A) : keeps R (ret a).
Proof. intros w. reflexivity. Qed.

Lemma keeps_raise {A} (e : exn) : keeps R (raise (A:=A) e).
Proof. intros w. reflexivity. Qed.

Lemma keeps_bind {A B} (m : M A) (k : A → M B) :
  keeps R m → (∀ a, keeps R (k a)) → keeps R (bind m k).
Proof.
  intros Hm Hk w. unfold bind. specialize (Hm w).
  destruct (m w) as [[a|exc] w1]; simpl in *; [|done].
  etransitivity; [exact Hm | apply Hk].
Qed.

Lemma keeps_read_only {A} (m : M A) : read_only m → keeps R m.
Proof. intros Hro w. rewrite (Hro w). reflexivity. Qed.

Lemma keeps_for_each {A} (xs : list A) (body : A → M unit) :
  (∀ x, keeps R (body x)) → keeps R (for_each xs body).
Proof.
  intros Hbody. induction xs as [|x xs IH]; simpl; [apply keeps_ret|].
  apply keeps_bind; [apply Hbody | intros _; exact IH].
Qed.

Lemma keeps_comprehension {A B} (xs : list A) (f : A → M B) :
  (∀ x, keeps R (f x)) → keeps R (comprehension xs f).
Proof.
  intros Hf. induction xs as [|x xs IH]; simpl; [apply keeps_ret|].
  apply keeps_bind; [apply Hf|]. intros y.
  apply keeps_bind; [exact IH | intros ys; apply keeps_ret].
Qed.

Lemma keeps_comprehension_if {A} (xs : list A) (cond : A → M bool) :
  (∀ x, keeps R (cond x)) → keeps R (comprehension_if xs cond).
Proof.
  intros Hf. induction xs as [|x xs IH]; simpl; [apply keeps_ret|].
  apply keeps_bind; [apply Hf|]. intros y.
  apply keeps_bind; [exact IH | intros ys; apply keeps_ret].
Qed.

Lemma keeps_get_entry (l : loc) : keeps R (get_entry l).
Proof. apply keeps_read_only, get_entry_read_only. Qed.

Lemma keeps_get_list (l : loc) : keeps R (get_list l).
Proof. apply keeps_read_only, get_list_read_only. Qed.

Lemma keeps_read_entries (l : loc) : keeps R (read_entries l).
Proof. apply keeps_read_only, read_entries_read_only. Qed.

End Keeps.

Lemma keeps_alloc_outside (o : obj) : keeps same_outside (alloc o).
Proof. intros w. by repeat split. Qed.

Lemma keeps_alloc_grown (o : obj) : keeps grown (alloc o).
Proof. intros w. by exists [o]. Qed.

Lemma keeps_set_entry (l : loc) (e : FeedEntry.t) : keeps same_outside (set_entry l e).
Proof.
  intros w. unfold set_entry. destruct (heap w !! l) as [[?|?]|]; by repeat split.
Qed.

Lemma keeps_list_setitem (l : loc) (index : nat) (x : loc) :
  keeps same_outside (list_setitem l index x).
Proof.
  apply keeps_bind; [apply _ | apply keeps_get_list, _ |].
  intros items. case_bool_decide; [|apply keeps_raise, _]. intros w. by repeat split.
Qed.

Create HintDb keeps.
#[local] Hint Resolve keeps_ret keeps_raise keeps_get_entry keeps_get_list keeps_read_entries
  keeps_alloc_outside keeps_alloc_grown keeps_set_entry keeps_list_setitem : keeps.

(** One step of a proof that a computation keeps a relation: through a
    [bind], a loop or a test, down to the primitives. *)
Ltac keeps_step :=
  first
    [ solve [eauto with keeps typeclass_instances]
    | apply keeps_bind; [apply _ | | intros ?]
    | apply keeps_for_each; [apply _ | intros ?]
    | apply keeps_comprehension; [apply _ | intros ?]
    | apply keeps_comprehension_if; [apply _ | intros ?]
    | match goal with
      | |- keeps _ (if ?b then _ else _) => destruct b
      | |- keeps _ (match ?x with _ => _ end) => destruct x
      end ].

Ltac keeps_auto := repeat keeps_step.

Section Effects.
Context (E : Externals) (K : Settings).

Lemma _entries_from_whitelist (feed_config : feed_config) (url : string) :
  _entries E K feed_config url
  = (let! entries := _url_entries E K url in entries_from_whitelist E feed_config entries).
Proof. reflexivity. Qed.

Lemma keeps_whitelist_loop (whitelist : searchlist) (explain : option bool)
    (entries whitelisted_entries : list loc) :
  keeps same_outside (whitelist_loop E whitelist explain entries whitelisted_entries).
Proof.
  revert whitelisted_entries.
  induction entries as [|entry rest IH]; intros whitelisted_entries; simpl; [keeps_auto|].
  unfold set_title. keeps_auto.
Qed.

(** After the fetch, [_entries] works on the object store alone. *)
Lemma keeps_entries_from_whitelist (feed_config : feed_config) (entries : loc) :
  keeps same_outside (entries_from_whitelist E feed_config entries).
Proof.
  unfold entries_from_whitelist, keep_whitelisted, remove_blacklisted, enforce_https,
    enforce_https_entry, substitute, format_entries, format_entry, _dedupe_entries_obj,
    set_long_url.
  pose proof keeps_whitelist_loop. keeps_auto.
Qed.


Lemma keeps_whitelist_loop_grown (whitelist : searchlist) (explain : option bool)
    (entries whitelisted_entries : list loc) :
  flag explain false = false →
  keeps grown (whitelist_loop E whitelist explain entries whitelisted_entries).
Proof.
  intros Hexplain. revert whitelisted_entries.
  induction entries as [|entry rest IH]; intros whitelisted_entries; simpl; [keeps_auto|].
  rewrite Hexplain. simpl. keeps_auto.
Qed.

(** Without the whitelist's [explain], the HTTPS loop and the format
    stage, what follows the fetch only builds new objects. *)
Lemma keeps_entries_from_whitelist_grown (feed_config : feed_config) (entries : loc) :
  assigns_in_place feed_config = false →
  keeps grown (entries_from_whitelist E feed_config entries).
Proof.
  unfold assigns_in_place. intros Hquiet.
  apply orb_false_elim in Hquiet as [Hquiet Hformat].
  apply orb_false_elim in Hquiet as [Hexplain Hhttps].
  unfold entries_from_whitelist. rewrite Hhttps.
  destruct (cfg_format feed_config); [done|].
  unfold keep_whitelisted, remove_blacklisted, substitute, _dedupe_entries_obj.
  destruct (cfg_whitelist feed_config) as [whitelist|].
  - destruct (searchlist_truthy whitelist); simpl in Hexplain.
    + pose proof (λ a b, keeps_whitelist_loop_grown whitelist _ a b Hexplain). keeps_auto.
    + keeps_auto.
  - keeps_auto.
Qed.

Lemma read_url_events (url : string) (attempts : list Z) (w : world) :
  ∃ evs, trace (read_url E K url attempts w).2 = trace w ++ evs
         ∧ fetch_events url evs
         ∧ (count_gets evs ≤ length attempts)%nat
         ∧ (attempts ≠ [] → ∃ rest, evs = get_event url :: rest).
Proof.
  revert w. induction attempts as [|n rest IH]; intros w; simpl.
  - exists []. rewrite app_nil_r. split; [done|]. split; [constructor|].
    split; [unfold count_gets; simpl; lia | done].
  - assert (fetch_events url [get_event url]) as Hone by (constructor; [by left | constructor]).
    unfold bind at 1, try_get, requests_get.
    destruct (transport E url (requests_sent w)) as [content|[what| | | | | | |]]; simpl;
      try (exists [get_event url]; split; [reflexivity|]; split; [exact Hone|];
           split; [unfold count_gets; simpl; lia | by eexists]).
    destruct (Z.eqb_spec n (READ_ATTEMPTS_MAX K)).
    + exists [get_event url]. split; [reflexivity|]. split; [exact Hone|].
      split; [unfold count_gets; simpl; lia | by eexists].
    + unfold bind at 1, sleep. simpl.
      match goal with
      | |- context [read_url E K url rest ?w'] => destruct (IH w') as (evs & Hev & Hfe & Hc & _)
      end.
      rewrite Hev. simpl. rewrite <- !app_assoc. simpl.
      eexists. split; [reflexivity|]. split; [|split; [|by eexists]].
      * constructor; [by left|]. constructor; [right; by eexists | exact Hfe].
      * unfold count_gets in *. simpl. lia.
Qed.

Lemma _url_entries_body_events (url : string) (w : world) :
  ∃ evs, trace (_url_entries_body E K url w).2 = trace w ++ evs
         ∧ fetch_events url evs
         ∧ (Z.of_nat (count_gets evs) ≤ Z.max 0 (READ_ATTEMPTS_MAX K))%Z
         ∧ ((1 ≤ READ_ATTEMPTS_MAX K)%Z → ∃ rest, evs = get_event url :: rest).
Proof.
  destruct (read_url_events url (py_range 1 (READ_ATTEMPTS_MAX K + 1)) w)
    as (evs & Hev & Hfe & Hc & Hfirst).
  exists evs. split; [|split; [exact Hfe|split]].
  - unfold _url_entries_body. unfold bind at 1.
    destruct (read_url E K url _ w) as [[content|exc] w1]; [|exact Hev].
    simpl in Hev. rewrite <- Hev.
    assert (keeps same_outside
              (let! entries :=
                 comprehension (feedparser_parse E content)
                   (λ e, alloc (OEntry (FeedEntry.mk e.1 e.2))) in
               let! entries := alloc (OList entries) in
               _dedupe_entries_obj entries)) as Hrest
      by (unfold _dedupe_entries_obj; keeps_auto).
    by destruct (Hrest w1) as (_ & _ & _ & ->).
  - unfold py_range in Hc. rewrite length_map, length_seq in Hc. lia.
  - intros Hmax. apply Hfirst. unfold py_range.
    destruct (Z.to_nat (READ_ATTEMPTS_MAX K + 1 - 1)) eqn:Hn; [lia | done].
Qed.


Lemma _url_entries_events (url : string) (w : world) :
  ∃ evs, trace (_url_entries E K url w).2 = trace w ++ evs
         ∧ fetch_events url evs
         ∧ (Z.of_nat (count_gets evs) ≤ Z.max 0 (READ_ATTEMPTS_MAX K))%Z
         ∧ (∀ expires entries,
              url_cache w !! url = Some (expires, entries) → (clock w < expires)%Z → evs = []).
Proof.
  assert (∀ c, ∃ evs,
            trace ((let! v := _url_entries_body E K url in cache_setdefault K url v)
                     (set_url_cache w c)).2 = trace w ++ evs
            ∧ fetch_events url evs
            ∧ (Z.of_nat (count_gets evs) ≤ Z.max 0 (READ_ATTEMPTS_MAX K))%Z) as Hmiss.
  { intros c. destruct (_url_entries_body_events url (set_url_cache w c))
      as (evs & Hev & Hfe & Hc & _).
    exists evs. split; [|by split]. unfold bind.
    by destruct (_url_entries_body E K url _) as [[v|exc] w1]. }
  unfold _url_entries, bind, cache_getitem.
  destruct (url_cache w !! url) as [[expires v]|] eqn:Hcache.
  - destruct (Z.ltb_spec (clock w) expires) as [Hlt|Hge].
    + exists []. rewrite app_nil_r. split; [done|]. split; [constructor|].
      split; [unfold count_gets; simpl; lia | done].
    + destruct (Hmiss (delete url (url_cache w))) as (evs & Hev & Hfe & Hc).
      exists evs. unfold bind in Hev. split; [exact Hev|]. split; [exact Hfe|].
      split; [exact Hc|]. intros expires' entries [= <- _] Hlt. lia.
  - destruct (Hmiss (url_cache w)) as (evs & Hev & Hfe & Hc).
    assert (set_url_cache w (url_cache w) = w) as Hw by (by destruct w).
    rewrite Hw in Hev. exists evs. unfold bind in Hev. by repeat split.
Qed.

Lemma keeps_url_entries_grown (url : string) : keeps grown (_url_entries E K url).
Proof.
  assert (∀ {A} (m : M A), (∀ w, heap (m w).2 = heap w) → keeps grown m) as Hsame.
  { intros A m Hm w. exists []. by rewrite app_nil_r. }
  unfold _url_entries, _url_entries_body, _dedupe_entries_obj.
  apply keeps_bind; [apply _ | |].
  - apply Hsame. intros w. unfold cache_getitem.
    destruct (url_cache w !! url) as [[expires v]|]; [|done]. by destruct (_ <? _)%Z.
  - intros [v|]; [keeps_auto|].
    apply keeps_bind; [apply _ | | intros v; by apply Hsame].
    apply keeps_bind; [apply _ | apply Hsame, read_url_outside | intros content].
    keeps_auto.
Qed.

(** X4.  Building a feed sends requests for the feed's URL only, at
    most [READ_ATTEMPTS_MAX] of them, and sleeps; it asks nothing of the
    delivery history or of the URL shortener; and when the cache holds a
    list for the URL that has not expired, it sends nothing at all. *)
Theorem post_init_sends_bounded_requests (channel name url : string) (w : world) :
  ∃ evs,
    trace (__post_init__ E K channel name url w).2 = trace w ++ evs
    ∧ fetch_events url evs
    ∧ (Z.of_nat (count_gets evs) ≤ Z.max 0 (READ_ATTEMPTS_MAX K))%Z
    ∧ (∀ expires entries,
         url_cache w !! url = Some (expires, entries) → (clock w < expires)%Z → evs = []).
Proof.
  assert (∃ evs, trace w = trace w ++ evs ∧ fetch_events url evs
                 ∧ (Z.of_nat (count_gets evs) ≤ Z.max 0 (READ_ATTEMPTS_MAX K))%Z
                 ∧ (∀ expires entries,
                      url_cache w !! url = Some (expires, entries) →
                      (clock w < expires)%Z → evs = [])) as Hnone.
  { exists []. rewrite app_nil_r. split; [done|]. split; [constructor|].
    split; [unfold count_gets; simpl; lia | done]. }
  unfold __post_init__.
  destruct (INSTANCE_feeds K !! channel) as [feeds|]; [|exact Hnone].
  destruct (feeds !! name) as [feed_config|]; [|exact Hnone].
  destruct (_url_entries_events url w) as (evs & Hev & Hrest).
  exists evs. split; [|exact Hrest].
  rewrite _entries_from_whitelist. unfold bind at 1 2.
  destruct (_url_entries E K url w) as [[entries|exc] w1]; [|exact Hev].
  simpl in Hev. rewrite <- Hev.
  destruct (keeps_entries_from_whitelist feed_config entries w1) as (_ & _ & _ & Htrace).
  by destruct (entries_from_whitelist E feed_config entries w1) as [[l|exc] w2].
Qed.

(** X5.  The stages that assign to objects that exist are the
    whitelist with [explain], the HTTPS loop and the format stage.
    With none of them configured, [_entries] only adds objects to the
    store, whether it returns or raises: every entry and every list
    that was there, the lists of the cache among them, is as it was. *)
Theorem entries_without_assignment_only_allocates (feed_config : feed_config)
    (url : string) (w : world) :
  assigns_in_place feed_config = false →
  (∃ more, heap (_entries E K feed_config url w).2 = heap w ++ more)
  ∧ (∀ l e, entry_at w l = Some e → entry_at (_entries E K feed_config url w).2 l = Some e)
  ∧ (∀ l items, list_at w l = Some items →
       list_at (_entries E K feed_config url w).2 l = Some items).
Proof.
  intros Hquiet.
  assert (grown w (_entries E K feed_config url w).2) as [more Hmore].
  { rewrite _entries_from_whitelist.
    apply (keeps_bind grown); [apply keeps_url_entries_grown|].
    intros entries. by apply keeps_entries_from_whitelist_grown. }
  split; [by exists more|]. split.
  - intros l e. unfold entry_at. rewrite Hmore.
    destruct (heap w !! l) as [o|] eqn:Hl; [|done].
    by rewrite (lookup_app_l_Some _ _ _ _ Hl).
  - intros l items. unfold list_at. rewrite Hmore.
    destruct (heap w !! l) as [o|] eqn:Hl; [|done].
    by rewrite (lookup_app_l_Some _ _ _ _ Hl).
Qed.

End Effects.

(** ** The cache of [_url_entries] *)

Section Cache.
Context (E : Externals) (K : Settings).

(** The list [_dedupe_entries] returns is the one it was given or a new
    object. *)
Lemma _dedupe_entries_obj_result (entries new : loc) (w w' : world) :
  _dedupe_entries_obj entries w = (Ok new, w') →
  (new = entries ∧ w' = w) ∨ new = length (heap w).
Proof.
  unfold _dedupe_entries_obj, bind.
  pose proof (read_entries_read_only entries w) as Hro.
  destruct (read_entries entries w) as [[keyed|exc] w1]; simpl in Hro; subst w1; [|done].
  destruct (_ >? 0)%Z.
  - unfold alloc. intros [= <- _]. by right.
  - intros [= <- <-]. by left.
Qed.

(** The list a fetch returns is a new object. *)
Lemma _url_entries_body_new (url : string) (entries : loc) (w w' : world) :
  _url_entries_body E K url w = (Ok entries, w') → (length (heap w) ≤ entries)%nat.
Proof.
  unfold _url_entries_body. unfold bind at 1.
  destruct (read_url E K url _ w) as [[content|exc] w1] eqn:Hread; [|done].
  apply read_url_outside_run in Hread as [Hheap _].
  unfold bind at 1. rewrite comprehension_alloc_new. unfold bind at 1, alloc at 1.
  intros Hrun. apply _dedupe_entries_obj_result in Hrun as [[-> _]| ->]; simpl;
    rewrite ?length_app, Hheap; lia.
Qed.

(** A list of the cache that has not expired is returned as it is. *)
Lemma _url_entries_hit (url : string) (w : world) (expires : Z) (entries : loc) :
  url_cache w !! url = Some (expires, entries) → (clock w < expires)%Z →
  _url_entries E K url w = (Ok entries, w).
Proof.
  intros Hc Hlt. unfold _url_entries, bind, cache_getitem. rewrite Hc.
  destruct (Z.ltb_spec (clock w) expires); [done | lia].
Qed.

(** The list [_url_entries] returns is in the cache when it returns. *)
Lemma _url_entries_stored (url : string) (w w1 : world) (entries : loc) :
  (0 < URL_CACHE_TTL K)%Z →
  _url_entries E K url w = (Ok entries, w1) →
  ∃ expires, url_cache w1 !! url = Some (expires, entries) ∧ (clock w1 < expires)%Z.
Proof.
  intros Httl Hrun.
  assert (∀ w0, (let! v := _url_entries_body E K url in cache_setdefault K url v) w0
                = (Ok entries, w1) →
                url_cache w1 !! url = Some ((clock w1 + URL_CACHE_TTL K)%Z, entries)) as Hmiss.
  { intros w0. unfold bind.
    destruct (_url_entries_body E K url w0) as [[v|exc] w'] eqn:Hbody; [|done].
    unfold cache_setdefault. intros [= <- <-]. simpl. by rewrite lookup_insert_eq. }
  unfold _url_entries, bind, cache_getitem in Hrun.
  destruct (url_cache w !! url) as [[expires v]|] eqn:Hc.
  - destruct (Z.ltb_spec (clock w) expires) as [Hlt|Hge].
    + injection Hrun as <- <-. by exists expires.
    + apply Hmiss in Hrun. exists (clock w1 + URL_CACHE_TTL K)%Z. split; [done | lia].
  - apply Hmiss in Hrun. exists (clock w1 + URL_CACHE_TTL K)%Z. split; [done | lia].
Qed.

(** X6.  A list that [_url_entries] returned is served again for as
    long as it has not expired: the call stored it in the cache until a
    time later than its own, and any call made before that time, while
    the cache still holds it, returns the same list object and leaves the
    world as it is, so it sends no request.  ([URL_CACHE_TTL] is taken
    to be positive.) *)
Theorem url_entries_served_from_cache (url : string) (w w1 : world) (entries : loc) :
  (0 < URL_CACHE_TTL K)%Z →
  _url_entries E K url w = (Ok entries, w1) →
  ∃ expires,
    url_cache w1 !! url = Some (expires, entries)
    ∧ (clock w1 < expires)%Z
    ∧ _url_entries E K url w1 = (Ok entries, w1)
    ∧ (∀ w2, url_cache w2 !! url = Some (expires, entries) → (clock w2 < expires)%Z →
             _url_entries E K url w2 = (Ok entries, w2)).
Proof.
  intros Httl Hrun.
  destruct (_url_entries_stored url w w1 entries Httl Hrun) as (expires & Hc & Hlt).
  exists expires. split; [exact Hc|]. split; [exact Hlt|].
  split; [by apply _url_entries_hit with expires|].
  intros w2. apply _url_entries_hit.
Qed.

(** X7.  A list that expired is not served: the call forgets it and
    goes on as on a cache that never held it.  With at least one attempt
    allowed it requests the URL; when the fetch succeeds it returns
    and stores, for [URL_CACHE_TTL] from the time the fetch ended, a new
    list object, and the objects that were there, the expired list among
    them, are as they were. *)
Theorem url_entries_refetched_after_expiry (url : string) (w : world)
    (expires : Z) (old : loc) :
  url_cache w !! url = Some (expires, old) →
  (expires < clock w)%Z →
  let refetch := _url_entries E K url w in
  refetch = _url_entries E K url (set_url_cache w (delete url (url_cache w)))
  ∧ ((1 ≤ READ_ATTEMPTS_MAX K)%Z →
       ∃ evs, trace refetch.2 = trace w ++ get_event url :: evs)
  ∧ (∀ new w1,
       refetch = (Ok new, w1) →
       (length (heap w) ≤ new)%nat
       ∧ url_cache w1 !! url = Some ((clock w1 + URL_CACHE_TTL K)%Z, new)
       ∧ (∃ more, heap w1 = heap w ++ more)).
Proof.
  intros Hc Hexpired refetch.
  set (w0 := set_url_cache w (delete url (url_cache w))).
  assert (refetch = (let! v := _url_entries_body E K url in cache_setdefault K url v) w0)
    as Hrefetch.
  { subst refetch. unfold _url_entries at 1. unfold bind at 1, cache_getitem. rewrite Hc.
    destruct (Z.ltb_spec (clock w) expires); [lia | done]. }
  split; [|split].
  - rewrite Hrefetch. unfold _url_entries at 1. unfold bind at 2, cache_getitem.
    subst w0. simpl. by rewrite lookup_delete_eq.
  - intros Hmax. destruct (_url_entries_body_events E K url w0) as (evs & Hev & _ & _ & Hfirst).
    destruct (Hfirst Hmax) as [rest ->]. exists rest. rewrite Hrefetch. unfold bind.
    by destruct (_url_entries_body E K url w0) as [[v|exc] w'].
  - intros new w1. rewrite Hrefetch. unfold bind.
    destruct (_url_entries_body E K url w0) as [[v|exc] w'] eqn:Hbody; [|done].
    unfold cache_setdefault. intros [= <- <-]. simpl.
    split; [by apply _url_entries_body_new in Hbody|].
    split; [by rewrite lookup_insert_eq|].
    pose proof (keeps_url_entries_grown E K url w0) as Hgrown.
    unfold _url_entries, bind, cache_getitem in Hgrown. subst w0. simpl in Hgrown.
    rewrite lookup_delete_eq in Hgrown. simpl in Hbody. rewrite Hbody in Hgrown.
    exact Hgrown.
Qed.

End Cache.

(** ** More on deduplication *)

Lemma first_seen_fixed (entries seen : list FeedEntry.t) :
  NoDup (map FeedEntry.long_url entries) →
  (∀ x, x ∈ entries → FeedEntry.long_url x ∉ map FeedEntry.long_url seen) →
  first_seen feed_entry_eqb entries seen = entries.
Proof.
  revert seen. induction entries as [|k rest IH]; intros seen Hnd Hout; simpl; [done|].
  apply NoDup_cons in Hnd as [Hk Hnd].
  destruct (existsb (feed_entry_eqb k) seen) eqn:Hseen.
  - apply existsb_feed_entry_eqb in Hseen. destruct (Hout k); [left | done].
  - f_equal. apply IH; [done|]. intros x Hx. rewrite map_app, elem_of_app.
    intros [Hin|Hin]; [by apply (Hout x); [right|]|].
    apply list_elem_of_singleton in Hin. simpl in Hin.
    apply Hk. rewrite <- Hin. apply list_elem_of_fmap. by exists x.
Qed.

Lemma _dedupe_entries_fixed (entries : list FeedEntry.t) :
  _dedupe_entries entries = entries ↔ NoDup (map FeedEntry.long_url entries).
Proof.
  rewrite _dedupe_entries_fromkeys. split.
  - intros Heq. rewrite <- Heq. apply first_seen_NoDup.
  - intros Hnd. apply first_seen_fixed; [done|]. intros x _. apply not_elem_of_nil.
Qed.

Lemma first_seen_long_urls (entries seen : list FeedEntry.t) (u : string) :
  u ∈ map FeedEntry.long_url (seen ++ first_seen feed_entry_eqb entries seen)
  ↔ u ∈ map FeedEntry.long_url (seen ++ entries).
Proof.
  revert seen. induction entries as [|k rest IH]; intros seen; simpl; [done|].
  destruct (existsb (feed_entry_eqb k) seen) eqn:Hseen.
  - rewrite IH. rewrite !map_app, !elem_of_app. simpl. rewrite elem_of_cons.
    apply existsb_feed_entry_eqb in Hseen. split; [tauto|].
    intros [?|[->|?]]; tauto.
  - rewrite (cons_middle k seen), (cons_middle k seen rest), !app_assoc. apply IH.
Qed.

(** X8.  [_dedupe_entries] loses no [long_url] and settles at once: the
    [long_url]s of its result are those of its input; it returns its
    input exactly when the input's [long_url]s are distinct; and applied
    to its own result it changes nothing. *)
Theorem dedupe_entries_settles (entries : list FeedEntry.t) :
  (∀ u, u ∈ map FeedEntry.long_url (_dedupe_entries entries)
        ↔ u ∈ map FeedEntry.long_url entries)
  ∧ (_dedupe_entries entries = entries ↔ NoDup (map FeedEntry.long_url entries))
  ∧ _dedupe_entries (_dedupe_entries entries) = _dedupe_entries entries
  ∧ (length (_dedupe_entries entries) ≤ length entries)%nat.
Proof.
  split; [|split; [|split]].
  - intros u. rewrite _dedupe_entries_fromkeys. apply (first_seen_long_urls entries []).
  - apply _dedupe_entries_fixed.
  - apply _dedupe_entries_fixed. rewrite _dedupe_entries_fromkeys. apply first_seen_NoDup.
  - apply sublist_length. rewrite _dedupe_entries_fromkeys. apply first_seen_sublist.
Qed.

Lemma first_seen_keyed_fixed (keyed : list (loc * FeedEntry.t)) :
  NoDup (map FeedEntry.long_url keyed.*2) →
  first_seen (λ a b, feed_entry_eqb a.2 b.2) keyed [] = keyed.
Proof.
  intros Hnd. apply sublist_same_length; [apply first_seen_sublist|].
  rewrite <- (length_fmap snd (first_seen _ keyed [])), first_seen_keyed. simpl.
  rewrite first_seen_fixed; [by rewrite length_fmap | done |].
  intros x _. apply not_elem_of_nil.
Qed.

(** A list of entries with distinct [long_url]s is returned as it is. *)
Lemma _dedupe_entries_obj_fixed (entries : loc) (keyed : list (loc * FeedEntry.t)) (w : world) :
  holds w entries keyed →
  NoDup (map FeedEntry.long_url keyed.*2) →
  _dedupe_entries_obj entries w = (Ok entries, w).
Proof.
  intros Hheld Hnd. unfold _dedupe_entries_obj, bind.
  rewrite (proj2 (read_entries_holds w entries keyed) Hheld).
  rewrite dict_fromkeys_first_seen, first_seen_keyed_fixed by done.
  by rewrite Z.sub_diag.
Qed.

(** X9.  On the list object it is given, [_dedupe_entries] assigns to
    nothing.  When the [long_url]s of the entries are distinct it returns
    that very list object and the world is as it was; otherwise it
    returns a new list object, added to the store, holding the entry
    objects that [_dedupe_entries] keeps, and the list it was given
    still holds what it held. *)
Theorem dedupe_entries_obj_returns_or_allocates (entries : loc)
    (keyed : list (loc * FeedEntry.t)) (w : world) :
  read_entries entries w = (Ok keyed, w) →
  (NoDup (map FeedEntry.long_url keyed.*2) →
     _dedupe_entries_obj entries w = (Ok entries, w))
  ∧ (¬ NoDup (map FeedEntry.long_url keyed.*2) →
       ∃ kept,
         _dedupe_entries_obj entries w
         = (Ok (length (heap w)), set_heap w (heap w ++ [OList kept.*1]))
         ∧ kept `sublist_of` keyed
         ∧ kept.*2 = _dedupe_entries keyed.*2
         ∧ read_entries (length (heap w)) (set_heap w (heap w ++ [OList kept.*1]))
           = (Ok kept, set_heap w (heap w ++ [OList kept.*1]))
         ∧ read_entries entries (set_heap w (heap w ++ [OList kept.*1]))
           = (Ok keyed, set_heap w (heap w ++ [OList kept.*1]))).
Proof.
  intros Hread. apply read_entries_holds in Hread as Hheld.
  split; [by apply _dedupe_entries_obj_fixed|].
  intros Hdup. set (kept := first_seen (λ a b, feed_entry_eqb a.2 b.2) keyed []).
  assert (kept `sublist_of` keyed) as Hsub by apply first_seen_sublist.
  assert (kept.*2 = _dedupe_entries keyed.*2) as Hvals.
  { rewrite _dedupe_entries_fromkeys. apply first_seen_keyed. }
  assert (length kept < length keyed)%nat as Hless.
  { destruct (decide (length keyed ≤ length kept)%nat) as [Hge|]; [|lia].
    destruct Hdup. apply sublist_same_length in Hsub; [|done].
    rewrite <- Hsub, Hvals, _dedupe_entries_fromkeys. apply first_seen_NoDup. }
  assert (∀ keyed', keyed' `sublist_of` keyed →
            holds (set_heap w (heap w ++ [OList kept.*1])) entries keyed
            ∧ Forall (λ le, entry_at (set_heap w (heap w ++ [OList kept.*1])) le.1 = Some le.2)
                     keyed') as Hgrown.
  { destruct Hheld as [Hlist Hall]. intros keyed' Hsub'.
    assert (Forall (λ le, entry_at (set_heap w (heap w ++ [OList kept.*1])) le.1 = Some le.2)
                   keyed) as Hall'.
    { eapply Forall_impl; [exact Hall|]. intros le Hle. by apply entry_at_alloc. }
    split; [split; [|done]|].
    - rewrite list_at_grown; [done|]. apply list_at_valid. by rewrite Hlist.
    - apply Forall_forall. intros le Hin. rewrite Forall_forall in Hall'.
      apply Hall'. by eapply elem_of_sublist. }
  exists kept. split; [|split; [done|split; [done|split]]].
  - unfold _dedupe_entries_obj, bind. rewrite Hread, dict_fromkeys_first_seen. fold kept.
    destruct (Z.gtb_spec (Z.of_nat (length keyed) - Z.of_nat (length kept)) 0); [done | lia].
  - apply read_entries_holds. split; [apply list_at_alloc_new | by apply Hgrown].
  - apply read_entries_holds. by apply (Hgrown keyed).
Qed.

(** ** The list [_entries] returns *)

Section Result.
Context (E : Externals) (K : Settings).

Lemma _entries_dedupe_last (feed_config : feed_config) (url : string) (w : world) :
  _entries E K feed_config url w
  = (let! entries := entries_until_format E K feed_config url in
     _dedupe_entries_obj entries) w.
Proof.
  rewrite _entries_stages. unfold entries_until_format, entries_from_format, bind.
  destruct (entries_until_blacklist E K feed_config url w) as [[entries|exc] w1]; [|done].
  destruct ((if flag (cfg_https feed_config) false then enforce_https entries else ret tt) w1)
    as [[[]|exc] w2]; [|done].
  destruct (match cfg_sub feed_config with
            | Some sub => if sub_truthy sub then substitute E sub entries else ret entries
            | None => ret entries
            end w2) as [[entries'|exc] w3]; [|done].
  by destruct (match cfg_format feed_config with
               | Some format_config => format_entries E format_config entries'
               | None => ret tt
               end w3) as [[[]|exc] w4].
Qed.

Lemma stable_is_list (l : loc) : stable (λ w, is_Some (list_at w l)).
Proof. intros w w' [_ Hl]. apply Hl. Qed.

Lemma triple_entries_until_format (feed_config : feed_config) (url : string) :
  triple (λ _, True) (entries_until_format E K feed_config url)
    (λ l w, is_Some (list_at w l)).
Proof.
  unfold entries_until_format.
  eapply triple_bind; [apply triple_entries_until_blacklist|]. intros entries. simpl.
  eapply triple_bind with (mid := λ _ w, is_Some (list_at w entries)).
  { eapply triple_weaken;
      [apply (triple_frame (λ w, is_Some (list_at w entries)) (λ _, True));
         [apply stable_is_list|] | |].
    - instantiate (1 := λ _ _, True).
      destruct (flag (cfg_https feed_config) false);
        [apply triple_enforce_https | by apply triple_ret].
    - by intros.
    - by intros ? ? ? [_ ?]. }
  intros _.
  eapply triple_bind with (mid := λ l w, is_Some (list_at w l)).
  { destruct (cfg_sub feed_config) as [sub|]; [|by apply triple_ret].
    destruct (sub_truthy sub); [|by apply triple_ret].
    eapply triple_weaken; [apply triple_substitute | by intros | by intros]. }
  intros entries'. simpl.
  eapply triple_bind with (mid := λ _ w, is_Some (list_at w entries')).
  { eapply triple_weaken;
      [apply (triple_frame (λ w, is_Some (list_at w entries')) (λ _, True));
         [apply stable_is_list|] | |].
    - instantiate (1 := λ _ _, True).
      destruct (cfg_format feed_config) as [format_config|];
        [apply triple_format_entries | by apply triple_ret].
    - by intros.
    - by intros ? ? ? [_ ?]. }
  intros _. by apply triple_ret.
Qed.


End Result.

(** ** The blacklist stage *)

Section Lists.
Context (E : Externals).

Lemma remove_blacklisted_run (blacklist : searchlist) (entries : loc)
    (keyed : list (loc * FeedEntry.t)) (w : world) :
  holds w entries keyed →
  let kept := filter (λ le, is_listed E le.2 blacklist = None) keyed in
  let w' := set_heap w (heap w ++ [OList kept.*1]) in
  remove_blacklisted E blacklist entries w = (Ok (length (heap w)), w')
  ∧ holds w' (length (heap w)) kept
  ∧ holds w' entries keyed.
Proof.
  intros [Hlist Hall] kept w'. split; [|split].
  - unfold remove_blacklisted. unfold bind at 1. rewrite (get_list_run _ _ _ Hlist).
    unfold bind at 1.
    rewrite (comprehension_if_filter (λ e, negb (present (is_listed E e blacklist))) keyed w Hall).
    assert (filter (λ le : loc * FeedEntry.t, negb (present (is_listed E le.2 blacklist))) keyed
            = kept) as ->; [|done].
    apply list_filter_iff. intros le. simpl. by destruct (is_listed E le.2 blacklist).
  - split; [apply list_at_alloc_new|].
    apply Forall_forall. intros le Hin. apply entry_at_alloc.
    rewrite Forall_forall in Hall. apply Hall. by apply list_elem_of_filter in Hin as [_ ?].
  - split.
    + subst w'. rewrite list_at_grown; [done|]. apply list_at_valid. by rewrite Hlist.
    + eapply Forall_impl; [exact Hall|]. intros le Hle. by apply entry_at_alloc.
Qed.

(** X11.  The blacklist stage keeps, in order, the entry objects for
    which [is_listed] answers [None], those no pattern of the blacklist
    is found in, in a new list object; it assigns to nothing: the list
    it was given and every entry are as they were. *)
Theorem blacklist_removes_listed (blacklist : searchlist) (entries : loc) (w : world)
    (items : list loc) :
  well_formed w →
  list_at w entries = Some items →
  ∃ keyed,
    keyed.*1 = items
    ∧ read_entries entries w = (Ok keyed, w)
    ∧ let kept := filter (λ le, is_listed E le.2 blacklist = None) keyed in
      let w' := set_heap w (heap w ++ [OList kept.*1]) in
      remove_blacklisted E blacklist entries w = (Ok (length (heap w)), w')
      ∧ read_entries (length (heap w)) w' = (Ok kept, w')
      ∧ read_entries entries w' = (Ok keyed, w')
      ∧ Forall (λ le, ¬ (∃ p, p ∈ default [] (sl_title blacklist)
                              ∧ is_Some (re_search E p (FeedEntry.title le.2)))
                      ∧ ¬ (∃ p, p ∈ default [] (sl_url blacklist)
                                ∧ is_Some (re_search E p (FeedEntry.long_url le.2)))) kept.
Proof.
  intros Hwf Hitems.
  destruct (well_formed_holds w entries items Hwf Hitems) as (keyed & Hfst & Hheld & _).
  exists keyed. split; [exact Hfst|]. split; [by apply read_entries_holds|].
  destruct (remove_blacklisted_run blacklist entries keyed w Hheld) as (Hrun & Hnew & Hold).
  split; [exact Hrun|]. split; [by apply read_entries_holds|].
  split; [by apply read_entries_holds|].
  apply Forall_forall. intros le Hin. apply list_elem_of_filter in Hin as [Hnone _].
  assert (¬ is_Some (is_listed E le.2 blacklist)) as Hnot by (rewrite Hnone; by intros [? ?]).
  rewrite is_listed_is_Some in Hnot. tauto.
Qed.

(** X12.  A whitelist or blacklist that gives no pattern lists nothing.
    [is_listed] answers [None] for every entry, so a whitelist that has
    a key ([explain], or an empty [title] or [url] list) but no pattern
    leaves no entry, and such a blacklist removes none. *)
Theorem searchlist_without_patterns (searchlist : searchlist) (entries : loc) (w : world)
    (items : list loc) :
  well_formed w →
  list_at w entries = Some items →
  default [] (sl_title searchlist) = [] →
  default [] (sl_url searchlist) = [] →
  (∀ self, is_listed E self searchlist = None)
  ∧ (∃ new w',
       keep_whitelisted E searchlist entries w = (Ok new, w') ∧ list_at w' new = Some [])
  ∧ (∃ new w',
       remove_blacklisted E searchlist entries w = (Ok new, w')
       ∧ list_at w' new = Some items).
Proof.
  intros Hwf Hitems Htitle Hurl.
  assert (∀ self, is_listed E self searchlist = None) as Hnone.
  { intros self. rewrite is_listed_title_then_url, Htitle, Hurl. reflexivity. }
  destruct (well_formed_holds w entries items Hwf Hitems) as (keyed & Hfst & Hheld & Hnd).
  split; [exact Hnone|]. split.
  - destruct (keep_whitelisted_run E searchlist entries keyed w Hheld Hnd)
      as (w' & new & Hrun & _ & [Hlist _] & _).
    exists new, w'. split; [exact Hrun|]. rewrite Hlist. do 2 f_equal.
    clear -Hnone. induction keyed as [|le keyed IH]; [done|]. rewrite filter_cons, Hnone. simpl.
    apply IH.
  - destruct (remove_blacklisted_run searchlist entries keyed w Hheld) as (Hrun & [Hlist _] & _).
    eexists _, _. split; [exact Hrun|]. rewrite Hlist, <- Hfst. do 2 f_equal.
    clear -Hnone. induction keyed as [|le keyed IH]; [done|].
    rewrite filter_cons, Hnone. simpl. by rewrite IH.
Qed.



Lemma for_each_enforce_https_settled (items : list loc) (w : world) :
  Forall (λ l, ∃ e, entry_at w l = Some e
                    ∧ startswith (FeedEntry.long_url e) "http://" = false) items →
  for_each items enforce_https_entry w = (Ok tt, w).
Proof.
  induction 1 as [|l items (e & Hl & Hurl) _ IH]; [done|].
  simpl. unfold bind at 1, enforce_https_entry. unfold bind at 1.
  by rewrite (get_entry_run _ _ _ Hl), Hurl.
Qed.

(** X14.  The HTTPS loop settles at once and touches [long_url] alone.
    After it, no entry of the list has a [long_url] that begins with
    ["http://"], the titles are as they were, and running the loop
    again changes nothing. *)
Theorem enforce_https_settles (entries : loc) (w : world) (items : list loc) :
  well_formed w →
  list_at w entries = Some items →
  ∃ keyed w',
    keyed.*1 = items
    ∧ read_entries entries w = (Ok keyed, w)
    ∧ enforce_https entries w = (Ok tt, w')
    ∧ read_entries entries w' = (Ok (map (λ le, (le.1, https_entry le.2)) keyed), w')
    ∧ Forall (λ le, startswith (FeedEntry.long_url (https_entry le.2)) "http://" = false
                    ∧ FeedEntry.title (https_entry le.2) = FeedEntry.title le.2) keyed
    ∧ enforce_https entries w' = (Ok tt, w').
Proof.
  intros Hwf Hitems.
  destruct (well_formed_holds w entries items Hwf Hitems) as (keyed & Hfst & Hheld & _).
  destruct (holds_after_https entries keyed w Hheld) as (w' & Hrun & _ & Hheld').
  exists keyed, w'. split; [exact Hfst|]. split; [by apply read_entries_holds|].
  split; [exact Hrun|]. split; [by apply read_entries_holds|]. split.
  - apply Forall_forall. intros le _. split; [apply https_url_spec | done].
  - destruct Hheld' as [Hlist Hall]. unfold enforce_https, bind.
    rewrite (get_list_run _ _ _ Hlist). apply for_each_enforce_https_settled.
    rewrite <- list_fmap_compose. apply Forall_fmap. apply Forall_fmap in Hall.
    eapply Forall_impl; [exact Hall|]. intros le Hle. simpl in *.
    exists (https_entry le.2). split; [exact Hle | apply https_url_spec].
Qed.

End Lists.

(** ** The format stage *)

Section Format.
Context (E : Externals).

Lemma format_entry_run (format_config : format_config) (e : FeedEntry.t) (w : world) :
  format_entry E format_config e w = (formatted E format_config e, w).
Proof.
  unfold formatted, format_entry.
  destruct (format_map E _ _); [|done]. by destruct (format_map E _ _).
Qed.

Lemma format_entries_slots (format_config : format_config) (entries : loc) (items : list loc)
    (w : world) :
  list_at w entries = Some items →
  format_entries E format_config entries w
  = for_each (zip (seq 0 (length items)) items) (format_slot E format_config entries) w.
Proof.
  intros Hlist. unfold format_entries, bind. by rewrite (get_list_run _ _ _ Hlist).
Qed.

(** Assigning to a list object and adding objects leaves the entry
    objects as they were. *)
Lemma entry_at_list_assigned (w w' : world) (entries : loc) (items : list loc)
    (more : list obj) (l : loc) (e : FeedEntry.t) :
  heap w' = <[entries := OList items]> (heap w) ++ more →
  is_Some (list_at w entries) →
  entry_at w l = Some e → entry_at w' l = Some e.
Proof.
  intros Hheap [items0 Hlist]. unfold entry_at, list_at in *. rewrite Hheap.
  destruct (heap w !! l) as [[e0|?]|] eqn:Hat; try done.
  rewrite lookup_app_l by (rewrite length_insert; by apply lookup_lt_Some in Hat).
  rewrite list_lookup_insert_ne; [by rewrite Hat|].
  intros <-. by rewrite Hat in Hlist.
Qed.

(** The loop of the format stage over the slots from [length replaced]
    on that can be formatted, the slots before them holding the new
    objects [replaced] and those after them the objects [after]. *)
Lemma format_loop (format_config : format_config) (entries : loc)
    (rest : list (loc * FeedEntry.t)) (new_entries : list FeedEntry.t)
    (replaced after : list loc) (w : world) :
  list_at w entries = Some (replaced ++ rest.*1 ++ after) →
  Forall (λ le, entry_at w le.1 = Some le.2) rest →
  Forall2 (λ le e, formatted E format_config le.2 = Ok e) rest new_entries →
  ∃ w',
    for_each (zip (seq (length replaced) (length rest)) rest.*1)
      (format_slot E format_config entries) w = (Ok tt, w')
    ∧ same_outside w w'
    ∧ heap w'
      = <[entries := OList (replaced ++ seq (length (heap w)) (length new_entries) ++ after)]>
          (heap w)
        ++ map OEntry new_entries.
Proof.
  intros Hlist Hall Hfmt. revert replaced w Hlist Hall.
  induction Hfmt as [|[l e] e' rest new_entries He' _ IH]; intros replaced w Hlist Hall.
  - exists w. simpl. split; [done|]. split; [by repeat split|].
    rewrite !app_nil_r in *. symmetry. apply list_insert_id.
    unfold list_at in Hlist. destruct (heap w !! entries) as [[?|?]|]; by simplify_eq.
  - apply Forall_cons in Hall as [Hl Hall]. simpl in Hl, He'.
    assert (entries < length (heap w))%nat as Hvalid
      by (apply list_at_valid; by rewrite Hlist).
    assert (heap w !! entries = Some (OList (replaced ++ l :: rest.*1 ++ after))) as Hentries.
    { unfold list_at in Hlist. rewrite fmap_cons in Hlist. simpl in Hlist.
      destruct (heap w !! entries) as [[?|?]|]; by simplify_eq. }
    set (new := length (heap w)).
    set (w2 := set_heap w (<[entries := OList ((replaced ++ [new]) ++ rest.*1 ++ after)]>
                             (heap w ++ [OEntry e']))).
    assert (list_at w2 entries = Some ((replaced ++ [new]) ++ rest.*1 ++ after)) as Hlist2.
    { unfold list_at. subst w2. simpl. rewrite list_lookup_insert_eq; [done|].
      rewrite length_app. lia. }
    assert (Forall (λ le, entry_at w2 le.1 = Some le.2) rest) as Hall2.
    { eapply Forall_impl; [exact Hall|]. intros [l' e''] Hl'. simpl in *.
      apply (entry_at_list_assigned w w2 entries
               ((replaced ++ [new]) ++ rest.*1 ++ after) [OEntry e']); [|by rewrite Hlist|done].
      subst w2. simpl. by rewrite insert_app_l. }
    destruct (IH (replaced ++ [new]) w2 Hlist2 Hall2) as (w' & Hrun & Hout & Hheap).
    exists w'. split; [|split].
    + rewrite fmap_cons. cbn [length seq zip zip_with for_each fst snd].
      unfold bind at 1. unfold format_slot at 1. cbn [fst snd].
      unfold bind at 1. rewrite (get_entry_run _ _ _ Hl).
      unfold bind at 1. rewrite format_entry_run, He'.
      unfold bind at 1, alloc at 1. fold new.
      unfold list_setitem, bind at 1. unfold get_list at 1. cbn [heap set_heap].
      rewrite (lookup_app_l_Some _ _ _ _ Hentries).
      rewrite bool_decide_eq_true_2 by (rewrite length_app; simpl; lia).
      cbn [heap set_heap url_cache clock requests_sent trace].
      replace (<[length replaced := new]> (replaced ++ l :: rest.*1 ++ after))
        with ((replaced ++ [new]) ++ rest.*1 ++ after).
      2:{ rewrite insert_app_r_alt by lia. rewrite Nat.sub_diag. simpl.
          by rewrite <- app_assoc. }
      rewrite length_app, Nat.add_1_r in Hrun. exact Hrun.
    + destruct Hout as (? & ? & ? & ?). by repeat split.
    + rewrite Hheap. subst w2. cbn [heap set_heap]. rewrite length_insert, length_app.
      rewrite list_insert_insert_eq. rewrite insert_app_l by done.
      rewrite <- !app_assoc. simpl. fold new. rewrite Nat.add_1_r. reflexivity.
Qed.

Lemma for_each_app {A} (xs ys : list A) (body : A → M unit) (w : world) :
  for_each (xs ++ ys) body w = (for_each xs body ;; for_each ys body) w.
Proof.
  revert w. induction xs as [|x xs IH]; intros w; simpl; [done|].
  unfold bind. destruct (body x w) as [[[]|exc] w1]; [|done]. exact (IH w1).
Qed.

Lemma zip_seq_app {A} (a : nat) (xs ys : list A) :
  zip (seq a (length (xs ++ ys))) (xs ++ ys)
  = zip (seq a (length xs)) xs ++ zip (seq (a + length xs) (length ys)) ys.
Proof.
  rewrite length_app, seq_app. apply zip_with_app. by rewrite length_seq.
Qed.

(** What the list holds after the loop got through [new_entries]. *)
Lemma format_loop_holds (entries : loc) (kept : list (loc * FeedEntry.t))
    (new_entries : list FeedEntry.t) (w w' : world) (items : list loc) :
  list_at w entries = Some items →
  Forall (λ le, entry_at w le.1 = Some le.2) kept →
  heap w' = <[entries := OList (seq (length (heap w)) (length new_entries) ++ kept.*1)]> (heap w)
            ++ map OEntry new_entries →
  holds w' entries (zip (seq (length (heap w)) (length new_entries)) new_entries ++ kept).
Proof.
  intros Hlist Hkept Hheap.
  assert (entries < length (heap w))%nat as Hvalid by (apply list_at_valid; by rewrite Hlist).
  split.
  - rewrite fmap_app, fst_zip_seq. unfold list_at. rewrite Hheap.
    rewrite lookup_app_l by (by rewrite length_insert).
    by rewrite list_lookup_insert_eq.
  - apply Forall_app. split.
    + pose proof (entry_at_new_objects
                    (<[entries := OList (seq (length (heap w)) (length new_entries) ++ kept.*1)]>
                       (heap w))
                    [] new_entries w') as Hnew.
      rewrite length_insert, app_nil_r in Hnew. by apply Hnew.
    + eapply Forall_impl; [exact Hkept|]. intros le Hle.
      eapply entry_at_list_assigned; [exact Hheap | by rewrite Hlist | exact Hle].
Qed.


(** X16.  The format stage does not undo what it did when it fails.  When
    [format_map] renders the templates for the entries before one and
    raises on that one, the stage raises that exception, and the list
    is left with new, formatted entry objects in the slots before
    that entry and the entry objects it held from there on. *)
Theorem format_entries_raises_midway (format_config : format_config) (entries : loc)
    (w : world) (before after : list (loc * FeedEntry.t)) (failing : loc * FeedEntry.t)
    (new_entries : list FeedEntry.t) (exc : exn) :
  read_entries entries w = (Ok (before ++ failing :: after), w) →
  Forall2 (λ le e, formatted E format_config le.2 = Ok e) before new_entries →
  formatted E format_config failing.2 = Raise exc →
  ∃ w',
    format_entries E format_config entries w = (Raise exc, w')
    ∧ read_entries entries w'
      = (Ok (zip (seq (length (heap w)) (length new_entries)) new_entries
             ++ failing :: after), w')
    ∧ same_outside w w'.
Proof.
  intros Hread Hfmt Hfail. apply read_entries_holds in Hread as [Hlist Hall].
  apply Forall_app in Hall as [Hbefore Hrest].
  destruct (format_loop format_config entries before new_entries [] (failing :: after).*1 w)
    as (w' & Hrun & Hout & Hheap); [by rewrite <- fmap_app | done | done |].
  simpl in Hheap.
  assert (holds w' entries (zip (seq (length (heap w)) (length new_entries)) new_entries
                            ++ failing :: after)) as Hheld.
  { by apply (format_loop_holds entries (failing :: after) new_entries w w' _ Hlist). }
  exists w'. split; [|split; [by apply read_entries_holds | exact Hout]].
  rewrite (format_entries_slots _ _ _ _ Hlist).
  rewrite fmap_app, zip_seq_app, for_each_app. unfold bind at 1.
  rewrite length_fmap. change (length (@nil loc)) with 0%nat in Hrun. rewrite Hrun.
  rewrite fmap_cons. cbn [length seq zip zip_with for_each].
  unfold bind at 1, format_slot at 1. cbn [fst snd]. unfold bind at 1.
  destruct Hheld as [_ Hall']. apply Forall_app in Hall' as [_ Hall'].
  apply Forall_cons in Hall' as [Hfailing _].
  rewrite (get_entry_run _ _ _ Hfailing). unfold bind at 1.
  by rewrite format_entry_run, Hfail.
Qed.

End Format.

(** ** The parameters of the format stage *)

Lemma dict_getitem_setitem {V} (d : list (string * V)) (key key' : string) (value : V) :
  dict_getitem (dict_setitem d key value) key'
  = if String.eqb key key' then Some value else dict_getitem d key'.
Proof.
  induction d as [|[k v] d IH]; simpl; [done|].
  destruct (String.eqb_spec k key) as [->|Hk]; simpl.
  - by destruct (String.eqb_spec key key').
  - rewrite IH. destruct (String.eqb_spec k key') as [->|Hk']; [|done].
    destruct (String.eqb_spec key key'); [congruence | done].
Qed.

Lemma dict_update_snoc {V} (d other : list (string * V)) (kv : string * V) :
  dict_update d (other ++ [kv]) = dict_setitem (dict_update d other) kv.1 kv.2.
Proof. unfold dict_update. by rewrite fold_left_app. Qed.

Lemma dict_getitem_update_other {V} (d other : list (string * V)) (key : string) :
  key ∉ other.*1 → dict_getitem (dict_update d other) key = dict_getitem d key.
Proof.
  induction other as [|[k v] other IH] using rev_ind; [done|].
  rewrite fmap_app, not_elem_of_app, dict_update_snoc, dict_getitem_setitem. simpl.
  intros [Hother Hk]. apply not_elem_of_cons in Hk as [Hk _].
  destruct (String.eqb_spec k key); [congruence | by apply IH].
Qed.

Lemma dict_getitem_update {V} (d other : list (string * V)) (key : string) (value : V) :
  NoDup other.*1 → (key, value) ∈ other →
  dict_getitem (dict_update d other) key = Some value.
Proof.
  induction other as [|[k v] other IH] using rev_ind; [by intros _ ?%not_elem_of_nil|].
  rewrite fmap_app, dict_update_snoc, dict_getitem_setitem. simpl.
  intros Hnd Hin. apply NoDup_app in Hnd as (Hnd & Hfresh & _).
  apply elem_of_app in Hin as [Hin|Hin].
  - destruct (String.eqb_spec k key) as [->|_]; [|by apply IH].
    destruct (Hfresh key); [|left]. apply list_elem_of_fmap. by exists (key, value).
  - apply list_elem_of_singleton in Hin. injection Hin as -> ->.
    by rewrite String.eqb_refl.
Qed.

Section Params.
Context (E : Externals).

(** X17.  In the format stage the templates always find [title] and
    [url], and named groups are laid over them in the order of the
    loop.  A group of the match of the [url] pattern has its value in
    [params], whatever the [title] pattern bound, also when the group is
    itself named [title] or [url]; a group of the match of the [title]
    pattern has its value unless the [url] pattern matched with a group
    of that name; and with no pattern, or none that matches, [params]
    holds the entry's own [title] and [long_url] and nothing else. *)
Theorem format_params_groups (format_config : format_config) (e : FeedEntry.t) :
  let params := format_params E format_config e in
  let found (format_re_key : option string) (val : string) : list (string * option string) :=
    match format_re_key with
    | Some format_re_key =>
        match re_search E format_re_key val with
        | Some match_ => groupdict match_
        | None => []
        end
    | None => []
    end in
  let title_groups := found (fmt_re_title format_config) (FeedEntry.title e) in
  let url_groups := found (fmt_re_url format_config) (FeedEntry.long_url e) in
  is_Some (dict_getitem params "title")
  ∧ is_Some (dict_getitem params "url")
  ∧ (∀ group value,
       NoDup url_groups.*1 → (group, value) ∈ url_groups →
       dict_getitem params group = Some value)
  ∧ (∀ group value,
       NoDup title_groups.*1 → (group, value) ∈ title_groups → group ∉ url_groups.*1 →
       dict_getitem params group = Some value)
  ∧ (title_groups = [] → url_groups = [] →
       params = [("title", Some (FeedEntry.title e)); ("url", Some (FeedEntry.long_url e))]).
Proof.
  intros params found title_groups url_groups.
  set (own := [("title", Some (FeedEntry.title e)); ("url", Some (FeedEntry.long_url e))]).
  assert (params = dict_update (dict_update own title_groups) url_groups) as ->.
  { subst params title_groups url_groups found. unfold format_params. simpl.
    unfold format_re_get. simpl.
    destruct (fmt_re_title format_config) as [r|];
      [destruct (re_search E r (FeedEntry.title e))|];
      (destruct (fmt_re_url format_config) as [r'|];
         [destruct (re_search E r' (FeedEntry.long_url e))|]); reflexivity. }
  assert (∀ key (d other : list (string * option string)),
            is_Some (dict_getitem d key) → is_Some (dict_getitem (dict_update d other) key))
    as Hstays.
  { intros key d other Hd. induction other as [|[k v] other IH] using rev_ind; [done|].
    rewrite dict_update_snoc, dict_getitem_setitem. simpl.
    by destruct (String.eqb k key). }
  split; [by apply Hstays, Hstays|]. split; [by apply Hstays, Hstays|].
  split; [|split].
  - intros group value Hnd Hin. by apply dict_getitem_update.
  - intros group value Hnd Hin Hfree.
    rewrite dict_getitem_update_other by done. by apply dict_getitem_update.
  - by intros -> ->.
Qed.

End Params.

#[local] Instance asked_preorder : PreOrder asked.
Proof.
  split.
  - intros w. repeat split. exists []. by rewrite app_nil_r.
  - intros w1 w2 w3 (? & ? & ? & ? & evs1 & Ht1 & Hc1) (? & ? & ? & ? & evs2 & Ht2 & Hc2).
    repeat split; try congruence. exists (evs1 ++ evs2).
    by rewrite Ht2, Ht1, app_assoc, forallb_app, Hc1, Hc2.
Qed.


(** ** More on the postable entries *)

Section DeliveryMore.
Context (E : Externals) (K : Settings).

Lemma list_slice_to_sublist {A} (xs : list A) (stop : Z) :
  list_slice_to xs stop `sublist_of` xs.
Proof. unfold list_slice_to. destruct (stop <? 0)%Z; apply sublist_take. Qed.

Lemma shorten_comprehension_short (entries : list FeedEntry.t) (short_urls : list string)
    (a : nat) (w : world) :
  (a ≤ length short_urls < a + length entries)%nat →
  comprehension (zip (seq a (length entries)) entries)
    (λ ie, match short_urls !! ie.1 with
           | Some short_url =>
               ret (Shortened (ShortenedFeedEntry.mk (FeedEntry.title ie.2)
                                                    (FeedEntry.long_url ie.2) short_url))
           | None => raise IndexError
           end) w
  = (Raise IndexError, w).
Proof.
  revert a. induction entries as [|e entries IH]; intros a Hlen; simpl in *; [lia|].
  unfold bind at 1. destruct (short_urls !! a) as [s|] eqn:Hs; [|done].
  apply lookup_lt_Some in Hs. unfold ret at 1. unfold bind at 1.
  by rewrite IH by lia.
Qed.

(** X18.  [postable_entries] trusts the shortener to answer with a URL
    for each one it was given.  When the answer is shorter than the list
    of entries sent, indexing it raises [IndexError], after the call was
    made, and no entry is returned. *)
Theorem postable_entries_short_answer (self : Feed.t) (w w2 : world)
    (entries : list FeedEntry.t) :
  (let! unposted := unposted_entries E self in filter_new_feed E K self unposted) w
  = (Ok entries, w2) →
  entries ≠ [] →
  flag (cfg_shorten (Feed._feed_config self)) true = true →
  (length (shorten_urls E (map FeedEntry.long_url entries)) < length entries)%nat →
  postable_entries E K self w
  = (Raise IndexError, emit w2 (EvShortenUrls (map FeedEntry.long_url entries))).
Proof.
  intros Hpre Hne Hflag Hshort.
  unfold postable_entries. unfold bind at 1 in Hpre. unfold bind at 1.
  destruct (unposted_entries E self w) as [[unposted|exc] w1]; [|done].
  unfold bind at 1. rewrite Hpre. unfold shorten.
  rewrite bool_decide_eq_false_2 by done. rewrite Hflag. simpl.
  unfold bind at 1, url_shortener_shorten_urls, enumerate.
  apply shorten_comprehension_short. lia.
Qed.

(** X19.  The [new] key is read for a new feed only.  When its value
    (or [NEW_FEED_POSTS_DEFAULT] when the key is absent) is not a key of
    [NEW_FEED_POSTS_MAX], [postable_entries] of a new feed raises
    [KeyError] before the shortener is called, and [postable_entries]
    of a feed that is not new goes on to the shortening stage with all
    the unposted entries. *)
Theorem postable_entries_unknown_new_symbol (self : Feed.t) (w w1 : world)
    (unposted : list FeedEntry.t) :
  unposted_entries E self w = (Ok unposted, w1) →
  let symbol := default (NEW_FEED_POSTS_DEFAULT K) (cfg_new (Feed._feed_config self)) in
  let w2 := emit w1 (EvIsNewFeed (Feed.channel self) (Feed.name self)) in
  NEW_FEED_POSTS_MAX K !! symbol = None →
  (is_new_feed E (Feed.channel self) (Feed.name self) = true →
     postable_entries E K self w = (Raise (KeyError symbol), w2))
  ∧ (is_new_feed E (Feed.channel self) (Feed.name self) = false →
       postable_entries E K self w = shorten E self unposted w2).
Proof.
  intros Hun symbol w2 Hmissing.
  assert (postable_entries E K self w
          = (let! entries := filter_new_feed E K self unposted in
             shorten E self entries) w1) as ->.
  { unfold postable_entries. unfold bind at 1. by rewrite Hun. }
  unfold bind. rewrite filter_new_feed_run. fold symbol w2. rewrite Hmissing.
  split; by intros ->.
Qed.

Lemma keeps_postable_entries (self : Feed.t) : keeps asked (postable_entries E K self).
Proof.
  assert (∀ ev, is_delivery_call ev = true → ∀ w, asked w (emit w ev)) as Hcall.
  { intros ev Hev w. repeat split. exists [ev]. simpl. by rewrite Hev. }
  unfold postable_entries, unposted_entries, filter_new_feed, shorten.
  repeat first
    [ keeps_step
    | intros w; by apply Hcall ].
Qed.

(** The fields of what [postable_entries] returns are those of entries
    of the feed, in order. *)
Lemma postable_entries_sublist (self : Feed.t) (w : world)
    (keyed : list (loc * FeedEntry.t)) (r : list entry) :
  read_entries (Feed.entries self) w = (Ok keyed, w) →
  (postable_entries E K self w).1 = Ok r →
  map as_feed_entry r `sublist_of` keyed.*2
  ∧ (NoDup (map FeedEntry.long_url keyed.*2) → NoDup (map entry_long_url r)).
Proof.
  intros Hread Hr.
  assert (map as_feed_entry r `sublist_of` keyed.*2) as Hsub.
  { unfold postable_entries in Hr. unfold bind at 1 in Hr.
    destruct (unposted_entries E self w) as [[unposted|exc] w1] eqn:Hun; [|done].
    assert (unposted `sublist_of` keyed.*2) as Hsub1.
    { unfold unposted_entries in Hun. unfold bind at 1 in Hun. rewrite Hread in Hun.
      unfold bind in Hun.
      destruct (if String.eqb _ "channel" then _ else _) as [[answer|exc] w'];
        [|done].
      injection Hun as <- _. apply sublist_filter. }
    unfold bind at 1 in Hr. rewrite filter_new_feed_run in Hr.
    destruct (is_new_feed E _ _).
    - destruct (NEW_FEED_POSTS_MAX K !! _) as [max_posts|]; [|done].
      destruct (shorten E self _ _) as [r' w'] eqn:Hshorten. simpl in Hr. subst r'.
      apply shorten_fields in Hshorten. rewrite Hshorten.
      etransitivity; [apply list_slice_to_sublist | exact Hsub1].
    - destruct (shorten E self _ _) as [r' w'] eqn:Hshorten. simpl in Hr. subst r'.
      apply shorten_fields in Hshorten. by rewrite Hshorten. }
  split; [exact Hsub|]. intros Hnd.
  assert (map entry_long_url r = map FeedEntry.long_url (map as_feed_entry r)) as ->.
  { rewrite map_map. apply map_ext. by intros []. }
  eapply sublist_NoDup; [exact Hnd|]. by apply fmap_sublist.
Qed.

(** X20.  What [postable_entries] returns comes from the feed's list and
    from nowhere else.  The entries it returns have, in order, the title
    and [long_url] of entries of [self.entries], each taken once.
    Computing them asks the delivery history and the shortener and does
    nothing else: no request is sent, no time is slept, and the object
    store and the cache are as they were. *)
Theorem postable_entries_come_from_the_feed (self : Feed.t) (w : world)
    (keyed : list (loc * FeedEntry.t)) :
  read_entries (Feed.entries self) w = (Ok keyed, w) →
  let postable := postable_entries E K self w in
  (∀ r, postable.1 = Ok r → map as_feed_entry r `sublist_of` keyed.*2)
  ∧ heap postable.2 = heap w
  ∧ url_cache postable.2 = url_cache w
  ∧ clock postable.2 = clock w
  ∧ requests_sent postable.2 = requests_sent w
  ∧ (∃ evs, trace postable.2 = trace w ++ evs ∧ forallb is_delivery_call evs = true).
Proof.
  intros Hread postable. split.
  - intros r Hr. by apply (postable_entries_sublist self w keyed r).
  - apply keeps_postable_entries.
Qed.

(** X21.  A feed does not offer a [long_url] twice.  Whatever the stages
    made of the entries, the list [_entries] returns is, in the world it
    leaves, a list of distinct entry objects whose [long_url]s are
    distinct; and the postable entries of the feed built on it, computed
    in that world, have distinct [long_url]s too. *)
Theorem entries_have_distinct_long_urls (feed_config : feed_config) (url : string)
    (w w' : world) (entries : loc) :
  well_formed w →
  _entries E K feed_config url w = (Ok entries, w') →
  (∃ keyed,
     read_entries entries w' = (Ok keyed, w')
     ∧ NoDup keyed.*1
     ∧ NoDup (map FeedEntry.long_url keyed.*2))
  ∧ (∀ channel name postable w2,
       postable_entries E K (Feed.mk channel name url feed_config entries) w'
       = (Ok postable, w2) →
       NoDup (map entry_long_url postable)).
Proof.
  intros Hwf Hrun.
  assert (∃ keyed,
            read_entries entries w' = (Ok keyed, w')
            ∧ NoDup keyed.*1
            ∧ NoDup (map FeedEntry.long_url keyed.*2)) as (keyed & Hread & Hlocs & Hurls).
  { rewrite _entries_dedupe_last in Hrun. unfold bind in Hrun.
    destruct (triple_entries_until_format E K feed_config url w Hwf I) as (Hwf1 & _ & Hlist).
    destruct (entries_until_format E K feed_config url w) as [[entries0|exc] w1]; [|done].
    simpl in Hwf1, Hlist. destruct (Hlist entries0 eq_refl) as [items Hitems].
    destruct (well_formed_holds w1 entries0 items Hwf1 Hitems) as (keyed0 & _ & Hheld & Hnd).
    destruct (_dedupe_entries_obj_values entries0 keyed0 w1 Hheld)
      as (w2 & new & keyed & Hrun' & _ & Hheld' & Hsub & Hvals).
    rewrite Hrun' in Hrun. injection Hrun as <- <-.
    exists keyed. split; [by apply read_entries_holds|]. split.
    - apply (sublist_NoDup keyed.*1 keyed0.*1); [done | by apply fmap_sublist].
    - rewrite Hvals, _dedupe_entries_fromkeys. apply first_seen_NoDup. }
  split; [by exists keyed|].
  intros channel name postable w2 Hpost.
  apply (postable_entries_sublist (Feed.mk channel name url feed_config entries)
           w' keyed postable Hread); [by rewrite Hpost | exact Hurls].
Qed.

End DeliveryMore.

(** ** Slices of a title *)

Lemma substring_prefix_suffix (s : string) (m : nat) :
  (m ≤ String.length s)%nat →
  String.substring 0 m s +:+ String.substring m (String.length s - m) s = s.
Proof.
  revert m. induction s as [|c s IH]; intros m Hm; simpl in *.
  - by replace m with 0%nat by lia.
  - destruct m as [|m]; simpl.
    + by rewrite substring_all.
    + change (String c (String.substring 0 m s
                        +:+ String.substring m (String.length s - m) s) = String c s).
      f_equal. apply IH. lia.
Qed.

Lemma substring_middle_suffix (s : string) (a b : nat) :
  (a ≤ b ≤ String.length s)%nat →
  String.substring a (b - a) s +:+ String.substring b (String.length s - b) s
  = String.substring a (String.length s - a) s.
Proof.
  revert a b. induction s as [|c s IH]; intros a b Hab.
  - simpl in Hab. replace a with 0%nat by lia. by replace b with 0%nat by lia.
  - destruct a as [|a].
    + rewrite !Nat.sub_0_r, substring_all. apply substring_prefix_suffix. lia.
    + destruct b as [|b]; [lia|]. simpl in *. apply IH. lia.
Qed.

Lemma length_substring (s : string) (n m : nat) :
  (n + m ≤ String.length s)%nat → String.length (String.substring n m s) = m.
Proof.
  revert n m. induction s as [|c s IH]; intros n m Hnm; simpl in *.
  - replace n with 0%nat by lia. by replace m with 0%nat by lia.
  - destruct n as [|n]; [destruct m as [|m]|]; simpl; [done | |].
    + f_equal. apply (IH 0%nat). lia.
    + apply IH. lia.
Qed.

Lemma length_append (s t : string) :
  String.length (s +:+ t) = (String.length s + String.length t)%nat.
Proof.
  induction s as [|c s IH]; [done|].
  change (S (String.length (s +:+ t)) = S (String.length s + String.length t)).
  by rewrite IH.
Qed.

(** X22.  Under [explain] the whitelist stage adds two asterisks to the
    title and nothing else.  For a match whose span lies in the title,
    the title is the text before the span, the text found and the text
    after it, and the annotated title is the same three with ['*']
    before and after the text found: it is two characters longer, its
    asterisks stand at [span0] and at [span1 + 1], and taking them out
    gives the title back. *)
Theorem explain_title_marks_the_span (title : string) (match_ : Match) (span0 span1 : nat) :
  span match_ = (span0, span1) →
  (span0 ≤ span1 ≤ String.length title)%nat →
  ∃ before found after,
    title = before +:+ found +:+ after
    ∧ String.length before = span0
    ∧ String.length found = (span1 - span0)%nat
    ∧ explain_title title match_ = before +:+ "*" +:+ found +:+ "*" +:+ after
    ∧ String.length (explain_title title match_) = (String.length title + 2)%nat.
Proof.
  intros Hspan Hin.
  exists (str_slice title 0 span0), (str_slice title span0 span1), (str_from title span1).
  assert (title = str_slice title 0 span0 +:+ str_slice title span0 span1
                  +:+ str_from title span1) as Htitle.
  { unfold str_slice, str_from. rewrite substring_middle_suffix by lia.
    rewrite Nat.sub_0_r. symmetry. apply substring_prefix_suffix. lia. }
  assert (explain_title title match_
          = str_slice title 0 span0 +:+ "*" +:+ str_slice title span0 span1 +:+ "*"
            +:+ str_from title span1) as Hexplain
    by (unfold explain_title; by rewrite Hspan).
  split; [exact Htitle|]. split; [|split; [|split; [exact Hexplain|]]].
  - unfold str_slice. rewrite Nat.sub_0_r. apply length_substring. lia.
  - unfold str_slice. apply length_substring. lia.
  - rewrite Hexplain. rewrite Htitle at 4. rewrite !length_append. simpl. lia.
Qed.

(** ** Building a feed *)

Section Build.
Context (E : Externals) (K : Settings).



End Build.

(** ** [_entries] on the fields of the entries *)

Section ByValue.
Context (E : Externals) (K : Settings).

Lemma filter_snd {A B} (P : B → Prop) (dec1 : ∀ x : A * B, Decision (P x.2))
    (dec2 : ∀ b, Decision (P b)) (xs : list (A * B)) :
  (@filter _ _ _ (λ x, P x.2) dec1 xs).*2 = @filter _ _ _ P dec2 xs.*2.
Proof.
  induction xs as [|[a b] xs IH]; [done|].
  rewrite fmap_cons, !filter_cons. simpl.
  destruct (dec1 (a, b)) as [Hp|Hp], (dec2 b) as [Hq|Hq]; csimpl; try done.
  by rewrite IH.
Qed.

Lemma fst_map_snd {A B C} (g : B → C) (xs : list (A * B)) :
  (map (λ x, (x.1, g x.2)) xs).*1 = xs.*1.
Proof. induction xs as [|[a b] xs IH]; csimpl; [done | by rewrite IH]. Qed.

Lemma snd_map_snd {A B C} (g : B → C) (xs : list (A * B)) :
  (map (λ x, (x.1, g x.2)) xs).*2 = map g xs.*2.
Proof. induction xs as [|[a b] xs IH]; csimpl; [done | by rewrite IH]. Qed.

Lemma works_as_ret (f : list FeedEntry.t → list FeedEntry.t) :
  (∀ es, f es = es) → works_as ret f.
Proof.
  intros Hf w entries keyed Hheld Hnd. exists w, entries, keyed. by rewrite Hf.
Qed.

Lemma works_as_whitelist (feed_config : feed_config) :
  works_as
    (λ entries,
       match cfg_whitelist feed_config with
       | Some whitelist =>
           if searchlist_truthy whitelist then keep_whitelisted E whitelist entries
           else ret entries
       | None => ret entries
       end)
    (whitelisted E feed_config).
Proof.
  unfold whitelisted. destruct (cfg_whitelist feed_config) as [whitelist|];
    [|by apply works_as_ret].
  destruct (searchlist_truthy whitelist); [|by apply works_as_ret].
  intros w entries keyed Hheld Hnd.
  destruct (keep_whitelisted_run E whitelist entries keyed w Hheld Hnd)
    as (w' & new & Hrun & _ & Hheld' & _).
  eexists w', new, _. split; [exact Hrun|]. split; [exact Hheld'|]. split.
  - rewrite fst_map_snd.
    apply (sublist_NoDup _ keyed.*1); [done|]. apply fmap_sublist, sublist_filter.
  - rewrite snd_map_snd. f_equal.
    rewrite <- (filter_snd (λ e, is_Some (is_listed E e whitelist)) _ _). f_equal.
    apply list_filter_iff. intros le. simpl. destruct (is_listed E le.2 whitelist); simpl.
    + split; [by eauto | done].
    + split; [done | by intros [? ?]].
Qed.

Lemma works_as_blacklist (feed_config : feed_config) :
  works_as
    (λ entries,
       match cfg_blacklist feed_config with
       | Some blacklist =>
           if searchlist_truthy blacklist then remove_blacklisted E blacklist entries
           else ret entries
       | None => ret entries
       end)
    (not_blacklisted E feed_config).
Proof.
  unfold not_blacklisted. destruct (cfg_blacklist feed_config) as [blacklist|];
    [|by apply works_as_ret].
  destruct (searchlist_truthy blacklist); [|by apply works_as_ret].
  intros w entries keyed Hheld Hnd.
  destruct (remove_blacklisted_run E blacklist entries keyed w Hheld) as (Hrun & Hheld' & _).
  eexists _, _, _. split; [exact Hrun|]. split; [exact Hheld'|]. split.
  - apply (sublist_NoDup _ keyed.*1); [done|]. apply fmap_sublist, sublist_filter.
  - apply (filter_snd (λ e, is_listed E e blacklist = None) _ _).
Qed.

Lemma https_stage_run (feed_config : feed_config) (w : world) (entries : loc)
    (keyed : list (loc * FeedEntry.t)) :
  holds w entries keyed →
  ∃ w' keyed',
    (if flag (cfg_https feed_config) false then enforce_https entries else ret tt) w
    = (Ok tt, w')
    ∧ holds w' entries keyed'
    ∧ keyed'.*1 = keyed.*1
    ∧ keyed'.*2 = https_enforced feed_config keyed.*2.
Proof.
  intros Hheld. unfold https_enforced. destruct (flag (cfg_https feed_config) false).
  - destruct (holds_after_https entries keyed w Hheld) as (w' & Hrun & _ & Hheld').
    eexists w', _. split; [exact Hrun|]. split; [exact Hheld'|].
    by rewrite fst_map_snd, snd_map_snd.
  - by exists w, keyed.
Qed.

Lemma works_as_substitute (feed_config : feed_config) :
  works_as
    (λ entries,
       match cfg_sub feed_config with
       | Some sub => if sub_truthy sub then substitute E sub entries else ret entries
       | None => ret entries
       end)
    (substituted_all E feed_config).
Proof.
  unfold substituted_all. destruct (cfg_sub feed_config) as [sub|]; [|by apply works_as_ret].
  destruct (sub_truthy sub); [|by apply works_as_ret].
  intros w entries keyed Hheld Hnd.
  destruct (substitute_run E sub entries keyed w Hheld) as (w' & new & Hrun & _ & Hheld').
  eexists w', new, _. split; [exact Hrun|]. split; [exact Hheld'|].
  assert (length keyed = length (map (substituted E sub) keyed.*2)) as ->
    by (by rewrite length_map, length_fmap).
  rewrite fst_zip_seq, snd_zip_seq. split; [apply NoDup_seq | done].
Qed.

Lemma works_as_dedupe : works_as _dedupe_entries_obj _dedupe_entries.
Proof.
  intros w entries keyed Hheld Hnd.
  destruct (_dedupe_entries_obj_values entries keyed w Hheld)
    as (w' & new & keyed' & Hrun & _ & Hheld' & Hsub & Hvals).
  exists w', new, keyed'. split; [exact Hrun|]. split; [exact Hheld'|]. split; [|exact Hvals].
  apply (sublist_NoDup _ keyed.*1); [done | by apply fmap_sublist].
Qed.



(** [_entries] up to the format stage, from the list [_url_entries]
    returned. *)
Lemma entries_through_sub (feed_config : feed_config) (url : string) (w w1 : world)
    (entries0 : loc) (keyed0 : list (loc * FeedEntry.t)) :
  _url_entries E K url w = (Ok entries0, w1) →
  holds w1 entries0 keyed0 →
  NoDup keyed0.*1 →
  ∃ w4 entries keyed,
    _entries E K feed_config url w = entries_from_format E feed_config entries w4
    ∧ holds w4 entries keyed
    ∧ NoDup keyed.*1
    ∧ keyed.*2 = entries_by_value E feed_config keyed0.*2.
Proof.
  intros Hurl Hheld0 Hnd0.
  destruct (works_as_whitelist feed_config w1 entries0 keyed0 Hheld0 Hnd0)
    as (w2 & l2 & keyed2 & Hrun2 & Hheld2 & Hnd2 & Hv2).
  destruct (works_as_blacklist feed_config w2 l2 keyed2 Hheld2 Hnd2)
    as (w3 & l3 & keyed3 & Hrun3 & Hheld3 & Hnd3 & Hv3).
  destruct (https_stage_run feed_config w3 l3 keyed3 Hheld3)
    as (w3' & keyed3' & Hrun3' & Hheld3' & Hfst3' & Hv3').
  destruct (works_as_substitute feed_config w3' l3 keyed3' Hheld3')
    as (w4 & l4 & keyed4 & Hrun4 & Hheld4 & Hnd4 & Hv4); [by rewrite Hfst3'|].
  exists w4, l4, keyed4. split; [|split; [exact Hheld4|split; [exact Hnd4|]]].
  - unfold _entries, entries_from_format.
    unfold bind at 1. rewrite Hurl.
    unfold bind at 1. rewrite Hrun2.
    unfold bind at 1. rewrite Hrun3.
    unfold bind at 1. rewrite Hrun3'.
    unfold bind at 1. by rewrite Hrun4.
  - unfold entries_by_value. by rewrite Hv4, Hv3', Hv3, Hv2.
Qed.



Lemma holds_grown (w w' : world) (entries : loc) (keyed : list (loc * FeedEntry.t)) :
  grown w w' → holds w entries keyed → holds w' entries keyed.
Proof.
  intros [more Hmore] [Hlist Hall].
  assert (∀ l o, heap w !! l = Some o → heap w' !! l = Some o) as Hkept.
  { intros l o Hl. rewrite Hmore. by apply lookup_app_l_Some. }
  split.
  - unfold list_at in *. destruct (heap w !! entries) as [o|] eqn:Hl; [|done].
    by rewrite (Hkept _ _ Hl).
  - eapply Forall_impl; [exact Hall|]. intros le Hle. unfold entry_at in *.
    destruct (heap w !! le.1) as [o|] eqn:Hl; [|done]. by rewrite (Hkept _ _ Hl).
Qed.

(** X26.  Without a stage that assigns in place, a feed can be built
    again.  When [_entries] has returned for a configuration with no
    whitelist [explain], no [https] and no [format], calling it again
    in the world it left finds the list of the URL in the cache, sends no
    request and returns a list holding entries with the same titles and
    [long_url]s, in the same order.  ([URL_CACHE_TTL] is taken to be
    positive.) *)
Theorem entries_repeat_without_assignment (feed_config : feed_config) (url : string)
    (w w1 : world) (entries1 : loc) :
  well_formed w →
  (0 < URL_CACHE_TTL K)%Z →
  assigns_in_place feed_config = false →
  _entries E K feed_config url w = (Ok entries1, w1) →
  ∃ entries2 w2 keyed1 keyed2,
    _entries E K feed_config url w1 = (Ok entries2, w2)
    ∧ read_entries entries1 w1 = (Ok keyed1, w1)
    ∧ read_entries entries2 w2 = (Ok keyed2, w2)
    ∧ keyed2.*2 = keyed1.*2
    ∧ same_outside w1 w2.
Proof.
  intros Hwf Httl Hquiet Hrun.
  assert (cfg_format feed_config = None) as Hfmt.
  { unfold assigns_in_place in Hquiet. apply orb_false_elim in Hquiet as [_ Hfmt].
    by destruct (cfg_format feed_config). }
  rewrite _entries_from_whitelist in Hrun. unfold bind in Hrun.
  destruct (_url_entries E K url w) as [[entries0|exc] w0] eqn:Hurl; [|done].
  destruct (triple_url_entries E K url w Hwf I) as (Hwf0 & _ & Hlist0).
  rewrite Hurl in Hwf0, Hlist0. simpl in Hwf0, Hlist0.
  destruct (Hlist0 entries0 eq_refl) as [items0 Hitems0].
  destruct (well_formed_holds w0 entries0 items0 Hwf0 Hitems0) as (keyed0 & _ & Hheld0 & Hnd0).
  destruct (_url_entries_stored E K url w w0 entries0 Httl Hurl) as (expires & Hc0 & Hlt0).
  pose proof (keeps_entries_from_whitelist E feed_config entries0 w0) as Hout.
  pose proof (keeps_entries_from_whitelist_grown E feed_config entries0 Hquiet w0) as Hgrown.
  rewrite Hrun in Hout, Hgrown. simpl in Hout, Hgrown.
  destruct Hout as (Hc1 & Hclock1 & _).
  assert (_url_entries E K url w1 = (Ok entries0, w1)) as Hurl1.
  { apply _url_entries_hit with expires; [by rewrite Hc1 | by rewrite Hclock1]. }
  pose proof (holds_grown w0 w1 entries0 keyed0 Hgrown Hheld0) as Hheld1.
  assert (∀ wa wb, _url_entries E K url wa = (Ok entries0, wb) → holds wb entries0 keyed0 →
            ∃ entries w' keyed,
              _entries E K feed_config url wa = (Ok entries, w')
              ∧ holds w' entries keyed
              ∧ keyed.*2 = _dedupe_entries (entries_by_value E feed_config keyed0.*2)
              ∧ same_outside wb w') as Hvalue.
  { intros wa wb Ha Hb.
    destruct (entries_through_sub feed_config url wa wb entries0 keyed0 Ha Hb Hnd0)
      as (w4 & l4 & keyed4 & Hrun4 & Hheld4 & Hnd4 & Hv4).
    destruct (works_as_dedupe w4 l4 keyed4 Hheld4 Hnd4)
      as (w5 & l5 & keyed5 & Hrun5 & Hheld5 & _ & Hv5).
    exists l5, w5, keyed5.
    assert (_entries E K feed_config url wa = (Ok l5, w5)) as Hall.
    { rewrite Hrun4. unfold entries_from_format. rewrite Hfmt. exact Hrun5. }
    split; [exact Hall|]. split; [exact Hheld5|]. split; [by rewrite Hv5, Hv4|].
    rewrite _entries_from_whitelist in Hall. unfold bind in Hall. rewrite Ha in Hall.
    pose proof (keeps_entries_from_whitelist E feed_config entries0 wb) as Hsame.
    by rewrite Hall in Hsame. }
  destruct (Hvalue w w0 Hurl Hheld0) as (l1 & w1' & keyed1 & Hrun1 & Hheld1' & Hv1 & _).
  rewrite _entries_from_whitelist in Hrun1. unfold bind in Hrun1. rewrite Hurl, Hrun in Hrun1.
  injection Hrun1 as <- <-.
  destruct (Hvalue w1 w1 Hurl1 Hheld1) as (l2 & w2 & keyed2 & Hrun2 & Hheld2 & Hv2 & Hout2).
  exists l2, w2, keyed1, keyed2. split; [exact Hrun2|].
  split; [by apply read_entries_holds|]. split; [by apply read_entries_holds|].
  split; [by rewrite Hv2, Hv1 | exact Hout2].
Qed.

End ByValue.

(** ** The properties on concrete feeds *)

(** [read_url_backoff_total] where the transport times out twice: three
    requests, and sleeps of 2 and 4 seconds. *)
Lemma read_url_backoff_total_witness :
  clock (read_url Demo.five_entries Demo.settings "u" (py_range 1 (3 + 1)) Demo.start).2 = 6%Z
  ∧ requests_sent (read_url Demo.five_entries Demo.settings "u" (py_range 1 (3 + 1)) Demo.start).2
    = 3%nat.
Proof.
  destruct (read_url_backoff_total Demo.five_entries Demo.settings "u" Demo.start 3) as [Hok _].
  - lia.
  - vm_compute. discriminate.
  - intros j Hj. unfold request_failed.
    destruct j as [|[|j]]; [by eexists | by eexists | simpl in Hj; lia].
  - exact (Hok _ eq_refl).
Defined.

(** [read_url_other_exception_not_retried] where the second attempt of
    three fails with a [ValueError]: two requests, one sleep. *)
Lemma read_url_other_exception_not_retried_witness :
  (read_url Cases.broken Demo.settings "u" (py_range 1 (3 + 1)) Demo.start).1
  = Raise (ValueError "check_hostname requires server_hostname")
  ∧ trace (read_url Cases.broken Demo.settings "u" (py_range 1 (3 + 1)) Demo.start).2
    = [get_event "u"; EvSleep 2; get_event "u"].
Proof.
  destruct (read_url_other_exception_not_retried Cases.broken Demo.settings "u" Demo.start 2
              (ValueError "check_hostname requires server_hostname"))
    as (Hraise & Htrace & _).
  - lia.
  - vm_compute. discriminate.
  - intros j Hj. unfold request_failed. destruct j as [|j]; [by eexists | simpl in Hj; lia].
  - reflexivity.
  - discriminate.
  - split; [exact Hraise | etransitivity; [exact Htrace | reflexivity]].
Defined.

(** [read_url_without_attempts] with [READ_ATTEMPTS_MAX = 0]. *)
Lemma read_url_without_attempts_witness :
  _url_entries Demo.one_entry Cases.no_attempts "u" Demo.start
  = (Raise (UnboundLocalError "response"), Demo.start).
Proof.
  destruct (read_url_without_attempts Demo.one_entry Cases.no_attempts "u" Demo.start)
    as (_ & _ & Hmiss); [vm_compute; reflexivity|].
  by apply Hmiss.
Defined.

(** [entries_without_assignment_only_allocates] on a second feed of the
    URL of [Demo.world_one], with a blacklist: the cached entry is as it
    was. *)
Lemma entries_without_assignment_only_allocates_witness :
  entry_at (_entries Demo.one_entry Demo.settings
              (mkFeedConfig None (Some (mkSearchlist (Some ["foo"]) None None))
                            None None None None None None) "u" Demo.world_one).2 0
  = Some (FeedEntry.mk "hello foo bar" "http://x.test/1").
Proof.
  apply (entries_without_assignment_only_allocates Demo.one_entry Demo.settings); reflexivity.
Defined.

(** [url_entries_served_from_cache]: a second call right after the
    first. *)
Lemma url_entries_served_from_cache_witness :
  _url_entries Demo.one_entry Demo.settings "u" Demo.world_one = (Ok 1%nat, Demo.world_one).
Proof.
  destruct (url_entries_served_from_cache Demo.one_entry Demo.settings "u"
              Demo.start Demo.world_one 1)
    as (expires & _ & _ & Hagain & _).
  - reflexivity.
  - vm_compute. reflexivity.
  - exact Hagain.
Defined.

(** [url_entries_refetched_after_expiry] an hour and a second later: a
    new list object, stored for another hour. *)
Lemma url_entries_refetched_after_expiry_witness :
  ∃ w1,
    _url_entries Demo.one_entry Demo.settings "u" Cases.world_later = (Ok 3%nat, w1)
    ∧ url_cache w1 !! "u" = Some (7201%Z, 3%nat).
Proof.
  destruct (url_entries_refetched_after_expiry Demo.one_entry Demo.settings "u"
              Cases.world_later 3600 1)
    as (_ & _ & Hnew).
  - vm_compute. reflexivity.
  - vm_compute. reflexivity.
  - eexists. split; [vm_compute; reflexivity|].
    edestruct Hnew as (_ & Hcache & _); [vm_compute; reflexivity|].
    rewrite Hcache. vm_compute. reflexivity.
Defined.

(** [dedupe_entries_obj_returns_or_allocates] on a list of two entries
    with the same [long_url]: a new list with the first of them. *)
Lemma dedupe_entries_obj_returns_or_allocates_witness :
  ∃ kept,
    _dedupe_entries_obj 2 Cases.twice
    = (Ok 3%nat, set_heap Cases.twice (heap Cases.twice ++ [OList kept.*1]))
    ∧ kept.*2 = [FeedEntry.mk "First" "http://x.test/1"].
Proof.
  destruct (dedupe_entries_obj_returns_or_allocates 2 
              [(0%nat, FeedEntry.mk "First" "http://x.test/1");
               (1%nat, FeedEntry.mk "Again" "http://x.test/1")] Cases.twice)
    as [_ Hdup]; [reflexivity|].
  destruct Hdup as (kept & Hrun & _ & Hvals & _).
  - intros Hnd. apply NoDup_cons in Hnd as [Hfresh _]. apply Hfresh. left.
  - exists kept. split; [exact Hrun|]. rewrite Hvals. vm_compute. reflexivity.
Defined.

(** [entries_have_distinct_long_urls] on feed [A] of [#chan]. *)
Lemma entries_have_distinct_long_urls_witness :
  ∃ keyed w',
    read_entries 3 w' = (Ok keyed, w')
    ∧ NoDup (map FeedEntry.long_url keyed.*2).
Proof.
  destruct (entries_have_distinct_long_urls Demo.one_entry Demo.settings
              Demo.https_explain_config "u" Demo.start
              (_entries Demo.one_entry Demo.settings Demo.https_explain_config "u" Demo.start).2
              3)
    as [(keyed & Hread & _ & Hnd) _].
  - apply well_formed_empty_world.
  - vm_compute. reflexivity.
  - by eexists keyed, _.
Defined.


(** [blacklist_removes_listed] on [hello foo bar] with the blacklist
    [foo]: nothing is left, and the list of the cache still holds the
    entry. *)
Lemma blacklist_removes_listed_witness :
  ∃ w',
    remove_blacklisted Demo.one_entry Demo.foo_whitelist 1 Demo.world_one = (Ok 2%nat, w')
    ∧ read_entries 2 w' = (Ok [], w')
    ∧ read_entries 1 w' = (Ok [(0%nat, FeedEntry.mk "hello foo bar" "http://x.test/1")], w').
Proof.
  destruct (blacklist_removes_listed Demo.one_entry Demo.foo_whitelist 1 Demo.world_one [0%nat])
    as (keyed & Hfst & Hread & Hrun & Hnew & Hold & _).
  - apply (triple_url_entries Demo.one_entry Demo.settings "u" Demo.start);
      [apply well_formed_empty_world | exact I].
  - vm_compute. reflexivity.
  - vm_compute in Hread. injection Hread as <-.
    eexists. split; [exact Hrun|]. split; [exact Hnew | exact Hold].
Defined.

(** [searchlist_without_patterns] on the whitelist [{'explain': true}]. *)
Lemma searchlist_without_patterns_witness :
  ∃ new w',
    keep_whitelisted Demo.one_entry (mkSearchlist None None (Some true)) 1 Demo.world_one
    = (Ok new, w')
    ∧ list_at w' new = Some [].
Proof.
  destruct (searchlist_without_patterns Demo.one_entry (mkSearchlist None None (Some true))
              1 Demo.world_one [0%nat])
    as (_ & Hwhite & _).
  - apply (triple_url_entries Demo.one_entry Demo.settings "u" Demo.start);
      [apply well_formed_empty_world | exact I].
  - vm_compute. reflexivity.
  - reflexivity.
  - reflexivity.
  - exact Hwhite.
Defined.


(** [enforce_https_settles] on the entry at [http://x.test/1]. *)
Lemma enforce_https_settles_witness :
  ∃ w',
    enforce_https 1 Demo.world_one = (Ok tt, w')
    ∧ read_entries 1 w' = (Ok [(0%nat, FeedEntry.mk "hello foo bar" "https://x.test/1")], w')
    ∧ enforce_https 1 w' = (Ok tt, w').
Proof.
  destruct (enforce_https_settles 1 Demo.world_one [0%nat])
    as (keyed & w' & Hfst & Hread & Hrun & Hread' & _ & Hagain).
  - apply (triple_url_entries Demo.one_entry Demo.settings "u" Demo.start);
      [apply well_formed_empty_world | exact I].
  - vm_compute. reflexivity.
  - vm_compute in Hread. injection Hread as <-.
    exists w'. split; [exact Hrun|]. split; [|exact Hagain].
    rewrite Hread'. vm_compute. reflexivity.
Defined.



(** [format_entries_raises_midway] with a template that uses a group
    the second title does not have: the first slot is formatted, the
    second is not. *)
Lemma format_entries_raises_midway_witness :
  ∃ w',
    format_entries Cases.issues Cases.id_format 2
      (_url_entries Cases.issues Demo.settings "u" Demo.start).2 = (Raise (KeyError "id"), w')
    ∧ read_entries 2 w'
      = (Ok [(3%nat, FeedEntry.mk "#7 Issue 7" "http://x.test/7");
             (1%nat, FeedEntry.mk "About" "http://x.test/about")], w').
Proof.
  destruct (format_entries_raises_midway Cases.issues Cases.id_format 2
              (_url_entries Cases.issues Demo.settings "u" Demo.start).2
              [(0%nat, FeedEntry.mk "Issue 7" "http://x.test/7")] []
              (1%nat, FeedEntry.mk "About" "http://x.test/about")
              [FeedEntry.mk "#7 Issue 7" "http://x.test/7"] (KeyError "id"))
    as (w' & Hrun & Hread & _).
  - vm_compute. reflexivity.
  - repeat constructor.
  - reflexivity.
  - exists w'. split; [exact Hrun|]. rewrite Hread. vm_compute. reflexivity.
Defined.

(** [postable_entries_short_answer] with two entries and a shortener
    that answers with one URL. *)
Lemma postable_entries_short_answer_witness :
  (postable_entries Cases.issues Demo.settings (Feed.mk "#chan" "B" "u" Demo.no_config 2)
     (_url_entries Cases.issues Demo.settings "u" Demo.start).2).1
  = Raise IndexError.
Proof.
  erewrite (postable_entries_short_answer Cases.issues Demo.settings
              (Feed.mk "#chan" "B" "u" Demo.no_config 2)
              (_url_entries Cases.issues Demo.settings "u" Demo.start).2 _
              [FeedEntry.mk "Issue 7" "http://x.test/7";
               FeedEntry.mk "About" "http://x.test/about"]).
  - reflexivity.
  - vm_compute. reflexivity.
  - discriminate.
  - reflexivity.
  - vm_compute. lia.
Defined.

(** [postable_entries_unknown_new_symbol] with [new: many]. *)
Lemma postable_entries_unknown_new_symbol_witness :
  (postable_entries Demo.five_entries Demo.settings
     (Feed.mk "#chan" "B" "u" Cases.many_config 5) Demo.world_B).1
  = Raise (KeyError "many").
Proof.
  edestruct (postable_entries_unknown_new_symbol Demo.five_entries Demo.settings
               (Feed.mk "#chan" "B" "u" Cases.many_config 5) Demo.world_B) as [Hnew _].
  - vm_compute. reflexivity.
  - reflexivity.
  - by rewrite Hnew.
Defined.

(** [postable_entries_come_from_the_feed] on feed [B] of [#chan]. *)
Lemma postable_entries_come_from_the_feed_witness :
  map as_feed_entry
    [shortened_from (FeedEntry.mk "T1" "http://x.test/1") "https://sho.rt/http://x.test/1";
     shortened_from (FeedEntry.mk "T2" "http://x.test/2") "https://sho.rt/http://x.test/2";
     shortened_from (FeedEntry.mk "T3" "http://x.test/3") "https://sho.rt/http://x.test/3"]
  `sublist_of` Demo.keyed_B.*2.
Proof.
  destruct (postable_entries_come_from_the_feed Demo.five_entries Demo.settings Demo.feed_B
              Demo.world_B Demo.keyed_B) as [Hsub _]; [vm_compute; reflexivity|].
  apply Hsub. vm_compute. reflexivity.
Defined.

(** [explain_title_marks_the_span] on [foo] found at [(6, 9)] in
    [hello foo bar]. *)
Lemma explain_title_marks_the_span_witness :
  String.length (explain_title "hello foo bar" (mkMatch (6, 9)%nat [])) = 15%nat.
Proof.
  destruct (explain_title_marks_the_span "hello foo bar" (mkMatch (6, 9)%nat []) 6 9)
    as (before & found & after & _ & _ & _ & _ & Hlen); [reflexivity | simpl; lia |].
  exact Hlen.
Defined.



(** [entries_repeat_without_assignment] on feed [B] of [#chan], built a
    second time: no request, and the same five entries. *)
Lemma entries_repeat_without_assignment_witness :
  ∃ entries2 w2 keyed2,
    _entries Demo.five_entries Demo.settings Demo.no_config "u" Demo.world_B = (Ok entries2, w2)
    ∧ read_entries entries2 w2 = (Ok keyed2, w2)
    ∧ keyed2.*2 = Demo.keyed_B.*2
    ∧ trace w2 = trace Demo.world_B.
Proof.
  destruct (entries_repeat_without_assignment Demo.five_entries Demo.settings Demo.no_config
              "u" Demo.start Demo.world_B 5)
    as (entries2 & w2 & keyed1 & keyed2 & Hrun & Hread1 & Hread2 & Hvals & _ & _ & _ & Htrace).
  - apply well_formed_empty_world.
  - reflexivity.
  - reflexivity.
  - vm_compute. reflexivity.
  - exists entries2, w2, keyed2. split; [exact Hrun|]. split; [exact Hread2|].
    split; [|exact Htrace]. rewrite Hvals. vm_compute in Hread1. by injection Hread1 as <-.
Defined.
